(** * Hydra configuration loader: a shallow embedding of
      [hydra/_internal/config_loader.py] and the properties of its
      defaults composition, search-path resolution and override
      classification. *)

From stdpp Require Import base list strings gmap.
From Stdlib Require Import ZArith Ascii.

Set Warnings "-register-all".

Open Scope string_scope.
Open Scope list_scope.

(** * Part I: the embedding *)

(** ** Exceptions and fallible computations *)

(** The Python exceptions the loader can raise, directly or through the
    built-in operations it uses. *)
Inductive exn :=
| StopIteration
| IndexError
| TypeError
| ValueError
| KeyError
| AttributeError
| AssertionError
| IsADirectoryError
| FileNotFoundError
| ImportError
| NotImplementedError (message : string)
| MissingConfigException (message : string) (missing_cfg_file : string)
    (options : option (list string)).

Inductive result (A : Type) :=
| Ok (a : A)
| Raise (e : exn).
Arguments Ok {A} a.
Arguments Raise {A} e.

#[global] Instance result_ret : MRet result := fun A a => Ok a.
#[global] Instance result_bind : MBind result :=
  fun A B f m => match m with Ok a => f a | Raise e => Raise e end.

(** ** Strings *)

Definition nl : string := String (Ascii.ascii_of_nat 10) "".
Definition tab : string := String (Ascii.ascii_of_nat 9) "".

(** [sub in s] *)
Fixpoint str_contains (sub s : string) : bool :=
  String.prefix sub s ||
  match s with
  | EmptyString => false
  | String _ s' => str_contains sub s'
  end.

(** [s.startswith(p)] *)
Definition startswith (p s : string) : bool := String.prefix p s.

(** [s.endswith(p)] *)
Definition endswith (p s : string) : bool :=
  String.prefix (String.rev p) (String.rev s).

(** [s[n:]] *)
Fixpoint str_drop (n : nat) (s : string) : string :=
  match n, s with
  | S n', String _ s' => str_drop n' s'
  | _, _ => s
  end.

(** [s[:n]] *)
Fixpoint str_take (n : nat) (s : string) : string :=
  match n, s with
  | S n', String c s' => String c (str_take n' s')
  | _, _ => ""
  end.

(** [s.find(c)] for a one-character needle; [None] stands for [-1]. *)
Fixpoint str_find (c : Ascii.ascii) (s : string) : option nat :=
  match s with
  | EmptyString => None
  | String c' s' =>
      if Ascii.eqb c c' then Some 0 else S <$> str_find c s'
  end.

(** [s.rfind(c)] for a one-character needle. *)
Fixpoint str_rfind (c : Ascii.ascii) (s : string) : option nat :=
  match s with
  | EmptyString => None
  | String c' s' =>
      match str_rfind c s' with
      | Some i => Some (S i)
      | None => if Ascii.eqb c c' then Some 0 else None
      end
  end.

(** [sep.join(l)] *)
Fixpoint str_join (sep : string) (l : list string) : string :=
  match l with
  | [] => ""
  | [x] => x
  | x :: l' => x +:+ sep +:+ str_join sep l'
  end.

(** ** Structured documents *)

(** Scalars of a document. *)
Inductive value :=
| VNone
| VBool (b : bool)
| VInt (z : Z)
| VStr (s : string).

(** A document tree: scalars, ordered lists ([ListConfig]) and maps with
    ordered keys ([DictConfig]).  Keys of a map are unique. *)
Inductive node :=
| Leaf (v : value)
| Seq (items : list node)
| Map (content : list (string * node)).

(** [d[key]] on the content of a map. *)
Fixpoint dict_get {A} (key : string) (d : list (string * A)) : option A :=
  match d with
  | [] => None
  | (k, v) :: d' => if decide (k = key) then Some v else dict_get key d'
  end.

(** [d[key] = v]: an existing key keeps its position, a new key goes last. *)
Fixpoint dict_set {A} (key : string) (v : A) (d : list (string * A))
  : list (string * A) :=
  match d with
  | [] => [(key, v)]
  | (k, x) :: d' =>
      if decide (k = key) then (k, v) :: d' else (k, x) :: dict_set key v d'
  end.

(** [del d[key]] *)
Fixpoint dict_del {A} (key : string) (d : list (string * A))
  : list (string * A) :=
  match d with
  | [] => []
  | (k, x) :: d' =>
      if decide (k = key) then d' else (k, x) :: dict_del key d'
  end.

(** Python's [==] on scalars; [bool] is a subtype of [int]. *)
Definition value_eqb (a b : value) : bool :=
  match a, b with
  | VNone, VNone => true
  | VBool x, VBool y => bool_decide (x = y)
  | VInt x, VInt y => bool_decide (x = y)
  | VBool x, VInt y | VInt y, VBool x => bool_decide (Z.b2z x = y)
  | VStr x, VStr y => bool_decide (x = y)
  | _, _ => false
  end.

(** [==] on configuration nodes: lists are compared element by element,
    maps by their key sets and the values under each key, whatever the
    order of the keys. *)
Fixpoint node_eqb (x y : node) {struct x} : bool :=
  match x, y with
  | Leaf a, Leaf b => value_eqb a b
  | Seq l1, Seq l2 =>
      (fix go (l1 l2 : list node) {struct l1} : bool :=
         match l1, l2 with
         | [], [] => true
         | a :: l1', b :: l2' => node_eqb a b && go l1' l2'
         | _, _ => false
         end) l1 l2
  | Map c1, Map c2 =>
      bool_decide (length c1 = length c2) &&
      (fix go (c : list (string * node)) {struct c} : bool :=
         match c with
         | [] => true
         | (k, v) :: c' =>
             match dict_get k c2 with
             | Some v' => node_eqb v v'
             | None => false
             end && go c'
         end) c1
  | _, _ => false
  end.

(** ** Python lists *)

(** [l[i]] *)
Definition list_getitem {A} (i : nat) (l : list A) : result A :=
  match l !! i with
  | Some x => Ok x
  | None => Raise IndexError
  end.

(** [l[i] = x] *)
Definition list_setitem {A} (i : nat) (x : A) (l : list A)
  : result (list A) :=
  if decide (i < length l) then Ok (<[i:=x]> l) else Raise IndexError.

(** [del l[i]] *)
Definition list_delitem {A} (i : nat) (l : list A) : result (list A) :=
  if decide (i < length l) then Ok (delete i l) else Raise IndexError.

(** [l.remove(x)]: the first element equal to [x] goes. *)
Fixpoint list_remove {A} (eqb : A -> A -> bool) (x : A) (l : list A)
  : result (list A) :=
  match l with
  | [] => Raise ValueError
  | y :: l' =>
      if eqb x y then Ok l' else l'' ← list_remove eqb x l'; Ok (y :: l'')
  end.

(** ** Defaults lists: [_merge_default_lists] *)

(** The inner function [get_key] of [_merge_default_lists]. *)
Definition get_key (d1 : list (string * node)) : result string :=
  match d1 with
  | [] => Raise StopIteration
  | (key1, _) :: keys_iter =>
      if decide (key1 = "optional") then
        match keys_iter with
        | [] => Raise StopIteration
        | (key1, _) :: _ => Ok key1
        end
      else Ok key1
  end.

(** First loop of [_merge_default_lists]: index the groups of [primary]. *)
Fixpoint merge_key_to_idx (idx : nat) (primary : list node)
    (key_to_idx : gmap string nat) : result (gmap string nat) :=
  match primary with
  | [] => Ok key_to_idx
  | Map d :: primary' =>
      key ← get_key d;
      merge_key_to_idx (S idx) primary' (<[key := idx]> key_to_idx)
  | Leaf (VStr _) :: primary' => merge_key_to_idx (S idx) primary' key_to_idx
  | _ :: _ => Raise AssertionError
  end.

(** Second loop: walk a copy of [merged_list]; an entry whose group is
    indexed overwrites [primary[idx]] and is removed from [merged_list]. *)
Fixpoint merge_matched (key_to_idx : gmap string nat)
    (copy primary merged_list : list node)
  : result (list node * list node) :=
  match copy with
  | [] => Ok (primary, merged_list)
  | Map d :: copy' =>
      key ← get_key d;
      match key_to_idx !! key with
      | Some idx =>
          primary' ← list_setitem idx (Map d) primary;
          merged_list' ← list_remove node_eqb (Map d) merged_list;
          merge_matched key_to_idx copy' primary' merged_list'
      | None => merge_matched key_to_idx copy' primary merged_list
      end
  | _ :: copy' => merge_matched key_to_idx copy' primary merged_list
  end.

(** [_merge_default_lists(primary, merged_list)]; both lists are mutated
    in place, the result is their final contents. *)
Definition _merge_default_lists (primary merged_list : list node)
  : result (list node * list node) :=
  key_to_idx ← merge_key_to_idx 0 primary ∅;
  '(primary, merged_list) ←
    merge_matched key_to_idx merged_list primary merged_list;
  Ok (primary ++ merged_list, merged_list).

(** *** The data model of a defaults list *)

(** A choice is a scalar: the name of a document, or null. *)
Definition is_choice (n : node) : bool :=
  match n with
  | Leaf _ => true
  | _ => false
  end.

Definition is_bool (n : node) : bool :=
  match n with
  | Leaf (VBool _) => true
  | _ => false
  end.

(** A group binding: one group key with its choice, and possibly an
    [optional] flag before or after it. *)
Definition group_binding (n : node) : bool :=
  match n with
  | Map [(g, c)] => bool_decide (g ≠ "optional") && is_choice c
  | Map [(k1, v1); (k2, v2)] =>
      (bool_decide (k1 = "optional") && is_bool v1 &&
       bool_decide (k2 ≠ "optional") && is_choice v2)
      || (bool_decide (k2 = "optional") && is_bool v2 &&
          bool_decide (k1 ≠ "optional") && is_choice v1)
  | _ => false
  end.

Definition bare_file (n : node) : bool :=
  match n with
  | Leaf (VStr _) => true
  | _ => false
  end.

Definition defaults_entry (n : node) : bool := group_binding n || bare_file n.

(** The group of an entry, none for a bare file. *)
Definition group_of (n : node) : option string :=
  match n with
  | Map d => match get_key d with Ok k => Some k | Raise _ => None end
  | _ => None
  end.

(** Position of the last entry of [l] whose key, as [key_of] reads it,
    is [key]. *)
Fixpoint last_index_of (key_of : node -> option string) (key : string)
    (l : list node) : option nat :=
  match l with
  | [] => None
  | x :: l' =>
      match last_index_of key_of key l' with
      | Some i => Some (S i)
      | None => if decide (key_of x = Some key) then Some 0 else None
      end
  end.

(** Position of the last entry of [l] bound to [group]. *)
Definition last_group_index (group : string) (l : list node) : option nat :=
  last_index_of group_of group l.

(** Position of the first entry of [l] bound to [group]. *)
Fixpoint first_group_index (group : string) (l : list node) : option nat :=
  match l with
  | [] => None
  | x :: l' =>
      if decide (group_of x = Some group) then Some 0
      else S <$> first_group_index group l'
  end.

(** The merge as the specification words it: for each secondary entry in
    order, an entry of [primary] with the same group has its choice
    replaced in place (the first such entry), otherwise the secondary
    entry is appended. *)
Definition merge_stated_step (primary : list node) (d : node) : list node :=
  match d with
  | Map c =>
      match get_key c with
      | Ok g =>
          match first_group_index g primary, dict_get g c with
          | Some i, Some choice =>
              match primary !! i with
              | Some (Map p) => <[i := Map (dict_set g choice p)]> primary
              | _ => primary ++ [d]
              end
          | _, _ => primary ++ [d]
          end
      | Raise _ => primary ++ [d]
      end
  | _ => primary ++ [d]
  end.

Definition merge_stated (primary secondary : list node) : list node :=
  foldl merge_stated_step primary secondary.

(** The merge as the code performs it: the group index is taken over the
    original [primary], the last entry of a group is the one addressed,
    and the secondary entry replaces it as a whole. *)
Definition merge_whole_step (primary0 : list node) (acc : list node)
    (d : node) : list node :=
  match group_of d with
  | Some g =>
      match last_group_index g primary0 with
      | Some i => <[i := d]> acc
      | None => acc ++ [d]
      end
  | None => acc ++ [d]
  end.

Definition merge_whole (primary secondary : list node) : list node :=
  foldl (merge_whole_step primary) primary secondary.

(** The secondary entries that stay in [merged_list] and get appended:
    bare files and bindings of a group that [primary0] does not have. *)
Definition merge_appended (primary0 : list node) (d : node) : bool :=
  match group_of d with
  | Some g => bool_decide (last_group_index g primary0 = None)
  | None => true
  end.

(** An entry of the data model that the merge leaves in [merged_list]. *)
Definition unindexed (primary0 : list node) (y : node) : Prop :=
  defaults_entry y = true /\ merge_appended primary0 y = true.

(** Concrete defaults lists. *)
Definition ex_model_optional : node :=
  Map [("model", Leaf (VStr "alexnet")); ("optional", Leaf (VBool true))].
Definition ex_model (choice : string) : node :=
  Map [("model", Leaf (VStr choice))].
Definition ex_dataset (choice : string) : node :=
  Map [("dataset", Leaf (VStr choice))].

(** Truth value of a node: [bool(x)]. *)
Definition truthy (n : node) : bool :=
  match n with
  | Leaf VNone => false
  | Leaf (VBool b) => b
  | Leaf (VInt z) => negb (Z.eqb z 0)
  | Leaf (VStr s) => negb (String.eqb s "")
  | Seq items => negb (bool_decide (items = []))
  | Map content => negb (bool_decide (content = []))
  end.

(** Attribute access [d.key] on a map outside strict mode: a missing key
    and a null value both read as [None]. *)
Definition dict_attr (key : string) (d : list (string * node)) : option node :=
  match dict_get key d with
  | Some (Leaf VNone) | None => None
  | Some n => Some n
  end.

(** [for x in n]: what iterating over a node yields. *)
Definition iterate (n : node) : result (list node) :=
  match n with
  | Seq items => Ok items
  | Map content => Ok ((fun kv => Leaf (VStr kv.1)) <$> content)
  | Leaf (VStr s) =>
      Ok ((fun c => Leaf (VStr (String c ""))) <$> String.list_ascii_of_string s)
  | Leaf _ => Raise TypeError
  end.

(** Modelled from the spec: [OmegaConf.merge] of the structured-document
    library, which is not part of the source; a deep merge of two trees
    in which the right operand wins, maps being merged key by key. *)
Fixpoint merge (a b : node) {struct b} : node :=
  match a, b with
  | Map ca, Map cb =>
      Map ((fix go (acc cb : list (string * node)) {struct cb} :=
              match cb with
              | [] => acc
              | (k, vb) :: cb' =>
                  go (dict_set k
                        (match dict_get k acc with
                         | Some va => merge va vb
                         | None => vb
                         end) acc) cb'
              end) ca cb)
  | _, _ => b
  end.

(** [OmegaConf.merge(cfg, loaded_cfg)] on two top-level maps. *)
Definition OmegaConf_merge (cfg loaded_cfg : list (string * node))
  : list (string * node) :=
  match merge (Map cfg) (Map loaded_cfg) with
  | Map ret => ret
  | _ => loaded_cfg
  end.

(** ** The environment *)

(** What the loader reaches outside its own module: the file system, the
    package-resource API, the YAML parser, and the helpers of
    [plugins.common.utils].  The environment does not change during a
    composition. *)
Class Environment := {
  (** [os.path.exists], [os.path.isdir], [os.listdir] *)
  os_path_exists : string -> bool;
  os_path_isdir : string -> bool;
  os_listdir : string -> list string;
  (** the text of a file, [open(path)] *)
  open_file : string -> result string;
  (** [pkg_resources]: a module that cannot be imported raises
      [ImportError]; a module for which the resource API has no
      provider that can answer raises [NotImplementedError]; the
      provider of a module can raise other exceptions *)
  resource_exists : string -> string -> result bool;
  resource_isdir : string -> string -> result bool;
  resource_listdir : string -> string -> result (list string);
  resource_stream : string -> string -> result string;
  (** the parser behind [OmegaConf.load] and [yaml.load] *)
  yaml_load : string -> result node;
  (** [split_key_val], [get_overrides_dirname] and [JobRuntime().get("name")]
      of [plugins.common.utils] *)
  split_key_val : string -> result (string * string);
  get_overrides_dirname : node -> node -> node -> node -> result string;
  JobRuntime_name : node;
}.

(** ** Search path *)

Record SearchPath := { provider : string; path : string }.

Record LoadTrace := {
  filename : string;
  trace_path : option string;
  trace_provider : option string;
}.

(** The composer object: [self]. *)
Record ConfigLoader := {
  config_search_path : list SearchPath;
  default_strict : option bool;
  all_config_checked : list LoadTrace;
}.

(** [ConfigLoader.__init__] *)
Definition ConfigLoader_init (config_search_path : list SearchPath)
    (default_strict : option bool) : ConfigLoader :=
  {| config_search_path := config_search_path;
     default_strict := default_strict;
     all_config_checked := [] |}.

(** [get_load_history]: a copy of the whole list. *)
Definition get_load_history (self : ConfigLoader) : list LoadTrace :=
  all_config_checked self.

Definition _split_path (path : string) : bool * string :=
  let prefix := "pkg://" in
  let is_pkg := startswith prefix path in
  (is_pkg, if is_pkg then str_drop (String.length prefix) path else path).

Definition _split_module_and_resource (filename : string) : string * string :=
  let '(module_name, resource_name) :=
    match str_find "/"%char filename with
    | None => (filename, "")
    | Some sep => (str_take sep filename, str_drop (S sep) filename)
    end in
  if decide (module_name = "") then (resource_name, "")
  else (module_name, resource_name).

Section Loader.
Context {env : Environment}.

Definition _exists (is_pkg : bool) (filename : string) : result bool :=
  if is_pkg then
    let '(module_name, resource_name) := _split_module_and_resource filename in
    match resource_exists module_name resource_name with
    | Ok ret => Ok ret
    | Raise ImportError => Ok false
    | Raise (NotImplementedError _) =>
        Raise (NotImplementedError
                 ("Unable to load " +:+ module_name +:+ "/" +:+ resource_name
                  +:+ ", are you missing an __init__.py?"))
    | Raise e => Raise e
    end
  else Ok (os_path_exists filename).

(** [ConfigLoader.exists] *)
Definition exists_ (filename : string) : result bool :=
  let '(is_pkg, path) := _split_path filename in
  _exists is_pkg path.

(** The loop of [_find_config] over the search path. *)
Fixpoint find_config_in (search_paths : list SearchPath) (filepath : string)
  : result (option SearchPath) :=
  match search_paths with
  | [] => Ok None
  | search_path :: rest =>
      let '(is_pkg, path) := _split_path (path search_path) in
      let config_file := path +:+ "/" +:+ filepath in
      found ← _exists is_pkg config_file;
      if found : bool then Ok (Some search_path)
      else find_config_in rest filepath
  end.

Definition _find_config (self : ConfigLoader) (filepath : string)
  : result (option SearchPath) :=
  find_config_in (config_search_path self) filepath.

Definition exists_in_search_path (self : ConfigLoader) (filepath : string)
  : result bool :=
  found ← _find_config self filepath;
  Ok (bool_decide (found ≠ None)).

(** ** Computations of the composer *)

(** A method that may raise and may append to [self.all_config_checked];
    what was appended stays when the method raises. *)
Definition loader (A : Type) : Type :=
  ConfigLoader -> result A * ConfigLoader.

#[global] Instance loader_ret : MRet loader := fun A a self => (Ok a, self).
#[global] Instance loader_bind : MBind loader :=
  fun A B f m self =>
    match m self with
    | (Ok a, self') => f a self'
    | (Raise e, self') => (Raise e, self')
    end.

Definition lift {A} (r : result A) : loader A := fun self => (r, self).

(** A computation that only reads [self]. *)
Definition read {A} (f : ConfigLoader -> result A) : loader A :=
  fun self => (f self, self).

(** [self.all_config_checked.append(t)] *)
Definition record_trace (t : LoadTrace) : loader unit :=
  fun self =>
    (Ok (),
     {| config_search_path := config_search_path self;
        default_strict := default_strict self;
        all_config_checked := all_config_checked self ++ [t] |}).

(** [OmegaConf.load(fullpath)] *)
Definition OmegaConf_load (fullpath : string) : result node :=
  text ← open_file fullpath; yaml_load text.

(** The closing assertion of [_load_config_impl]: the top level of a
    loaded document is a map. *)
Definition top_level_dict (loaded_cfg : node)
  : result (option (list (string * node))) :=
  match loaded_cfg with
  | Map content => Ok (Some content)
  | _ => Raise AssertionError
  end.

Definition _load_config_impl (input_file : string) (record_load : bool)
  : loader (option (list (string * node))) :=
  search_path ← read (fun self => _find_config self input_file);
  match search_path with
  | None =>
      _ ← (if record_load
           then record_trace {| filename := input_file; trace_path := None;
                                trace_provider := None |}
           else mret ());
      mret None
  | Some search_path =>
      let fullpath := path search_path +:+ "/" +:+ input_file in
      let is_pkg := startswith "pkg://" (path search_path) in
      let hit := {| filename := input_file;
                    trace_path := Some (path search_path);
                    trace_provider := Some (provider search_path) |} in
      if is_pkg then
        let fullpath := str_drop (String.length "pkg://") fullpath in
        let '(module_name, resource_name) :=
          _split_module_and_resource fullpath in
        loaded_cfg ← lift (stream ← resource_stream module_name resource_name;
                           yaml_load stream);
        _ ← (if record_load then record_trace hit else mret ());
        lift (top_level_dict loaded_cfg)
      else if os_path_exists fullpath then
        loaded_cfg ← lift (OmegaConf_load fullpath);
        _ ← (if record_load then record_trace hit else mret ());
        lift (top_level_dict loaded_cfg)
      else lift (Raise AssertionError)
  end.

(** ** Group options: [get_group_options] *)

(** [os.path.join] of two components. *)
Definition os_path_join (a b : string) : string :=
  if startswith "/" b then b
  else if bool_decide (a = "") || endswith "/" a then a +:+ b
  else a +:+ "/" +:+ b.

(** [file[0:-len(".yaml")]] *)
Definition strip_yaml (file : string) : string :=
  str_take (String.length file - String.length ".yaml") file.

(** The files of one package directory that count as options. *)
Fixpoint pkg_options (module_name group_name file_type : string)
    (all_files : list string) : result (list string) :=
  match all_files with
  | [] => Ok []
  | file :: rest =>
      is_dir ← (if bool_decide (file_type = "dir")
                then resource_isdir module_name (os_path_join group_name file)
                else Ok false);
      files ← pkg_options module_name group_name file_type rest;
      if bool_decide (file_type = "dir") && is_dir
         && bool_decide (file ≠ "__pycache__")
      then Ok (file :: files)
      else if bool_decide (file_type = "file") && endswith ".yaml" file
      then Ok (strip_yaml file :: files)
      else Ok files
  end.

(** The files of one directory that count as options. *)
Definition dir_options (group_path group_name file_type : string)
    (all_files : list string) : list string :=
  omap (fun file =>
          let full_path :=
            os_path_join (os_path_join group_path group_name) file in
          if bool_decide (file_type = "dir") && os_path_isdir full_path
             && bool_decide (file ≠ "__pycache__")
          then Some file
          else if bool_decide (file_type = "file") && endswith ".yaml" file
          then Some (strip_yaml file)
          else None) all_files.

Fixpoint group_options_in (search_paths : list SearchPath)
    (group_name file_type : string) : result (list string) :=
  match search_paths with
  | [] => Ok []
  | search_path :: rest =>
      let '(is_pkg, path) := _split_path (path search_path) in
      files ←
        (if is_pkg then
           let '(module_name, resource_name) :=
             _split_module_and_resource (path +:+ "/" +:+ group_name) in
           found ← _exists is_pkg path;
           is_dir ← (if found : bool
                     then resource_isdir module_name resource_name
                     else Ok false);
           if is_dir : bool then
             all_files ← resource_listdir module_name resource_name;
             pkg_options module_name group_name file_type all_files
           else Ok []
         else
           let group_path := path +:+ "/" +:+ group_name in
           if os_path_isdir group_path
           then Ok (dir_options group_path group_name file_type
                      (os_listdir group_path))
           else Ok []);
      options ← group_options_in rest group_name file_type;
      Ok (files ++ options)
  end.

Definition get_group_options (self : ConfigLoader)
    (group_name file_type : string) : result (list string) :=
  group_options_in (config_search_path self) group_name file_type.

(** ** Merging one document: [_merge_config] *)

Definition _merge_config (cfg : list (string * node)) (family name : string)
    (required : bool) : loader (list (string * node)) :=
  let new_cfg :=
    if bool_decide (family ≠ "") then family +:+ "/" +:+ name else name in
  loaded_cfg ← _load_config_impl new_cfg true;
  match loaded_cfg with
  | None =>
      if required then
        if bool_decide (family = "") then
          lift (Raise (MissingConfigException
                         ("Could not load " +:+ new_cfg) new_cfg None))
        else
          options ← read (fun self => get_group_options self family "file");
          let msg :=
            if bool_decide (options ≠ [])
            then "Could not load " +:+ new_cfg +:+ ", available options:"
                 +:+ nl +:+ family +:+ ":" +:+ nl +:+ tab
                 +:+ str_join (nl +:+ tab) options
            else "Could not load " +:+ new_cfg in
          lift (Raise (MissingConfigException msg new_cfg (Some options)))
      else mret cfg
  | Some loaded_cfg => mret (OmegaConf_merge cfg loaded_cfg)
  end.

(** ** Validation and extraction of defaults *)

Definition validate_default (default : node) : result unit :=
  match default with
  | Map content =>
      if bool_decide (length content = 2) then
        match dict_attr "optional" content with
        | Some (Leaf (VBool _)) => Ok ()
        | _ => Raise AssertionError
        end
      else if bool_decide (length content = 1) then
        match dict_attr "optional" content with
        | None => Ok ()
        | Some _ => Raise AssertionError
        end
      else Raise AssertionError
  | Leaf (VStr _) => Ok ()
  | _ => Raise AssertionError
  end.

Fixpoint _validate_defaults (defaults : list node) : result unit :=
  match defaults with
  | [] => Ok ()
  | default :: rest => _ ← validate_default default; _validate_defaults rest
  end.

Definition _get_defaults (cfg : list (string * node)) : result (list node) :=
  match dict_attr "defaults" cfg with
  | Some defaults =>
      if truthy defaults then
        match defaults with
        | Seq items => Ok items
        | _ => Raise ValueError
        end
      else Ok []
  | None => Ok []
  end.

Definition _create_cfg (cfg_filename : option string) (record_load : bool)
  : loader (list (string * node)) :=
  cfg ← match cfg_filename with
        | None => mret []
        | Some cfg_filename =>
            ret ← _load_config_impl cfg_filename record_load;
            match ret with
            | Some ret => mret ret
            | None => lift (Raise AssertionError)
            end
        end;
  _ ← lift (match dict_attr "defaults" cfg with
            | Some defaults =>
                items ← iterate defaults; _validate_defaults items
            | None => Ok ()
            end);
  mret cfg.

(** ** The merge pass: [_merge_defaults] *)

(** The extension part of [os.path.splitext]. *)
Definition splitext_ext (p : string) : string :=
  match str_rfind "."%char p with
  | None => ""
  | Some dot_index =>
      let filename_index :=
        match str_rfind "/"%char p with
        | None => 0
        | Some sep_index => S sep_index
        end in
      if bool_decide (filename_index <= dot_index)
         && existsb (fun c => negb (Ascii.eqb c "."%char))
              (String.list_ascii_of_string
                 (str_take (dot_index - filename_index)
                    (str_drop filename_index p)))
      then str_drop dot_index p
      else ""
  end.

Definition get_filename (config_name : string) : string :=
  let ext := splitext_ext config_name in
  if bool_decide (ext ≠ ".yaml") && bool_decide (ext ≠ ".yml")
  then config_name +:+ ".yaml"
  else config_name.

(** [next(iter(d.keys()))] *)
Definition first_key (d : list (string * node)) : result string :=
  match d with
  | [] => Raise StopIteration
  | (k, _) :: _ => Ok k
  end.

(** ["_SKIP_" in name], for what a choice can hold. *)
Definition has_skip (name : node) : result bool :=
  match name with
  | Leaf (VStr s) => Ok (str_contains "_SKIP_" s)
  | Leaf _ => Raise TypeError
  | Seq items => Ok (existsb (node_eqb (Leaf (VStr "_SKIP_"))) items)
  | Map content => Ok (bool_decide (is_Some (dict_get "_SKIP_" content)))
  end.

(** The body of the loop of [merge_defaults]. *)
Definition merge_default (merged_cfg : list (string * node)) (default1 : node)
  : loader (list (string * node)) :=
  match default1 with
  | Map default1 =>
      let '(is_optional, default1) :=
        match dict_attr "optional" default1 with
        | Some optional => (truthy optional, dict_del "optional" default1)
        | None => (false, default1)
        end in
      family ← lift (first_key default1);
      match dict_attr family default1 with
      | None => mret merged_cfg
      | Some name =>
          skip ← lift (has_skip name);
          if skip : bool then mret merged_cfg
          else
            match name with
            | Leaf (VStr name) =>
                _merge_config merged_cfg family (get_filename name)
                  (negb is_optional)
            | _ => lift (Raise TypeError)
            end
      end
  | Leaf (VStr default1) =>
      if str_contains "_SKIP_" default1 then mret merged_cfg
      else _merge_config merged_cfg "" (get_filename default1) true
  | _ => lift (Raise AssertionError)
  end.

(** The inner function [merge_defaults] of [_merge_defaults]. *)
Fixpoint merge_defaults (merged_cfg : list (string * node))
    (def_list : list node) : loader (list (string * node)) :=
  match def_list with
  | [] => mret merged_cfg
  | default1 :: rest =>
      merged_cfg ← merge_default merged_cfg default1;
      merge_defaults merged_cfg rest
  end.

(** The loop that deals the defaults into the system and the user list. *)
Definition split_defaults (split_at : nat) (defaults : list node)
  : list node * list node :=
  foldl (fun '(system_list, user_list) default =>
           if bool_decide (length system_list < split_at)
           then (system_list ++ [default], user_list)
           else (system_list, user_list ++ [default]))
    ([], []) defaults.

Definition _merge_defaults (cfg : list (string * node)) (defaults : list node)
    (split_at : nat) : loader (list (string * node)) :=
  let '(system_list, user_list) := split_defaults split_at defaults in
  cfg ← merge_defaults cfg system_list;
  cfg ← merge_defaults cfg user_list;
  mret (dict_del "defaults" cfg).

(** ** Override classification *)

(** First loop of [_apply_defaults_overrides]: the first key of every map
    entry of [defaults], with its position. *)
Fixpoint overrides_key_to_idx (idx : nat) (defaults : list node)
    (key_to_idx : gmap string nat) : result (gmap string nat) :=
  match defaults with
  | [] => Ok key_to_idx
  | Map d :: defaults' =>
      key ← first_key d;
      overrides_key_to_idx (S idx) defaults' (<[key := idx]> key_to_idx)
  | _ :: defaults' => overrides_key_to_idx (S idx) defaults' key_to_idx
  end.

(** [defaults[idx][key] = value] *)
Definition defaults_set_choice (idx : nat) (key value : string)
    (defaults : list node) : result (list node) :=
  entry ← list_getitem idx defaults;
  match entry with
  | Map d => list_setitem idx (Map (dict_set key (Leaf (VStr value)) d)) defaults
  | _ => Raise TypeError
  end.

(** The state of the loops over the overrides: the shared [overrides]
    list, the [defaults] list and the [consumed] list. *)
Definition override_state : Type := list string * list node * list string.

(** The body of the second loop of [_apply_defaults_overrides]. *)
Definition apply_defaults_override (key_to_idx : gmap string nat)
    (st : override_state) (override : string) : result override_state :=
  let '(overrides, defaults, consumed) := st in
  '(key, value) ← split_key_val override;
  match key_to_idx !! key with
  | Some idx =>
      let value := if str_contains "," value then "_SKIP_" else value in
      defaults ←
        (if bool_decide (value = "null") then list_delitem idx defaults
         else defaults_set_choice idx key value defaults);
      overrides ← list_remove String.eqb override overrides;
      Ok (overrides, defaults, consumed ++ [override])
  | None => Ok st
  end.

(** A loop over a copy of the overrides. *)
Fixpoint for_each_override
    (body : override_state -> string -> result override_state)
    (copy : list string) (st : override_state) : result override_state :=
  match copy with
  | [] => Ok st
  | override :: copy' => st ← body st override; for_each_override body copy' st
  end.

(** [_apply_defaults_overrides(overrides, defaults)]: the consumed
    overrides, and the two lists as the call leaves them. *)
Definition _apply_defaults_overrides (overrides : list string)
    (defaults : list node) : result override_state :=
  key_to_idx ← overrides_key_to_idx 0 defaults ∅;
  '(overrides, defaults, consumed) ←
    for_each_override (apply_defaults_override key_to_idx) overrides
      (overrides, defaults, []);
  Ok (overrides, defaults, consumed).

(** The body of the loop of [_apply_free_defaults]. *)
Definition apply_free_default (self : ConfigLoader) (st : override_state)
    (override : string) : result override_state :=
  let '(overrides, defaults, consumed) := st in
  '(key, value) ← split_key_val override;
  found ← exists_in_search_path self key;
  if found : bool then
    let defaults :=
      if negb (str_contains "," value)
      then defaults ++ [Map [(key, Leaf (VStr value))]]
      else defaults in
    overrides ← list_remove String.eqb override overrides;
    Ok (overrides, defaults, consumed ++ [override])
  else Ok st.

Definition _apply_free_defaults (self : ConfigLoader) (defaults : list node)
    (overrides : list string) : result override_state :=
  for_each_override (apply_free_default self) overrides
    (overrides, defaults, []).

(** [[x for x in overrides if x not in all_consumed]] *)
Definition remaining_overrides (overrides all_consumed : list string)
  : list string :=
  List.filter (fun x => bool_decide (x ∉ all_consumed)) overrides.

(** The inner function [is_hydra] of [load_configuration]. *)
Definition is_hydra (x : string) : bool :=
  startswith "hydra." x || startswith "hydra/" x.

Definition overrides_task (remaining : list string) : list string :=
  List.filter (fun x => negb (is_hydra x)) remaining.

Definition overrides_hydra (remaining : list string) : list string :=
  List.filter is_hydra remaining.

(** ** Strict mode and dotted-path assignment *)

(** Modelled from the spec: the strict flag of the structured-document
    library, which is not part of the source.  A flag can be set on any
    container of a document; a container without a flag follows the
    nearest flagged container above it; a strict container rejects the
    creation of a key.  The flags of a document are kept beside its tree,
    under the path of the container they are set on. *)
Record Config := {
  content : list (string * node);
  struct_flags : gmap (list string) bool;
}.

(** The flag in force at [prefix ++ rest], [inherited] being the one in
    force above [prefix]. *)
Fixpoint flag_from (flags : gmap (list string) bool) (prefix : list string)
    (inherited : option bool) (rest : list string) : option bool :=
  let here :=
    match flags !! prefix with
    | Some b => Some b
    | None => inherited
    end in
  match rest with
  | [] => here
  | k :: rest' => flag_from flags (prefix ++ [k]) here rest'
  end.

Definition is_struct (flags : gmap (list string) bool) (path : list string)
  : bool :=
  bool_decide (flag_from flags [] None path = Some true).

(** A node that is replaced loses the flags set on it and below it. *)
Definition drop_flags (path : list string) (flags : gmap (list string) bool)
  : gmap (list string) bool :=
  filter (fun kv => ¬ path `prefix_of` kv.1) flags.

(** [OmegaConf.set_struct(node, value)] for the container at [path]. *)
Definition set_flag (path : list string) (value : option bool)
    (flags : gmap (list string) bool) : gmap (list string) bool :=
  match value with
  | Some b => <[path := b]> flags
  | None => delete path flags
  end.

(** The node at a path of keys. *)
Fixpoint node_at (n : node) (path : list string) : option node :=
  match path with
  | [] => Some n
  | k :: path' =>
      match n with
      | Map m => n' ← dict_get k m; node_at n' path'
      | _ => None
      end
  end.

(** [m[key] = value] for the map [m] at [path]. *)
Fixpoint assign_in (m : list (string * node)) (path : list string)
    (key : string) (value : node) : option (list (string * node)) :=
  match path with
  | [] => Some (dict_set key value m)
  | k :: path' =>
      match dict_get k m with
      | Some (Map m') =>
          m'' ← assign_in m' path' key value;
          Some (dict_set k (Map m'') m)
      | _ => None
      end
  end.

(** Modelled from the spec: item assignment on the map at [path]; strict
    mode rejects a key that the map does not have. *)
Definition set_item (c : Config) (path : list string) (key : string)
    (value : node) : result Config :=
  match node_at (Map (content c)) path with
  | Some (Map m) =>
      if is_struct (struct_flags c) path
         && bool_decide (dict_get key m = None)
      then Raise KeyError
      else
        match assign_in (content c) path key value with
        | Some content' =>
            Ok {| content := content';
                  struct_flags := drop_flags (path ++ [key]) (struct_flags c) |}
        | None => Raise AttributeError
        end
  | _ => Raise AttributeError
  end.

(** Modelled from the spec: attribute access along a chain of keys,
    [c.k1.k2...]; a missing key reads as [None] outside strict mode and
    raises in strict mode; only a map has attributes. *)
Fixpoint getattr_from (flags : gmap (list string) bool) (prefix : list string)
    (n : node) (keys : list string) : result node :=
  match keys with
  | [] => Ok n
  | k :: keys' =>
      match n with
      | Map m =>
          match dict_get k m with
          | Some n' => getattr_from flags (prefix ++ [k]) n' keys'
          | None =>
              if is_struct flags prefix then Raise AttributeError
              else getattr_from flags (prefix ++ [k]) (Leaf VNone) keys'
          end
      | _ => Raise AttributeError
      end
  end.

Definition getattr_path (c : Config) (path : list string) : result node :=
  getattr_from (struct_flags c) [] (Map (content c)) path.

(** [c.k1...kn.key = value] *)
Definition setattr_path (c : Config) (path : list string) (key : string)
    (value : node) : result Config :=
  n ← getattr_path c path;
  match n with
  | Map _ => set_item c path key value
  | _ => Raise AttributeError
  end.

(** [OmegaConf.set_struct(c.k1...kn, value)] *)
Definition set_struct (c : Config) (path : list string) (value : option bool)
  : result Config :=
  n ← getattr_path c path;
  match n with
  | Map _ | Seq _ =>
      Ok {| content := content c;
            struct_flags := set_flag path value (struct_flags c) |}
  | Leaf _ => Raise AttributeError
  end.

(** [s.split(sep)] for a one-character separator. *)
Fixpoint str_split (sep : ascii) (s : string) : list string :=
  match s with
  | EmptyString => [""]
  | String c s' =>
      if Ascii.eqb c sep then "" :: str_split sep s'
      else
        match str_split sep s' with
        | [] => [String c ""]
        | x :: l => String c x :: l
        end
  end.

(** Modelled from the spec: the dotted-path set.  The path is walked from
    the map [m] at [prefix]; a scalar met on the way is replaced by an
    empty map, a missing key is created unless the map that would hold
    it is strict, and the last key receives the value.  A path through a
    list is not covered. *)
Fixpoint update_in (flags : gmap (list string) bool) (prefix : list string)
    (m : list (string * node)) (key : string) (rest : list string)
    (value : node)
  : result (list (string * node) * gmap (list string) bool) :=
  let strict := is_struct flags prefix in
  match rest with
  | [] =>
      if strict && bool_decide (dict_get key m = None) then Raise KeyError
      else Ok (dict_set key value m, drop_flags (prefix ++ [key]) flags)
  | key' :: rest' =>
      '(child, flags) ←
        match dict_get key m with
        | Some (Map child) => Ok (child, flags)
        | Some (Seq _) => Raise TypeError
        | Some (Leaf _) => Ok ([], drop_flags (prefix ++ [key]) flags)
        | None => if strict then Raise KeyError else Ok ([], flags)
        end;
      '(child, flags) ←
        update_in flags (prefix ++ [key]) child key' rest' value;
      Ok (dict_set key (Map child) m, flags)
  end.

(** [c.update(key, value)] for a dotted [key]. *)
Definition update (c : Config) (key : string) (value : node) : result Config :=
  match str_split "." key with
  | [] => Ok c
  | k :: rest =>
      '(content', flags') ←
        update_in (struct_flags c) [] (content c) k rest value;
      Ok {| content := content'; struct_flags := flags' |}
  end.

(** One item of a dotlist: the key before the first [=], and the value
    parsed from what follows it; without [=] the value is null. *)
Definition dotlist_item (arg : string) : result (string * node) :=
  match str_find "=" arg with
  | None => Ok (arg, Leaf VNone)
  | Some i =>
      value ← yaml_load (str_drop (S i) arg);
      Ok (str_take i arg, value)
  end.

(** [c.merge_with_dotlist(dotlist)] *)
Fixpoint merge_with_dotlist (c : Config) (dotlist : list string)
  : result Config :=
  match dotlist with
  | [] => Ok c
  | arg :: dotlist' =>
      '(key, value) ← dotlist_item arg;
      c ← update c key value;
      merge_with_dotlist c dotlist'
  end.

(** ** Composition: [load_configuration] *)

(** The message of the exception for a primary configuration that is not
    on the search path. *)
Definition missing_primary_message (self : ConfigLoader) (config_file : string)
  : string :=
  "Cannot find primary config file: " +:+ config_file +:+ nl
  +:+ "Search path:" +:+ nl
  +:+ str_join nl
        ((fun x => tab +:+ path x +:+ " (from " +:+ provider x +:+ ")")
           <$> config_search_path self).

(** The effective strict flag. *)
Definition effective_strict (self : ConfigLoader) (strict : option bool)
  : option bool :=
  match strict with
  | None => default_strict self
  | Some b => Some b
  end.

(** Lines 87-88: the [hydra] subtree is made strict, then the whole
    document gets the effective strict flag. *)
Definition engage_strictness (cfg : list (string * node))
    (strict : option bool) : result Config :=
  c ← set_struct {| content := cfg; struct_flags := ∅ |} ["hydra"]
        (Some true);
  set_struct c [] strict.

Definition strings_node (l : list string) : node :=
  Seq ((fun x => Leaf (VStr x)) <$> l).

(** Lines 100-112: the bookkeeping under [hydra]; the block under
    [open_dict(cfg.hydra.job)] runs with strict mode lifted from
    [hydra.job], and the flag it had is put back afterwards. *)
Definition write_bookkeeping (c : Config) (remaining : list string)
    (config_file : option string) : result Config :=
  c ← setattr_path c ["hydra"; "overrides"] "task"
        (strings_node (overrides_task remaining));
  c ← setattr_path c ["hydra"; "overrides"] "hydra"
        (strings_node (overrides_hydra remaining));
  let job := ["hydra"; "job"] in
  let prev := struct_flags c !! job in
  c ← set_struct c job (Some false);
  job_node ← getattr_path c job;
  c ← match job_node with
      | Map m =>
          if bool_decide (dict_get "name" m = None)
          then setattr_path c job "name" JobRuntime_name
          else Ok c
      | _ => Raise AttributeError
      end;
  input_list ← getattr_path c ["hydra"; "overrides"; "task"];
  let override_dirname := ["hydra"; "job"; "config"; "override_dirname"] in
  kv_sep ← getattr_path c (override_dirname ++ ["kv_sep"]);
  item_sep ← getattr_path c (override_dirname ++ ["item_sep"]);
  exclude_keys ← getattr_path c (override_dirname ++ ["exclude_keys"]);
  dirname ← get_overrides_dirname input_list kv_sep item_sep exclude_keys;
  c ← setattr_path c job "override_dirname" (Leaf (VStr dirname));
  c ← setattr_path c job "config_file"
        (match config_file with
         | Some f => Leaf (VStr f)
         | None => Leaf VNone
         end);
  Ok {| content := content c;
        struct_flags := set_flag job prev (struct_flags c) |}.

Definition load_configuration (config_file : option string)
    (overrides : list string) (strict : option bool) : loader Config :=
  strict ← read (fun self => Ok (effective_strict self strict));
  _ ← read (fun self =>
              match config_file with
              | Some f =>
                  found ← exists_in_search_path self f;
                  if found : bool then Ok ()
                  else Raise (MissingConfigException
                                (missing_primary_message self f) f None)
              | None => Ok ()
              end);
  hydra_cfg ← _create_cfg (Some "hydra.yaml") true;
  job_cfg ← _create_cfg config_file false;
  defaults ← lift (_get_defaults hydra_cfg);
  (* a non-empty list is the very list held by [hydra_cfg] *)
  let shared := bool_decide (defaults ≠ []) in
  let defaults :=
    match config_file with
    | Some f => defaults ++ [Leaf (VStr f)]
    | None => defaults
    end in
  let split_at := length defaults in
  job_defaults ← lift (_get_defaults job_cfg);
  '(defaults, _) ← lift (_merge_default_lists defaults job_defaults);
  '(overrides, defaults, consumed) ←
    lift (_apply_defaults_overrides overrides defaults);
  '(overrides, defaults, consumed_free_job_defaults) ←
    read (fun self => _apply_free_defaults self defaults overrides);
  _ ← lift (_validate_defaults defaults);
  let hydra_cfg :=
    if shared then dict_set "defaults" (Seq defaults) hydra_cfg
    else hydra_cfg in
  cfg ← _merge_defaults hydra_cfg defaults split_at;
  cfg ← lift (engage_strictness cfg strict);
  let all_consumed := consumed ++ consumed_free_job_defaults in
  let remaining_overrides := remaining_overrides overrides all_consumed in
  cfg ← lift (merge_with_dotlist cfg remaining_overrides);
  let remaining :=
    consumed ++ consumed_free_job_defaults ++ remaining_overrides in
  lift (write_bookkeeping cfg remaining config_file).

(** ** Notions used to state the properties *)

(** Whether a name exists under one entry of the search path: the probe
    that [_find_config] makes for that entry. *)
Definition exists_under (search_path : SearchPath) (filepath : string)
  : result bool :=
  let '(is_pkg, path) := _split_path (path search_path) in
  _exists is_pkg (path +:+ "/" +:+ filepath).

(** The document that a name denotes under one entry of the search path:
    what [_load_config_impl] reads once that entry is the one found. *)
Definition read_under (search_path : SearchPath) (input_file : string)
  : result node :=
  let fullpath := path search_path +:+ "/" +:+ input_file in
  if startswith "pkg://" (path search_path) then
    let '(module_name, resource_name) :=
      _split_module_and_resource
        (str_drop (String.length "pkg://") fullpath) in
    stream ← resource_stream module_name resource_name; yaml_load stream
  else OmegaConf_load fullpath.

(** The composer after one more record in its load trace. *)
Definition traced (self : ConfigLoader) (t : LoadTrace) : ConfigLoader :=
  {| config_search_path := config_search_path self;
     default_strict := default_strict self;
     all_config_checked := all_config_checked self ++ [t] |}.

Definition trace_hit (input_file : string) (search_path : SearchPath)
  : LoadTrace :=
  {| filename := input_file;
     trace_path := Some (path search_path);
     trace_provider := Some (provider search_path) |}.

Definition trace_miss (input_file : string) : LoadTrace :=
  {| filename := input_file; trace_path := None; trace_provider := None |}.

(** An override that the group-rewrite phase takes: its key is one of the
    indexed keys. *)
Definition group_override (key_to_idx : gmap string nat) (override : string)
  : bool :=
  match split_key_val override with
  | Ok (key, _) => bool_decide (is_Some (key_to_idx !! key))
  | Raise _ => false
  end.

(** An override that the free-defaults phase takes: its key exists on the
    search path. *)
Definition free_override (self : ConfigLoader) (override : string) : bool :=
  match split_key_val override with
  | Ok (key, _) =>
      match exists_in_search_path self key with
      | Ok found => found
      | Raise _ => false
      end
  | Raise _ => false
  end.

(** The key under which the group-rewrite phase indexes an entry: the
    first key of a map. *)
Definition entry_key (n : node) : option string :=
  match n with
  | Map ((k, _) :: _) => Some k
  | _ => None
  end.

(** The state of the defaults list during the group-rewrite phase, as
    seen from the index [key_to_idx] taken before the phase: every entry
    sits at or before the position indexed for its key, and strictly
    before it from position [m] on. *)
Definition shifted (key_to_idx : gmap string nat) (m : nat)
    (cur : list node) : Prop :=
  forall p e, cur !! p = Some e ->
    e ≠ Map [] /\
    forall k, entry_key e = Some k ->
      exists q, key_to_idx !! k = Some q /\ p <= q /\ (m <= p -> p < q).

(** A dotted path addresses a key absent from the tree: the path leads
    through maps to a map that lacks the next key. *)
Fixpoint absent_key (m : list (string * node)) (key : string)
    (rest : list string) : bool :=
  match dict_get key m with
  | None => true
  | Some (Map child) =>
      match rest with
      | [] => false
      | key' :: rest' => absent_key child key' rest'
      end
  | Some _ => false
  end.

(** The flags of a composed document once strictness is engaged. *)
Definition engaged_flags (strict : option bool) : gmap (list string) bool :=
  set_flag [] strict (<[["hydra"] := true]> ∅).

(** The composer with the records [t0] put before its load trace. *)
Definition prepend (t0 : list LoadTrace) (self : ConfigLoader) : ConfigLoader :=
  {| config_search_path := config_search_path self;
     default_strict := default_strict self;
     all_config_checked := t0 ++ all_config_checked self |}.

(** The composer with an empty load trace, as [__init__] makes it. *)
Definition fresh (self : ConfigLoader) : ConfigLoader :=
  ConfigLoader_init (config_search_path self) (default_strict self).

(** A computation that does not look at the load trace: run with more
    records before the trace, it gives the same result and leaves the
    same records after them. *)
Definition uniform {A} (m : loader A) : Prop :=
  forall t0 self, m (prepend t0 self) = ((m self).1, prepend t0 (m self).2).

(** The defaults list keeps the shape it had when it was indexed: the
    same length, and at every position an entry with the same first key. *)
Definition same_keys (defaults cur : list node) : Prop :=
  forall p, entry_key <$> (cur !! p) = entry_key <$> (defaults !! p).


(** ** The groups of a configuration: [list_groups] *)

(** [list_groups]: the options of kind [dir], each once.  The order in
    which a set is listed is not fixed by the language; the model lists
    it in the order of [elements]. *)
Definition list_groups (self : ConfigLoader) (parent_name : string)
  : result (list string) :=
  ret ← get_group_options self parent_name "dir";
  Ok (elements (list_to_set ret : gset string)).

(** The names listed under a group at one entry of the search path: what
    [get_group_options] gets from [resource_listdir] or [os.listdir]. *)
Definition group_listing (search_path : SearchPath) (group_name : string)
  : list string :=
  let '(is_pkg, path) := _split_path (path search_path) in
  if is_pkg then
    let '(module_name, resource_name) :=
      _split_module_and_resource (path +:+ "/" +:+ group_name) in
    match resource_listdir module_name resource_name with
    | Ok all_files => all_files
    | Raise _ => []
    end
  else os_listdir (path +:+ "/" +:+ group_name).

(** How an option comes from a listed name: a directory is kept under its
    name, a YAML file under its name without the extension. *)
Definition option_of (file_type file option : string) : Prop :=
  (file_type = "dir" /\ option = file /\ file ≠ "__pycache__") \/
  (file_type = "file" /\ file = option +:+ ".yaml").

(** ** Trace records: [LoadTrace.__eq__] *)

(** What a trace record can be compared with: a tuple of scalars, or an
    object of another kind. *)
Inductive operand :=
| Tuple (items : list value)
| Other.

(** A field of a trace record as a scalar; an absent path or provider
    is [None]. *)
Definition field_value (x : option string) : value :=
  match x with
  | Some s => VStr s
  | None => VNone
  end.

(** [LoadTrace.__eq__]; no answer stands for [NotImplemented]. *)
Definition LoadTrace_eq (self : LoadTrace) (other : operand)
  : result (option bool) :=
  match other with
  | Tuple items =>
      other0 ← list_getitem 0 items;
      if value_eqb (VStr (filename self)) other0 then
        other1 ← list_getitem 1 items;
        if value_eqb (field_value (trace_path self)) other1 then
          other2 ← list_getitem 2 items;
          Ok (Some (value_eqb (field_value (trace_provider self)) other2))
        else Ok (Some false)
      else Ok (Some false)
  | Other => Ok None
  end.

(** The tuple of the fields of a trace record. *)
Definition astuple (t : LoadTrace) : operand :=
  Tuple [VStr (filename t); field_value (trace_path t);
         field_value (trace_provider t)].

(** ** More notions used to state the properties *)

(** The entry that the free-defaults phase appends for an override it
    consumes: a binding of the key to the value, and nothing for a
    sweep. *)
Definition free_default_entry (override : string) : option node :=
  match split_key_val override with
  | Ok (key, value) =>
      if str_contains "," value then None
      else Some (Map [(key, Leaf (VStr value))])
  | Raise _ => None
  end.

(** The choice that a list of overrides leaves for a key: the value of
    the last override with that key, the sentinel standing for a sweep;
    [acc] when no override has the key. *)
Fixpoint last_choice (key : string) (overrides : list string)
    (acc : option string) : option string :=
  match overrides with
  | [] => acc
  | override :: rest =>
      last_choice key rest
        (match split_key_val override with
         | Ok (k, value) =>
             if decide (k = key)
             then Some (if str_contains "," value then "_SKIP_" else value)
             else acc
         | Raise _ => acc
         end)
  end.

(** The entry at position [p] of [defaults] once the group-rewrite phase
    has gone through [overrides]: its first key is bound to the choice
    the overrides leave for it when [p] is the last position that has
    this first key, and the entry is as it was otherwise. *)
Definition rewritten (defaults : list node) (overrides : list string)
    (p : nat) (e : node) : node :=
  match e, entry_key e with
  | Map d, Some key =>
      if decide (last_index_of entry_key key defaults = Some p) then
        match last_choice key overrides None with
        | Some value => Map (dict_set key (Leaf (VStr value)) d)
        | None => e
        end
      else e
  | _, _ => e
  end.

(** What the merge keeps of [primary]: at every position an entry of the
    same group, and a bare file as it was. *)
Definition keeps_positions (primary acc : list node) : Prop :=
  forall i x, primary !! i = Some x ->
    exists y, acc !! i = Some y /\ group_of y = group_of x /\
              (bare_file x = true -> y = x).
End Loader.

(** ** A concrete environment *)

(** Modelled from the spec: [split_key_val] of [plugins.common.utils],
    which is not part of the source; an override is [KEY=VALUE], and a
    token without [=] is rejected. *)
Definition split_at_equals (s : string) : result (string * string) :=
  match str_find "=" s with
  | None => Raise AssertionError
  | Some idx => Ok (str_take idx s, str_drop (S idx) s)
  end.

(** The documents of a small configuration directory [conf], with a
    plugin directory [plugin] behind it. *)
Definition ex_hydra_yaml : node :=
  Map [("hydra",
        Map [("overrides", Map [("hydra", Seq []); ("task", Seq [])]);
             ("job",
              Map [("config",
                    Map [("override_dirname",
                          Map [("kv_sep", Leaf (VStr "="));
                               ("item_sep", Leaf (VStr ","));
                               ("exclude_keys", Seq [])])])])])].

Definition ex_config_yaml : node :=
  Map [("defaults", Seq [Map [("model", Leaf (VStr "a"))]]);
       ("foo", Leaf (VInt 1))].

Definition ex_files : list (string * node) :=
  [("conf/hydra.yaml", ex_hydra_yaml);
   ("conf/config.yaml", ex_config_yaml);
   ("conf/model/a.yaml", Map [("model", Map [("lr", Leaf (VStr "0.1"))])]);
   ("conf/model/b.yaml", Map [("model", Map [("lr", Leaf (VStr "0.2"))])]);
   ("plugin/model/a.yaml", Map [("model", Map [("lr", Leaf (VStr "9"))])]);
   ("plugin/model/c.yaml", Map [("model", Map [("lr", Leaf (VStr "0.3"))])]);
   ("conf/optimizer/adam.yaml", Map [("optimizer", Leaf (VStr "adam"))]);
   ("conf/optional.yaml",
    Map [("defaults",
          Seq [Map [("dataset", Leaf (VStr "imagenet"));
                    ("optional", Leaf (VBool true))]]);
         ("bar", Leaf (VInt 2))])].

Definition ex_dirs : list string :=
  ["conf"; "conf/model"; "conf/optimizer"; "plugin"; "plugin/model"].

(** Packages: [pkg_conf] holds [hydra.yaml]; [pkg_noinit] is a directory
    without an init manifest, which is imported as a namespace package
    and on which the resource API raises [TypeError]; [pkg_unregistered]
    is a module for which the resource API has no provider; any other
    module cannot be imported. *)
Definition ex_resource {A} (module_name : string) (found : result A)
  : result A :=
  if bool_decide (module_name = "pkg_conf") then found
  else if bool_decide (module_name = "pkg_noinit") then Raise TypeError
  else if bool_decide (module_name = "pkg_unregistered")
  then Raise (NotImplementedError
                "Can't perform this operation for unregistered loader type")
  else Raise ImportError.

#[global] Instance ex_env : Environment := {|
  os_path_exists p :=
    bool_decide (p ∈ ex_dirs) || bool_decide (is_Some (dict_get p ex_files));
  os_path_isdir p := bool_decide (p ∈ ex_dirs);
  os_listdir p :=
    if bool_decide (p = "conf/model") then ["a.yaml"; "b.yaml"]
    else if bool_decide (p = "plugin/model") then ["a.yaml"; "c.yaml"]
    else [];
  open_file p :=
    if bool_decide (p ∈ ex_dirs) then Raise IsADirectoryError
    else if bool_decide (is_Some (dict_get p ex_files)) then Ok p
    else Raise FileNotFoundError;
  resource_exists module_name resource_name :=
    ex_resource module_name (Ok (bool_decide (resource_name = "hydra.yaml")));
  resource_isdir module_name resource_name :=
    ex_resource module_name (Ok false);
  resource_listdir module_name resource_name :=
    ex_resource module_name (Ok []);
  resource_stream module_name resource_name :=
    ex_resource module_name
      (if bool_decide (resource_name = "hydra.yaml") then Ok "conf/hydra.yaml"
       else Raise FileNotFoundError);
  yaml_load text :=
    match dict_get text ex_files with
    | Some doc => Ok doc
    | None => Ok (Leaf (VStr text))
    end;
  split_key_val := split_at_equals;
  get_overrides_dirname input_list kv_sep item_sep exclude_keys := Ok "";
  JobRuntime_name := Leaf (VStr "app");
|}.

Definition ex_conf : SearchPath := {| provider := "main"; path := "conf" |}.
Definition ex_plugin : SearchPath :=
  {| provider := "plugin"; path := "plugin" |}.
Definition ex_missing_pkg : SearchPath :=
  {| provider := "absent"; path := "pkg://no_such_module/conf" |}.
Definition ex_noinit_pkg : SearchPath :=
  {| provider := "broken"; path := "pkg://pkg_noinit/conf" |}.
Definition ex_unregistered_pkg : SearchPath :=
  {| provider := "builtin"; path := "pkg://pkg_unregistered/conf" |}.
Definition ex_pkg : SearchPath :=
  {| provider := "hydra"; path := "pkg://pkg_conf" |}.

Definition ex_loader : ConfigLoader :=
  ConfigLoader_init [ex_conf; ex_plugin] None.


(** The directories of [conf] and [plugin] as the listing of groups sees
    them. *)
Definition ex_tree_env : Environment := {|
  os_path_exists := @os_path_exists ex_env;
  os_path_isdir p :=
    bool_decide (p ∈ ["conf/"; "conf/model"; "conf/optimizer";
                      "conf/__pycache__"; "plugin/"; "plugin/model"]);
  os_listdir p :=
    if bool_decide (p = "conf/")
    then ["config.yaml"; "model"; "__pycache__"; "optimizer"]
    else if bool_decide (p = "plugin/") then ["model"]
    else [];
  open_file := @open_file ex_env;
  resource_exists := @resource_exists ex_env;
  resource_isdir := @resource_isdir ex_env;
  resource_listdir := @resource_listdir ex_env;
  resource_stream := @resource_stream ex_env;
  yaml_load := @yaml_load ex_env;
  split_key_val := @split_key_val ex_env;
  get_overrides_dirname := @get_overrides_dirname ex_env;
  JobRuntime_name := @JobRuntime_name ex_env;
|}.

(** A search path on which [hydra.yaml] is nowhere. *)
Definition ex_plugin_loader : ConfigLoader :=
  ConfigLoader_init [ex_plugin] None.
(** * Part II: properties *)

(** ** Tactics and basic facts *)

Ltac bool_hyps :=
  repeat match goal with
    | H : _ && _ = true |- _ => apply andb_true_iff in H as [? ?]
    | H : _ || _ = true |- _ => apply orb_true_iff in H as [?|?]
    | H : bool_decide _ = true |- _ => apply bool_decide_eq_true in H
    | H : negb _ = true |- _ => apply negb_true_iff in H
    | H : false = true |- _ => discriminate H
    end.

Lemma bind_Ok {A B} (m : result A) (f : A -> result B) b :
  m ≫= f = Ok b -> exists a, m = Ok a /\ f a = Ok b.
Proof. destruct m; simpl; [eauto | discriminate]. Qed.

Lemma value_eqb_refl v : value_eqb v v = true.
Proof. destruct v; simpl; try reflexivity; by apply bool_decide_eq_true. Qed.

Lemma is_choice_leaf n : is_choice n = true -> exists v, n = Leaf v.
Proof. destruct n; [eauto | discriminate..]. Qed.

Lemma is_bool_leaf n : is_bool n = true -> exists v, n = Leaf v.
Proof. destruct n; [eauto | discriminate..]. Qed.

(** The shapes of a group binding. *)
Lemma group_binding_inv n :
  group_binding n = true ->
  (exists g c, n = Map [(g, Leaf c)] /\ g ≠ "optional") \/
  (exists g c b,
     n = Map [("optional", Leaf b); (g, Leaf c)] /\ g ≠ "optional") \/
  (exists g c b,
     n = Map [(g, Leaf c); ("optional", Leaf b)] /\ g ≠ "optional").
Proof.
  destruct n as [v|items|d]; try discriminate.
  destruct d as [|[k1 v1] [|[k2 v2] [|? ?]]]; try discriminate;
    cbn [group_binding]; intros H; bool_hyps.
  - destruct (is_choice_leaf v1) as [c ->]; [done|]. left. eauto.
  - destruct (is_choice_leaf v2) as [c ->]; [done|].
    destruct (is_bool_leaf v1) as [b ->]; [done|]. subst. right; left. eauto 6.
  - destruct (is_choice_leaf v1) as [c ->]; [done|].
    destruct (is_bool_leaf v2) as [b ->]; [done|]. subst. right; right. eauto 6.
Qed.

Lemma group_binding_key n :
  group_binding n = true -> exists d k, n = Map d /\ get_key d = Ok k.
Proof.
  intros [(g & c & -> & Hg)|[(g & c & b & -> & Hg)|(g & c & b & -> & Hg)]]
           %group_binding_inv;
    eexists _, g; (split; [done|]); cbn [get_key]; repeat case_decide; done.
Qed.

Lemma group_binding_group n :
  group_binding n = true -> is_Some (group_of n).
Proof.
  intros (d & k & -> & Hk)%group_binding_key. simpl. rewrite Hk. eauto.
Qed.

Lemma bare_file_group n : bare_file n = true -> group_of n = None.
Proof. by destruct n as [[]| |]. Qed.

Lemma node_eqb_refl_entry n : defaults_entry n = true -> node_eqb n n = true.
Proof.
  unfold defaults_entry. intros [H|H]%orb_true_iff.
  - apply group_binding_inv in H
      as [(g & c & -> & Hg)|[(g & c & b & -> & Hg)|(g & c & b & -> & Hg)]];
      cbn [node_eqb dict_get length]; repeat case_decide; try done;
      rewrite ?value_eqb_refl; done.
  - destruct n as [[]| |]; try discriminate. simpl. by apply bool_decide_eq_true.
Qed.

(** Equal group bindings are bound to the same group. *)
Lemma node_eqb_group x y :
  group_binding x = true -> group_binding y = true ->
  node_eqb x y = true -> group_of x = group_of y.
Proof.
  intros Hx Hy.
  apply group_binding_inv in Hx
      as [(g & c & -> & Hg)|[(g & c & b & -> & Hg)|(g & c & b & -> & Hg)]];
  apply group_binding_inv in Hy
      as [(g' & c' & -> & Hg')
         |[(g' & c' & b' & -> & Hg')|(g' & c' & b' & -> & Hg')]];
  cbn [node_eqb dict_get length group_of get_key]; intros H;
  repeat case_decide; subst; try done; bool_hyps; try done.
Qed.

(** ** Merging defaults lists *)

Lemma list_remove_first {A} (eqb : A -> A -> bool) x done rest :
  Forall (fun y => eqb x y = false) done -> eqb x x = true ->
  list_remove eqb x (done ++ x :: rest) = Ok (done ++ rest).
Proof.
  intros Hd Hx. induction Hd as [|y done Hy _ IH]; simpl.
  - by rewrite Hx.
  - by rewrite Hy, IH.
Qed.

Section LastIndex.
Variable key_of : node -> option string.

Lemma last_index_of_lookup k l i :
  last_index_of key_of k l = Some i ->
  exists x, l !! i = Some x /\ key_of x = Some k.
Proof.
  revert i. induction l as [|y l IH]; intros i; simpl; [done|].
  destruct (last_index_of key_of k l) as [j|].
  - intros [= <-]. by apply IH.
  - case_decide; [|done]. intros [= <-]. eauto.
Qed.

Lemma last_index_of_lt k l i :
  last_index_of key_of k l = Some i -> i < length l.
Proof.
  intros (x & Hx & _)%last_index_of_lookup. by eapply lookup_lt_Some.
Qed.

Lemma last_index_of_Some k l j x :
  l !! j = Some x -> key_of x = Some k -> is_Some (last_index_of key_of k l).
Proof.
  revert j. induction l as [|y l IH]; intros j; simpl; [done|].
  destruct j as [|j]; simpl.
  - intros [= ->] Hk. destruct (last_index_of key_of k l); [eauto|].
    case_decide; [eauto|done].
  - intros Hj Hk. destruct (IH j Hj Hk) as [i ->]. eauto.
Qed.

Lemma last_index_of_None k l :
  last_index_of key_of k l = None -> Forall (fun x => key_of x ≠ Some k) l.
Proof.
  intros HN. apply Forall_lookup. intros j x Hj Hk.
  destruct (last_index_of_Some k l j x Hj Hk) as [i Hi]. congruence.
Qed.

Lemma last_index_of_last k l i j x :
  last_index_of key_of k l = Some i -> l !! j = Some x ->
  key_of x = Some k -> j <= i.
Proof.
  revert i j. induction l as [|y l IH]; intros i j; simpl; [done|].
  destruct (last_index_of key_of k l) as [i'|] eqn:Hi'.
  - intros [= <-] Hj Hk. destruct j as [|j]; [lia|].
    simpl in Hj. specialize (IH i' j eq_refl Hj Hk). lia.
  - case_decide; [|done]. intros [= <-] Hj Hk. destruct j as [|j]; [lia|].
    simpl in Hj. apply last_index_of_None in Hi'.
    rewrite Forall_lookup in Hi'. by destruct (Hi' _ _ Hj).
Qed.

End LastIndex.

Lemma last_group_index_lookup g l i :
  last_group_index g l = Some i ->
  exists x, l !! i = Some x /\ group_of x = Some g.
Proof. apply last_index_of_lookup. Qed.

Lemma last_group_index_lt g l i :
  last_group_index g l = Some i -> i < length l.
Proof. apply last_index_of_lt. Qed.

Lemma last_group_index_last g l i j x :
  last_group_index g l = Some i -> l !! j = Some x -> group_of x = Some g ->
  j <= i.
Proof. apply last_index_of_last. Qed.

Lemma last_group_index_Some g l j x :
  l !! j = Some x -> group_of x = Some g -> is_Some (last_group_index g l).
Proof. apply last_index_of_Some. Qed.

(** The index built by the first loop of the merge. *)
Lemma merge_key_to_idx_spec primary :
  Forall (fun n => defaults_entry n = true) primary ->
  forall idx m, exists key_to_idx,
    merge_key_to_idx idx primary m = Ok key_to_idx /\
    forall g, key_to_idx !! g =
      match last_group_index g primary with
      | Some i => Some (idx + i)
      | None => m !! g
      end.
Proof.
  induction 1 as [|n primary Hn _ IH]; intros idx m;
    unfold last_group_index in *; cbn [merge_key_to_idx last_index_of].
  - eauto.
  - apply orb_true_iff in Hn as [Hn|Hn].
    + destruct (group_binding_key n Hn) as (d & k & -> & Hk).
      assert (Hg : group_of (Map d) = Some k) by (cbn; by rewrite Hk).
      rewrite Hk. cbn [mbind result_bind].
      destruct (IH (S idx) (<[k:=idx]> m)) as (kti & -> & Hkti).
      eexists; split; [done|]. intros g. rewrite Hkti.
      destruct (last_index_of group_of g primary) as [i|]; [f_equal; lia|].
      rewrite Hg. case_decide as Hg'.
      * injection Hg' as ->. rewrite lookup_insert_eq. f_equal; lia.
      * rewrite lookup_insert_ne; [done|congruence].
    + destruct n as [[| | |s]| |]; try discriminate.
      destruct (IH (S idx) m) as (kti & -> & Hkti).
      eexists; split; [done|]. intros g. rewrite Hkti.
      destruct (last_index_of group_of g primary) as [i|]; [f_equal; lia|].
      by case_decide.
Qed.

Lemma unindexed_neq primary0 d k i y :
  group_binding (Map d) = true -> get_key d = Ok k ->
  last_group_index k primary0 = Some i ->
  unindexed primary0 y -> node_eqb (Map d) y = false.
Proof.
  intros Hd Hk Hi [Hy Ha]. destruct (node_eqb (Map d) y) eqn:E; [|done].
  exfalso. apply orb_true_iff in Hy as [Hy|Hy].
  - pose proof (node_eqb_group _ _ Hd Hy E) as Hg.
    unfold merge_appended in Ha. rewrite <- Hg in Ha. cbn in Ha.
    rewrite Hk in Ha. apply bool_decide_eq_true in Ha. congruence.
  - destruct y as [[]| |]; discriminate.
Qed.

Lemma merge_matched_spec primary0 key_to_idx :
  (forall g, key_to_idx !! g = last_group_index g primary0) ->
  forall copy, Forall (fun n => defaults_entry n = true) copy ->
  forall acc done, length acc = length primary0 ->
    Forall (unindexed primary0) done ->
    exists acc',
      merge_matched key_to_idx copy acc (done ++ copy)
      = Ok (acc', done ++ List.filter (merge_appended primary0) copy) /\
      length acc' = length primary0 /\
      forall ext, foldl (merge_whole_step primary0) (acc ++ ext) copy
                  = acc' ++ ext ++ List.filter (merge_appended primary0) copy.
Proof.
  intros Hkti. induction 1 as [|d copy Hd _ IH]; intros acc done Hlen Hdone.
  - exists acc. cbn. rewrite app_nil_r. repeat split; [done|].
    intros ext. by rewrite app_nil_r.
  - assert (Hskip : merge_appended primary0 d = true ->
      merge_matched key_to_idx (d :: copy) acc (done ++ d :: copy)
      = merge_matched key_to_idx copy acc ((done ++ [d]) ++ copy) ->
      (forall ext,
         merge_whole_step primary0 (acc ++ ext) d = acc ++ ext ++ [d]) ->
      exists acc',
        merge_matched key_to_idx (d :: copy) acc (done ++ d :: copy)
        = Ok (acc',
              done ++ List.filter (merge_appended primary0) (d :: copy)) /\
        length acc' = length primary0 /\
        forall ext,
          foldl (merge_whole_step primary0) (acc ++ ext) (d :: copy)
          = acc' ++ ext ++ List.filter (merge_appended primary0) (d :: copy)).
    { intros Ha -> Hstep.
      destruct (IH acc (done ++ [d]) Hlen) as (acc' & -> & Hl & Hf).
      { apply Forall_app; split; [done|]. by repeat constructor. }
      exists acc'. cbn [List.filter foldl]. rewrite Ha.
      split; [by rewrite <- app_assoc|]. split; [done|].
      intros ext. rewrite Hstep, (app_assoc acc ext [d]), <- (app_assoc acc).
      rewrite Hf. by rewrite <- !app_assoc. }
    pose proof Hd as Hd'. apply orb_true_iff in Hd' as [Hg|Hb].
    + destruct (group_binding_key d Hg) as (c & k & -> & Hk).
      assert (Hgo : group_of (Map c) = Some k) by (cbn; by rewrite Hk).
      destruct (last_group_index k primary0) as [i|] eqn:Hi.
      * clear Hskip. cbn [merge_matched]. rewrite Hk. cbn [mbind result_bind].
        rewrite Hkti, Hi. unfold list_setitem.
        pose proof (last_group_index_lt _ _ _ Hi) as Hlt.
        case_decide; [|lia]. cbn [mbind result_bind].
        rewrite list_remove_first; cycle 1.
        { eapply Forall_impl; [exact Hdone|]. intros y Hy.
          by eapply unindexed_neq. }
        { by apply node_eqb_refl_entry. }
        cbn [mbind result_bind].
        destruct (IH (<[i:=Map c]> acc) done) as (acc' & -> & Hl & Hf);
          [by rewrite length_insert|done|].
        assert (Ha : merge_appended primary0 (Map c) = false).
        { unfold merge_appended. rewrite Hgo, Hi. by apply bool_decide_eq_false. }
        assert (Hw : forall a,
                  merge_whole_step primary0 a (Map c) = <[i:=Map c]> a).
        { intros a. unfold merge_whole_step. by rewrite Hgo, Hi. }
        exists acc'. cbn [List.filter foldl]. rewrite Ha.
        split; [done|]. split; [done|]. intros ext.
        rewrite Hw, insert_app_l by lia. apply Hf.
      * apply Hskip.
        -- unfold merge_appended. rewrite Hgo, Hi. by apply bool_decide_eq_true.
        -- cbn [merge_matched]. rewrite Hk. cbn [mbind result_bind].
           rewrite Hkti, Hi. by rewrite <- app_assoc.
        -- intros ext. unfold merge_whole_step. rewrite Hgo, Hi.
           by rewrite <- app_assoc.
    + destruct d as [[| | |s]| |]; try discriminate.
      apply Hskip; [done|..].
      * cbn [merge_matched]. by rewrite <- app_assoc.
      * intros ext. unfold merge_whole_step. cbn. by rewrite <- app_assoc.
Qed.

Lemma merge_default_lists_whole primary secondary :
  Forall (fun n => defaults_entry n = true) primary ->
  Forall (fun n => defaults_entry n = true) secondary ->
  _merge_default_lists primary secondary
  = Ok (merge_whole primary secondary,
        List.filter (merge_appended primary) secondary).
Proof.
  intros HP HS. unfold _merge_default_lists.
  destruct (merge_key_to_idx_spec primary HP 0 ∅) as (kti & -> & Hkti).
  cbn [mbind result_bind].
  destruct (merge_matched_spec primary kti) with (copy := secondary)
    (acc := primary) (done := @nil node) as (acc' & Hm & Hl & Hf); [|done..|].
  { intros g. rewrite Hkti. destruct (last_group_index g primary); [done|].
    apply lookup_empty. }
  cbn [app] in Hm. rewrite Hm. cbn [mbind result_bind].
  unfold merge_whole. specialize (Hf []). rewrite app_nil_r in Hf.
  by rewrite Hf.
Qed.

Lemma merge_whole_prefix l :
  Forall (fun n => defaults_entry n = true) l ->
  forall l1 l2, l = l1 ++ l2 ->
  exists acc,
    foldl (merge_whole_step l) l l1 = acc ++ List.filter bare_file l1 /\
    length acc = length l /\
    forall k, acc !! k = l !! k \/
              (length l1 <= k /\ exists g, last_group_index g l = Some k).
Proof.
  intros Hl l1. induction l1 as [|d l1 IH] using rev_ind; intros l2 Heq.
  - exists l. cbn. rewrite app_nil_r. eauto.
  - rewrite <- app_assoc in Heq. cbn [app] in Heq.
    destruct (IH _ Heq) as (acc & Hf & Hlen & Hinv).
    assert (Hj : l !! length l1 = Some d)
      by (rewrite Heq; apply list_lookup_middle; done).
    assert (Hd : defaults_entry d = true).
    { rewrite Forall_lookup in Hl. by eapply Hl. }
    rewrite foldl_app, List.filter_app, length_app.
    cbn [foldl List.filter length].
    rewrite Hf. apply orb_true_iff in Hd as [Hg|Hb].
    + destruct (group_binding_group d Hg) as [g Hgo].
      destruct (last_group_index_Some g l _ d Hj Hgo) as [i Hi].
      pose proof (last_group_index_last g l i _ d Hi Hj Hgo) as Hle.
      pose proof (last_group_index_lt _ _ _ Hi) as Hlt.
      assert (Hnb : bare_file d = false) by (by destruct d as [[]| |]).
      rewrite Hnb, app_nil_r. unfold merge_whole_step. rewrite Hgo, Hi.
      rewrite insert_app_l by lia. exists (<[i:=d]> acc).
      split; [done|]. split; [by rewrite length_insert|]. intros k.
      destruct (decide (k = i)) as [->|Hne].
      * rewrite list_lookup_insert_eq by lia.
        destruct (decide (i = length l1)) as [->|]; [by left|].
        right. split; [lia|eauto].
      * rewrite list_lookup_insert_ne by done.
        destruct (Hinv k) as [?|[Hk [g' Hg']]]; [by left|].
        destruct (decide (k = length l1)) as [->|]; [|right; split; [lia|eauto]].
        exfalso. destruct (last_group_index_lookup _ _ _ Hg') as (x & Hx & Hxg).
        rewrite Hj in Hx. injection Hx as <-. congruence.
    + rewrite Hb. unfold merge_whole_step.
      rewrite (bare_file_group d Hb), <- app_assoc. exists acc.
      split; [done|]. split; [done|]. intros k.
      destruct (Hinv k) as [?|[Hk [g' Hg']]]; [by left|].
      destruct (decide (k = length l1)) as [->|]; [|right; split; [lia|eauto]].
      exfalso. destruct (last_group_index_lookup _ _ _ Hg') as (x & Hx & Hxg).
      rewrite Hj in Hx. injection Hx as <-.
      rewrite (bare_file_group d Hb) in Hxg. done.
Qed.

Lemma merge_whole_self l :
  Forall (fun n => defaults_entry n = true) l ->
  merge_whole l l = l ++ List.filter bare_file l.
Proof.
  intros Hl. destruct (merge_whole_prefix l Hl l [])
    as (acc & Hf & Hlen & Hinv); [by rewrite app_nil_r|].
  unfold merge_whole. rewrite Hf. f_equal.
  apply list_eq. intros k. destruct (Hinv k) as [?|[Hk [g Hg]]]; [done|].
  apply last_group_index_lt in Hg. lia.
Qed.

Lemma merge_appended_self l :
  Forall (fun n => defaults_entry n = true) l ->
  List.filter (merge_appended l) l = List.filter bare_file l.
Proof.
  intros Hl. apply List.filter_ext_in. intros d Hd.
  apply list_elem_of_In, list_elem_of_lookup in Hd as [j Hj].
  rewrite Forall_lookup in Hl. specialize (Hl _ _ Hj).
  apply orb_true_iff in Hl as [Hg|Hb].
  - destruct (group_binding_group d Hg) as [g Hgo].
    destruct (last_group_index_Some g l _ d Hj Hgo) as [i Hi].
    unfold merge_appended. rewrite Hgo, Hi.
    rewrite bool_decide_eq_false_2 by done. by destruct d as [[]| |].
  - unfold merge_appended. by rewrite (bare_file_group d Hb), Hb.
Qed.

(** *** Claim C2 *)

(** C2, counterexample.  The claim says that a matching secondary entry
    replaces only the choice of the first primary entry of its group.  On
    [{model: alexnet, optional: true}] merged with [{model: resnet}] the
    code drops the optional flag, and on [{model: a}, {model: c}] merged
    with [{model: resnet}] it rewrites the second entry, not the first. *)
Lemma merge_default_lists_not_choice_of_first :
  (_merge_default_lists [ex_model_optional] [ex_model "resnet"]
     = Ok ([ex_model "resnet"], []) /\
   merge_stated [ex_model_optional] [ex_model "resnet"]
     = [Map [("model", Leaf (VStr "resnet")); ("optional", Leaf (VBool true))]])
  /\
  (_merge_default_lists [ex_model "a"; ex_model "c"] [ex_model "resnet"]
     = Ok ([ex_model "a"; ex_model "resnet"], []) /\
   merge_stated [ex_model "a"; ex_model "c"] [ex_model "resnet"]
     = [ex_model "resnet"; ex_model "c"]).
Proof. repeat split; reflexivity. Qed.

(** C2, as amended.  Merging a secondary defaults list into a primary one
    (both made of group bindings and bare files) treats each secondary
    entry in order: when its group, read past a leading [optional] key, is
    the group of an entry of the primary list as it was before the merge,
    the last such primary entry is replaced by the secondary entry as a
    whole; otherwise the entry is appended at the end.  The entries that
    were appended are what remains of the secondary list. *)
Theorem merge_default_lists_replaces_last_whole primary secondary :
  Forall (fun n => defaults_entry n = true) primary ->
  Forall (fun n => defaults_entry n = true) secondary ->
  _merge_default_lists primary secondary
  = Ok (merge_whole primary secondary,
        List.filter (merge_appended primary) secondary).
Proof. apply merge_default_lists_whole. Qed.

Lemma merge_default_lists_replaces_last_whole_witness :
  _merge_default_lists [ex_model_optional; Leaf (VStr "config"); ex_model "c"]
    [ex_model "resnet"; Leaf (VStr "extra"); ex_dataset "imagenet"]
  = Ok ([ex_model_optional; Leaf (VStr "config"); ex_model "resnet";
         Leaf (VStr "extra"); ex_dataset "imagenet"],
        [Leaf (VStr "extra"); ex_dataset "imagenet"]).
Proof.
  apply (merge_default_lists_replaces_last_whole
           [ex_model_optional; Leaf (VStr "config"); ex_model "c"]
           [ex_model "resnet"; Leaf (VStr "extra"); ex_dataset "imagenet"]);
    repeat constructor.
Defined.

(** *** Claim C3 *)

(** C3, counterexample.  A list with a bare file is not left unchanged when
    merged into itself: the bare file is appended once more. *)
Lemma merge_default_lists_self_duplicates_bare_file :
  _merge_default_lists [Leaf (VStr "config")] [Leaf (VStr "config")]
  = Ok ([Leaf (VStr "config"); Leaf (VStr "config")], [Leaf (VStr "config")])
  /\ [Leaf (VStr "config"); Leaf (VStr "config")] <> [Leaf (VStr "config")].
Proof. split; [reflexivity | discriminate]. Qed.

(** C3, as amended.  For every defaults list made of group bindings and
    bare files, merging an empty secondary list into it leaves it
    unchanged; merging the list into itself keeps every group binding in
    place and appends its bare files once more, so that a list of group
    bindings only is left equal to the original. *)
Theorem merge_default_lists_identity_laws l :
  Forall (fun n => defaults_entry n = true) l ->
  _merge_default_lists l [] = Ok (l, []) /\
  _merge_default_lists l l
  = Ok (l ++ List.filter bare_file l, List.filter bare_file l) /\
  (Forall (fun n => group_binding n = true) l ->
   _merge_default_lists l l = Ok (l, [])).
Proof.
  intros Hl. rewrite !merge_default_lists_whole by done.
  rewrite merge_whole_self, merge_appended_self by done.
  repeat split. intros Hg.
  assert (List.filter bare_file l = []) as ->; [|by rewrite app_nil_r].
  clear Hl. induction Hg as [|n l Hn _ IH]; [done|]. cbn.
  rewrite IH. by destruct n as [[]| |].
Qed.

Lemma merge_default_lists_identity_laws_witness :
  _merge_default_lists [ex_model_optional; ex_dataset "imagenet"] []
  = Ok ([ex_model_optional; ex_dataset "imagenet"], []) /\
  _merge_default_lists [ex_model_optional; ex_dataset "imagenet"]
    [ex_model_optional; ex_dataset "imagenet"]
  = Ok ([ex_model_optional; ex_dataset "imagenet"], []).
Proof.
  destruct (merge_default_lists_identity_laws
              [ex_model_optional; ex_dataset "imagenet"])
    as (H1 & _ & H3); [repeat constructor|].
  split; [exact H1 | apply H3; repeat constructor].
Defined.

(** ** Search-path resolution *)

Lemma str_contains_app_r sub a b :
  str_contains sub b = true -> str_contains sub (a +:+ b) = true.
Proof.
  intros Hb. induction a as [|c a IH]; [done|].
  change (String c a +:+ b) with (String c (a +:+ b)).
  cbn [str_contains]. rewrite IH. apply orb_true_r.
Qed.

Section SearchProperties.
Context {env : Environment}.

Lemma run_bind {A B} (m : loader A) (f : A -> loader B) self :
  (m ≫= f) self
  = match m self with
    | (Ok a, self') => f a self'
    | (Raise e, self') => (Raise e, self')
    end.
Proof. reflexivity. Qed.

Lemma run_read {A} (f : ConfigLoader -> result A) self :
  read f self = (f self, self).
Proof. reflexivity. Qed.

Lemma run_lift {A} (r : result A) self : lift r self = (r, self).
Proof. reflexivity. Qed.

Lemma run_ret {A} (a : A) self : (mret a : loader A) self = (Ok a, self).
Proof. reflexivity. Qed.

Lemma run_record_trace t self : record_trace t self = (Ok (), traced self t).
Proof. reflexivity. Qed.

Lemma split_path_pkg p :
  startswith "pkg://" p = true ->
  _split_path p = (true, str_drop (String.length "pkg://") p).
Proof. intros Hp. unfold _split_path. by rewrite Hp. Qed.

Lemma find_config_in_cons search_path rest filepath :
  find_config_in (search_path :: rest) filepath
  = found ← exists_under search_path filepath;
    if found : bool then Ok (Some search_path)
    else find_config_in rest filepath.
Proof.
  cbn [find_config_in]. unfold exists_under.
  by destruct (_split_path (path search_path)).
Qed.

Lemma find_config_in_first_hit pre e post filepath :
  Forall (fun x => exists_under x filepath = Ok false) pre ->
  exists_under e filepath = Ok true ->
  find_config_in (pre ++ e :: post) filepath = Ok (Some e).
Proof.
  intros Hpre He. induction Hpre as [|x pre Hx _ IH]; cbn [app];
    rewrite find_config_in_cons.
  - by rewrite He.
  - by rewrite Hx.
Qed.

(** *** Claim C5 *)

(** C5.  When a document name exists under an entry of the search path
    and under no entry before it (whatever the later entries hold),
    resolution returns that entry, the document is the one read at that
    entry's location, and the record appended to the load trace carries
    that entry's path and provider. *)
Theorem load_config_first_hit self pre e post input_file doc :
  config_search_path self = pre ++ e :: post ->
  Forall (fun x => exists_under x input_file = Ok false) pre ->
  exists_under e input_file = Ok true ->
  read_under e input_file = Ok (Map doc) ->
  _find_config self input_file = Ok (Some e) /\
  _load_config_impl input_file true self
  = (Ok (Some doc), traced self (trace_hit input_file e)).
Proof.
  intros Hsp Hpre He Hdoc.
  assert (Hfind : _find_config self input_file = Ok (Some e)).
  { unfold _find_config. rewrite Hsp. by apply find_config_in_first_hit. }
  split; [done|].
  unfold _load_config_impl. rewrite run_bind, run_read, Hfind.
  unfold read_under in Hdoc. unfold exists_under, _split_path in He.
  fold (startswith "pkg://" (path e)) in *.
  destruct (startswith "pkg://" (path e)) eqn:Hpkg.
  - destruct (_split_module_and_resource _) as [module_name resource_name].
    by rewrite run_bind, run_lift, Hdoc.
  - cbn [_exists] in He. injection He as ->.
    by rewrite run_bind, run_lift, Hdoc.
Qed.

End SearchProperties.

Lemma load_config_first_hit_witness :
  _find_config ex_loader "model/a.yaml" = Ok (Some ex_conf) /\
  _load_config_impl "model/a.yaml" true ex_loader
  = (Ok (Some [("model", Map [("lr", Leaf (VStr "0.1"))])]),
     traced ex_loader (trace_hit "model/a.yaml" ex_conf)).
Proof.
  apply (load_config_first_hit ex_loader [] ex_conf [ex_plugin]);
    [reflexivity | constructor | reflexivity | reflexivity].
Defined.

(** *** Claim C9 *)

(** C9.  The code at the failing input: a search path that starts with
    [pkg://pkg_noinit/conf], [pkg_noinit] being a directory without an
    init manifest, on which the resource API raises [TypeError].
    [_exists] lets the exception through: the probe, [_find_config] and
    [load_configuration] raise [TypeError], with no message about a
    missing [__init__.py], whatever the later entries hold.  A module
    that cannot be imported is told apart as the claim says: its probe
    answers "not found" and resolution goes on.  The message about
    [__init__.py] is what the probe gives for a module on which the
    resource API raises [NotImplementedError]. *)
Theorem package_without_init_gets_no_guidance :
  let self := ConfigLoader_init [ex_noinit_pkg; ex_pkg] None in
  exists_under ex_noinit_pkg "hydra.yaml" = Raise TypeError /\
  _find_config self "hydra.yaml" = Raise TypeError /\
  load_configuration None [] None self = (Raise TypeError, self) /\
  exists_under ex_missing_pkg "hydra.yaml" = Ok false /\
  find_config_in [ex_missing_pkg; ex_pkg] "hydra.yaml" = Ok (Some ex_pkg) /\
  exists_under ex_unregistered_pkg "hydra.yaml"
  = Raise (NotImplementedError
             ("Unable to load pkg_unregistered/conf/hydra.yaml"
              +:+ ", are you missing an __init__.py?")).
Proof. cbn zeta. repeat split; vm_compute; reflexivity. Qed.

(** ** The merge pass *)

Section ComposeProperties.
Context {env : Environment}.

(** A probe that finds nothing records a miss and yields no document. *)
Lemma load_config_impl_miss self input_file :
  _find_config self input_file = Ok None ->
  _load_config_impl input_file true self
  = (Ok None, traced self (trace_miss input_file)).
Proof.
  intros Hfind. unfold _load_config_impl.
  by rewrite run_bind, run_read, Hfind.
Qed.

(** *** Claim C7 *)

(** C7.  A defaults entry that carries [optional: true] and whose
    document is found nowhere on the search path does not make the merge
    pass raise: the step returns the configuration it was given, records
    the miss in the load trace, and the pass goes on with the remaining
    entries. *)
Theorem optional_missing_default_is_skipped
    self merged_cfg d rest family name :
  dict_attr "optional" d = Some (Leaf (VBool true)) ->
  first_key (dict_del "optional" d) = Ok family ->
  dict_attr family (dict_del "optional" d) = Some (Leaf (VStr name)) ->
  str_contains "_SKIP_" name = false ->
  let document :=
    if bool_decide (family ≠ "") then family +:+ "/" +:+ get_filename name
    else get_filename name in
  _find_config self document = Ok None ->
  merge_default merged_cfg (Map d) self
  = (Ok merged_cfg, traced self (trace_miss document)) /\
  merge_defaults merged_cfg (Map d :: rest) self
  = merge_defaults merged_cfg rest (traced self (trace_miss document)).
Proof.
  intros Hopt Hfam Hname Hskip document Hfind.
  assert (Hstep : merge_default merged_cfg (Map d) self
                  = (Ok merged_cfg, traced self (trace_miss document))).
  { unfold merge_default. rewrite Hopt.
    rewrite run_bind, run_lift, Hfam, Hname.
    rewrite run_bind, run_lift. cbn [has_skip]. rewrite Hskip.
    unfold _merge_config. fold document.
    rewrite run_bind, load_config_impl_miss by done. reflexivity. }
  split; [done|].
  cbn [merge_defaults]. by rewrite run_bind, Hstep.
Qed.

End ComposeProperties.

Lemma optional_missing_default_is_skipped_witness :
  merge_default [("foo", Leaf (VInt 1))]
    (Map [("dataset", Leaf (VStr "imagenet")); ("optional", Leaf (VBool true))])
    ex_loader
  = (Ok [("foo", Leaf (VInt 1))],
     traced ex_loader (trace_miss "dataset/imagenet.yaml")) /\
  merge_defaults [("foo", Leaf (VInt 1))]
    [Map [("dataset", Leaf (VStr "imagenet")); ("optional", Leaf (VBool true))];
     ex_model "a"] ex_loader
  = merge_defaults [("foo", Leaf (VInt 1))] [ex_model "a"]
      (traced ex_loader (trace_miss "dataset/imagenet.yaml")).
Proof.
  apply (optional_missing_default_is_skipped ex_loader
           [("foo", Leaf (VInt 1))]
           [("dataset", Leaf (VStr "imagenet")); ("optional", Leaf (VBool true))]
           [ex_model "a"] "dataset" "imagenet"); reflexivity.
Defined.

(** ** Override classification *)

Lemma filter_all {A} (f : A -> bool) l :
  Forall (fun x => f x = true) l -> List.filter f l = l.
Proof. induction 1 as [|x l Hx _ IH]; cbn; [done|]. by rewrite Hx, IH. Qed.

Lemma filter_partition {A} (f : A -> bool) l :
  List.filter f l ++ List.filter (fun x => negb (f x)) l ≡ₚ l.
Proof.
  induction l as [|x l IH]; cbn; [done|]. destruct (f x); cbn.
  - by rewrite IH.
  - by rewrite <- Permutation_middle, IH.
Qed.

Lemma elem_of_filter_bool {A} (f : A -> bool) l x :
  x ∈ List.filter f l <-> x ∈ l /\ f x = true.
Proof. rewrite !list_elem_of_In. apply List.filter_In. Qed.

Lemma string_eqb_neq (x y : string) : x ≠ y -> String.eqb x y = false.
Proof. intros Hne. by apply String.eqb_neq. Qed.

Section OverrideProperties.
Context {env : Environment}.

(** A loop whose body, on the overrides that [sel] selects, removes the
    override from the shared list and appends it to the consumed ones,
    and leaves both lists alone otherwise. *)
Lemma for_each_override_select
    (body : override_state -> string -> result override_state)
    (sel : string -> bool) :
  (forall ovs d c o ovs' d' c',
     body (ovs, d, c) o = Ok (ovs', d', c') ->
     (sel o = true /\ list_remove String.eqb o ovs = Ok ovs' /\ c' = c ++ [o])
     \/ (sel o = false /\ ovs' = ovs /\ c' = c)) ->
  forall copy done tail d c ovs' d' c',
    Forall (fun o => sel o = false) done ->
    for_each_override body copy (done ++ copy ++ tail, d, c)
    = Ok (ovs', d', c') ->
    ovs' = done ++ List.filter (fun o => negb (sel o)) copy ++ tail /\
    c' = c ++ List.filter sel copy.
Proof.
  intros Hbody copy. induction copy as [|o copy IH];
    intros done tail d c ovs' d' c' Hdone Hrun; cbn in Hrun.
  - injection Hrun as <- <- <-. cbn. by rewrite !app_nil_r.
  - apply bind_Ok in Hrun as ([[ovs1 d1] c1] & Hstep & Hrun).
    destruct (Hbody _ _ _ _ _ _ _ Hstep)
      as [(Hsel & Hrm & ->)|(Hsel & -> & ->)]; cbn; rewrite Hsel; cbn.
    + rewrite list_remove_first in Hrm; cycle 1.
      { eapply Forall_impl; [exact Hdone|]. cbn. intros y Hy.
        apply string_eqb_neq. congruence. }
      { apply String.eqb_refl. }
      injection Hrm as <-.
      destruct (IH _ _ _ _ _ _ _ Hdone Hrun) as [-> ->].
      by rewrite <- app_assoc.
    + rewrite cons_middle, app_assoc in Hrun.
      destruct (IH (done ++ [o]) tail d1 c ovs' d' c') as [-> ->]; [|done|].
      { apply Forall_app. split; [done|]. by constructor. }
      by rewrite <- app_assoc.
Qed.

Lemma apply_defaults_override_select key_to_idx ovs d c o ovs' d' c' :
  apply_defaults_override key_to_idx (ovs, d, c) o = Ok (ovs', d', c') ->
  (group_override key_to_idx o = true /\
   list_remove String.eqb o ovs = Ok ovs' /\ c' = c ++ [o])
  \/ (group_override key_to_idx o = false /\ ovs' = ovs /\ c' = c).
Proof.
  unfold apply_defaults_override, group_override.
  destruct (split_key_val o) as [[key value]|]; [|done]. cbn.
  destruct (key_to_idx !! key) as [idx|] eqn:Hidx.
  - intros (d1 & _ & (ovs1 & Hrm & [= <- <- <-])%bind_Ok)%bind_Ok.
    left. by rewrite bool_decide_eq_true_2 by eauto.
  - intros [= <- <- <-]. right.
    rewrite bool_decide_eq_false_2; [done|]. by intros [? ?].
Qed.

Lemma apply_free_default_select self ovs d c o ovs' d' c' :
  apply_free_default self (ovs, d, c) o = Ok (ovs', d', c') ->
  (free_override self o = true /\
   list_remove String.eqb o ovs = Ok ovs' /\ c' = c ++ [o])
  \/ (free_override self o = false /\ ovs' = ovs /\ c' = c).
Proof.
  unfold apply_free_default, free_override.
  destruct (split_key_val o) as [[key value]|]; [|done]. cbn.
  destruct (exists_in_search_path self key) as [[]|]; [| |done]; cbn.
  - intros (ovs1 & Hrm & [= <- <- <-])%bind_Ok. by left.
  - intros [= <- <- <-]. by right.
Qed.

(** What the group-rewrite phase leaves and what it consumes. *)
Lemma apply_defaults_overrides_select overrides defaults ovs' d' c' :
  _apply_defaults_overrides overrides defaults = Ok (ovs', d', c') ->
  exists key_to_idx,
    overrides_key_to_idx 0 defaults ∅ = Ok key_to_idx /\
    ovs' = List.filter (fun o => negb (group_override key_to_idx o)) overrides /\
    c' = List.filter (group_override key_to_idx) overrides.
Proof.
  unfold _apply_defaults_overrides.
  intros (kti & Hkti & ([[ovs1 d1] c1] & Hrun & [= <- <- <-])%bind_Ok)%bind_Ok.
  exists kti. split; [done|].
  rewrite <- (app_nil_r overrides) in Hrun at 2.
  apply (for_each_override_select _ _
           (apply_defaults_override_select kti) overrides [] []) in Hrun;
    [|done]. by rewrite app_nil_r in Hrun.
Qed.

(** What the free-defaults phase leaves and what it consumes. *)
Lemma apply_free_defaults_select self defaults overrides ovs' d' c' :
  _apply_free_defaults self defaults overrides = Ok (ovs', d', c') ->
  ovs' = List.filter (fun o => negb (free_override self o)) overrides /\
  c' = List.filter (free_override self) overrides.
Proof.
  unfold _apply_free_defaults. intros Hrun.
  rewrite <- (app_nil_r overrides) in Hrun at 2.
  apply (for_each_override_select _ _
           (apply_free_default_select self) overrides [] []) in Hrun;
    [|done]. by rewrite app_nil_r in Hrun.
Qed.

(** *** Claim C1 *)

(** C1.  When the two classification phases of [load_configuration]
    complete on a list of override tokens, the overrides consumed by the
    group-rewrite phase, those consumed by the free-defaults phase and
    the residual ones make up the original list up to ordering, and
    every token of the list is in exactly one of the three. *)
Theorem override_classification_partition
    self overrides defaults overrides1 defaults1 consumed
    overrides2 defaults2 consumed_free :
  _apply_defaults_overrides overrides defaults
  = Ok (overrides1, defaults1, consumed) ->
  _apply_free_defaults self defaults1 overrides1
  = Ok (overrides2, defaults2, consumed_free) ->
  let residual := remaining_overrides overrides2 (consumed ++ consumed_free) in
  consumed ++ consumed_free ++ residual ≡ₚ overrides /\
  forall x, x ∈ overrides ->
    (x ∈ consumed ∧ (x ∉ consumed_free) ∧ (x ∉ residual)) ∨
    ((x ∉ consumed) ∧ x ∈ consumed_free ∧ (x ∉ residual)) ∨
    ((x ∉ consumed) ∧ (x ∉ consumed_free) ∧ x ∈ residual).
Proof.
  intros (kti & _ & -> & ->)%apply_defaults_overrides_select
         [-> ->]%apply_free_defaults_select residual.
  set (g := group_override kti). set (f := free_override self).
  assert (Hres : residual
     = List.filter (fun o => negb (f o))
         (List.filter (fun o => negb (g o)) overrides)).
  { unfold residual, remaining_overrides. apply filter_all, Forall_forall.
    intros x [[Hx Hg]%elem_of_filter_bool Hf]%elem_of_filter_bool.
    apply bool_decide_eq_true. rewrite elem_of_app, !elem_of_filter_bool.
    fold g f in Hg, Hf |- *.
    intros [[_ Hg']|[_ Hf']]; [rewrite Hg' in Hg | rewrite Hf' in Hf]; done. }
  rewrite Hres. clear Hres residual. split.
  - rewrite (filter_partition f), (filter_partition g). done.
  - intros x Hx. rewrite !elem_of_filter_bool.
    destruct (g x) eqn:Hg, (f x) eqn:Hf; cbn [negb];
      intuition discriminate.
Qed.

End OverrideProperties.

Lemma override_classification_partition_witness :
  let overrides := ["optimizer=adam"; "model=b"; "model.lr=1"; "model=b"] in
  let consumed := ["model=b"; "model=b"] in
  let consumed_free := ["optimizer=adam"] in
  let residual :=
    remaining_overrides ["model.lr=1"] (consumed ++ consumed_free) in
  consumed ++ consumed_free ++ residual ≡ₚ overrides /\
  forall x, x ∈ overrides ->
    (x ∈ consumed ∧ (x ∉ consumed_free) ∧ (x ∉ residual)) ∨
    ((x ∉ consumed) ∧ x ∈ consumed_free ∧ (x ∉ residual)) ∨
    ((x ∉ consumed) ∧ (x ∉ consumed_free) ∧ x ∈ residual).
Proof.
  apply (override_classification_partition ex_loader
           ["optimizer=adam"; "model=b"; "model.lr=1"; "model=b"]
           [ex_model "a"]
           ["optimizer=adam"; "model.lr=1"] [ex_model "b"]
           ["model=b"; "model=b"]
           ["model.lr=1"]
           [ex_model "b"; Map [("optimizer", Leaf (VStr "adam"))]]
           ["optimizer=adam"]); vm_compute; reflexivity.
Defined.

(** ** The group index after a removal *)

Lemma dict_set_nonempty {A} key (v : A) d : dict_set key v d ≠ [].
Proof. destruct d as [|[k x] d]; cbn; [done|]. by case_decide. Qed.

Lemma entry_key_dict_set key v d :
  d ≠ [] -> entry_key (Map (dict_set key v d)) = entry_key (Map d).
Proof. destruct d as [|[k x] d]; cbn; [done|]. by case_decide. Qed.

Section StaleIndex.
Context {env : Environment}.

(** The index built by the first loop of the group-rewrite phase. *)
Lemma overrides_key_to_idx_spec defaults :
  forall idx m key_to_idx,
    overrides_key_to_idx idx defaults m = Ok key_to_idx ->
    Forall (fun e => e ≠ Map []) defaults /\
    forall k, key_to_idx !! k =
      match last_index_of entry_key k defaults with
      | Some i => Some (idx + i)
      | None => m !! k
      end.
Proof.
  induction defaults as [|e defaults IH]; intros idx m kti;
    cbn [overrides_key_to_idx last_index_of].
  - intros [= <-]. by split.
  - assert (Hskip : entry_key e = None -> e ≠ Map [] ->
      overrides_key_to_idx (S idx) defaults m = Ok kti ->
      Forall (fun e => e ≠ Map []) (e :: defaults) /\
      forall k, kti !! k =
        match
          match last_index_of entry_key k defaults with
          | Some i => Some (S i)
          | None => if decide (entry_key e = Some k) then Some 0 else None
          end
        with
        | Some i => Some (idx + i)
        | None => m !! k
        end).
    { intros He Hne (Hall & Hkti)%IH. split; [by constructor|].
      intros k. rewrite Hkti, He.
      destruct (last_index_of entry_key k defaults); [f_equal; lia|].
      by case_decide. }
    destruct e as [v|items|[|[k1 x] d]]; try (by apply Hskip); [done|].
    clear Hskip. cbn [first_key mbind result_bind].
    intros (Hall & Hkti)%IH. split; [by constructor|].
    intros k. rewrite Hkti. cbn [entry_key].
    destruct (last_index_of entry_key k defaults); [f_equal; lia|].
    case_decide as Hk.
    + injection Hk as ->. rewrite lookup_insert_eq. f_equal; lia.
    + rewrite lookup_insert_ne; [done|congruence].
Qed.

Lemma shifted_init defaults key_to_idx :
  overrides_key_to_idx 0 defaults ∅ = Ok key_to_idx ->
  shifted key_to_idx (length defaults) defaults.
Proof.
  intros (Hall & Hkti)%overrides_key_to_idx_spec p e Hp.
  split; [by eapply Forall_lookup_1 in Hall|].
  intros k Hk.
  destruct (last_index_of_Some entry_key k defaults p e Hp Hk) as [q Hq].
  exists q. rewrite Hkti, Hq. split; [done|].
  split; [by eapply last_index_of_last|].
  apply lookup_lt_Some in Hp. lia.
Qed.

(** One step of the loop keeps the invariant; a removal moves the bound
    down to the index it used. *)
Lemma shifted_step key_to_idx m ovs cur c o ovs' cur' c' :
  shifted key_to_idx m cur ->
  apply_defaults_override key_to_idx (ovs, cur, c) o = Ok (ovs', cur', c') ->
  exists m',
    shifted key_to_idx m' cur' /\ m' <= m /\
    forall k i, split_key_val o = Ok (k, "null") ->
                key_to_idx !! k = Some i -> m' <= i.
Proof.
  intros Hinv. unfold apply_defaults_override.
  destruct (split_key_val o) as [[key value]|]; [|done]. cbn [mbind result_bind].
  destruct (key_to_idx !! key) as [idx|] eqn:Hidx.
  - intros (d1 & Hd1 & (ovs1 & _ & [= <- <- <-])%bind_Ok)%bind_Ok.
    case_bool_decide as Hnull.
    + (* removal *)
      unfold list_delitem in Hd1. case_decide as Hlt; [|done].
      injection Hd1 as <-. exists (m `min` idx).
      split; [|split; [lia|]].
      * intros p e Hp. destruct (decide (p < idx)) as [Hpi|Hpi].
        -- rewrite list_lookup_delete_lt in Hp by done.
           destruct (Hinv p e Hp) as [Hne Hk]. split; [done|].
           intros k Hek. destruct (Hk k Hek) as (q & Hq & Hle & Hst).
           exists q. split; [done|]. split; [done|]. intros ?. apply Hst. lia.
        -- rewrite list_lookup_delete_ge in Hp by lia.
           destruct (Hinv (S p) e Hp) as [Hne Hk]. split; [done|].
           intros k Hek. destruct (Hk k Hek) as (q & Hq & Hle & Hst).
           exists q. split; [done|]. split; lia.
      * intros k i [= <- _] Hi. rewrite Hidx in Hi. injection Hi as <-. lia.
    + (* assignment *)
      unfold defaults_set_choice, list_getitem in Hd1.
      destruct (cur !! idx) as [entry|] eqn:Hentry; [|done].
      cbn [mbind result_bind] in Hd1.
      destruct entry as [| |d]; try done.
      unfold list_setitem in Hd1. case_decide as Hlt; [|done].
      injection Hd1 as <-. exists m. split; [|split; [lia|]].
      * intros p e Hp. destruct (decide (p = idx)) as [->|Hne].
        -- rewrite list_lookup_insert_eq in Hp by done. injection Hp as <-.
           destruct (Hinv idx (Map d) Hentry) as [Hd Hk].
           assert (d ≠ []) by congruence.
           split; [intros [= ?]; by eapply dict_set_nonempty|].
           intros k. rewrite entry_key_dict_set by done. apply Hk.
        -- rewrite list_lookup_insert_ne in Hp by done. by apply Hinv.
      * intros k i [= <- ->]. by destruct Hnull.
  - intros [= <- <- <-]. exists m. split; [done|]. split; [lia|].
    intros k i [= <- _] Hi. congruence.
Qed.

Lemma shifted_loop key_to_idx pre :
  forall m ovs cur c ovs' cur' c',
    shifted key_to_idx m cur ->
    for_each_override (apply_defaults_override key_to_idx) pre (ovs, cur, c)
    = Ok (ovs', cur', c') ->
    exists m',
      shifted key_to_idx m' cur' /\ m' <= m /\
      forall o k i, o ∈ pre -> split_key_val o = Ok (k, "null") ->
                    key_to_idx !! k = Some i -> m' <= i.
Proof.
  induction pre as [|o pre IH]; intros m ovs cur c ovs' cur' c' Hinv Hrun;
    cbn in Hrun.
  - injection Hrun as <- <- <-. exists m. split; [done|]. split; [lia|].
    intros o k i Ho. by apply elem_of_nil in Ho.
  - apply bind_Ok in Hrun as ([[ovs1 cur1] c1] & Hstep & Hrun).
    destruct (shifted_step _ _ _ _ _ _ _ _ _ Hinv Hstep)
      as (m1 & Hinv1 & Hle1 & Hnull1).
    destruct (IH _ _ _ _ _ _ _ Hinv1 Hrun) as (m2 & Hinv2 & Hle2 & Hnull2).
    exists m2. split; [done|]. split; [lia|].
    intros o' k i [->|Ho']%elem_of_cons Hsplit Hi.
    + specialize (Hnull1 k i Hsplit Hi). lia.
    + by eapply Hnull2.
Qed.


(** *** Claim C10 *)

(** C10, as amended.  The group-rewrite phase indexes the defaults list
    once, before it treats any override.  Once an override with value
    [null] has removed the entry indexed at [i], a later group-rewrite
    override of the same call whose key is indexed at a position [j]
    after [i] is applied at position [j] of the shortened list: past its
    end, which raises [IndexError], or on an entry that is not the one
    its key names; that entry is deleted, or gets the key assigned when
    it is a map, or makes the assignment raise [TypeError] when it is a
    bare string. *)
Theorem group_rewrite_after_removal_uses_stale_index
    defaults key_to_idx pre override post removal key0 i key value j
    overrides1 cur consumed1 :
  overrides_key_to_idx 0 defaults ∅ = Ok key_to_idx ->
  for_each_override (apply_defaults_override key_to_idx) pre
    (pre ++ override :: post, defaults, [])
  = Ok (overrides1, cur, consumed1) ->
  removal ∈ pre ->
  split_key_val removal = Ok (key0, "null") ->
  key_to_idx !! key0 = Some i ->
  split_key_val override = Ok (key, value) ->
  key_to_idx !! key = Some j ->
  i < j ->
  let value' := if str_contains "," value then "_SKIP_" else value in
  let step :=
    apply_defaults_override key_to_idx (overrides1, cur, consumed1) override in
  match cur !! j with
  | None => step = Raise IndexError
  | Some entry =>
      entry_key entry ≠ Some key /\
      exists overrides2,
        if bool_decide (value' = "null") then
          step = Ok (overrides2, delete j cur, consumed1 ++ [override])
        else
          match entry with
          | Map d =>
              step = Ok (overrides2,
                         <[j := Map (dict_set key (Leaf (VStr value')) d)]> cur,
                         consumed1 ++ [override])
          | _ => step = Raise TypeError
          end
  end.
Proof.
  intros Hkti Hrun Hrem Hsplit0 Hi Hsplit Hj Hij value' step.
  destruct (shifted_loop _ _ _ _ _ _ _ _ _ (shifted_init _ _ Hkti) Hrun)
    as (m & Hinv & _ & Hnull).
  specialize (Hnull removal key0 i Hrem Hsplit0 Hi).
  rewrite <- (app_nil_l (pre ++ _)) in Hrun.
  apply (for_each_override_select _ _
           (apply_defaults_override_select key_to_idx)) in Hrun; [|done].
  destruct Hrun as [Hovs _]. cbn [app] in Hovs.
  assert (Hrm : list_remove String.eqb override overrides1
                = Ok (List.filter
                        (fun o => negb (group_override key_to_idx o)) pre
                      ++ post)).
  { rewrite Hovs. apply list_remove_first; [|apply String.eqb_refl].
    apply Forall_forall. intros y [_ Hy]%elem_of_filter_bool.
    apply string_eqb_neq. intros <-. unfold group_override in Hy.
    rewrite Hsplit in Hy. rewrite bool_decide_eq_true_2 in Hy by eauto.
    done. }
  unfold step, apply_defaults_override. rewrite Hsplit.
  cbn [mbind result_bind]. rewrite Hj. fold value'.
  destruct (cur !! j) as [entry|] eqn:Hentry.
  - assert (Hlt : j < length cur) by (by eapply lookup_lt_Some).
    split.
    + intros Hk. destruct (Hinv j entry Hentry) as [_ Hq].
      destruct (Hq key Hk) as (q & Hq' & _ & Hst).
      rewrite Hj in Hq'. injection Hq' as <-. specialize (Hst ltac:(lia)). lia.
    + eexists. case_bool_decide.
      * unfold list_delitem. rewrite decide_True by done.
        cbn [mbind result_bind]. by rewrite Hrm.
      * unfold defaults_set_choice, list_getitem. rewrite Hentry.
        cbn [mbind result_bind]. destruct entry as [| |d]; try done.
        unfold list_setitem. rewrite decide_True by done.
        cbn [mbind result_bind]. by rewrite Hrm.
  - assert (Hge : ¬ j < length cur).
    { apply lookup_ge_None in Hentry. lia. }
    case_bool_decide.
    + unfold list_delitem. by rewrite decide_False.
    + unfold defaults_set_choice, list_getitem. by rewrite Hentry.
Qed.

End StaleIndex.

(** C10, counterexample.  After [a=null] has removed the first entry, the
    override [b=z] is applied at its old index 1, which now holds the
    bare file [config.yaml]: the index is inside the shortened list, no
    entry is assigned or deleted, and the call raises [TypeError]. *)
Lemma stale_index_on_bare_file_raises_type_error :
  let defaults :=
    [Map [("a", Leaf (VStr "x"))]; Map [("b", Leaf (VStr "y"))];
     Leaf (VStr "config.yaml")] in
  overrides_key_to_idx 0 defaults ∅ = Ok (<["b" := 1]> (<["a" := 0]> ∅)) /\
  for_each_override
    (apply_defaults_override (<["b" := 1]> (<["a" := 0]> ∅)))
    ["a=null"] (["a=null"; "b=z"], defaults, [])
  = Ok (["b=z"],
        [Map [("b", Leaf (VStr "y"))]; Leaf (VStr "config.yaml")],
        ["a=null"]) /\
  [Map [("b", Leaf (VStr "y"))]; Leaf (VStr "config.yaml")] !! 1
  = Some (Leaf (VStr "config.yaml")) /\
  _apply_defaults_overrides ["a=null"; "b=z"] defaults = Raise TypeError.
Proof. repeat split; vm_compute; reflexivity. Qed.

Lemma group_rewrite_after_removal_uses_stale_index_witness :
  entry_key (Map [("c", Leaf (VStr "z"))]) ≠ Some "b" /\
  exists overrides2,
    apply_defaults_override (<["c" := 2]> (<["b" := 1]> (<["a" := 0]> ∅)))
      (["b=w"],
       [Map [("b", Leaf (VStr "y"))]; Map [("c", Leaf (VStr "z"))]],
       ["a=null"]) "b=w"
    = Ok (overrides2,
          [Map [("b", Leaf (VStr "y"))];
           Map [("c", Leaf (VStr "z")); ("b", Leaf (VStr "w"))]],
          ["a=null"; "b=w"]).
Proof.
  apply (group_rewrite_after_removal_uses_stale_index
           [Map [("a", Leaf (VStr "x"))]; Map [("b", Leaf (VStr "y"))];
            Map [("c", Leaf (VStr "z"))]]
           (<["c" := 2]> (<["b" := 1]> (<["a" := 0]> ∅)))
           ["a=null"] "b=w" [] "a=null" "a" 0 "b" "w" 1
           ["b=w"]
           [Map [("b", Leaf (VStr "y"))]; Map [("c", Leaf (VStr "z"))]]
           ["a=null"]);
    first [ reflexivity | by apply list_elem_of_here | lia ].
Defined.

(** ** The sweep sentinel *)

Lemma dict_get_dict_set {A} key (v : A) d :
  dict_get key (dict_set key v d) = Some v.
Proof.
  induction d as [|[k x] d IH]; cbn; [by case_decide|].
  case_decide; cbn; by case_decide.
Qed.

Section SweepSentinel.
Context {env : Environment}.





Lemma overrides_key_to_idx_entry defaults key_to_idx k i :
  overrides_key_to_idx 0 defaults ∅ = Ok key_to_idx ->
  key_to_idx !! k = Some i ->
  entry_key <$> (defaults !! i) = Some (Some k).
Proof.
  intros [_ Hkti]%overrides_key_to_idx_spec. rewrite Hkti.
  destruct (last_index_of entry_key k defaults) as [i1|] eqn:H1;
    [|by rewrite lookup_empty].
  intros [= <-]. apply last_index_of_lookup in H1 as (x & -> & Hk).
  cbn. by rewrite Hk.
Qed.

(** A step that removes nothing keeps the first keys, and touches only
    the entry indexed for the key of its override. *)
Lemma keep_keys_step defaults key_to_idx ovs cur c o ovs' cur' c' :
  overrides_key_to_idx 0 defaults ∅ = Ok key_to_idx ->
  same_keys defaults cur ->
  (forall k v, split_key_val o = Ok (k, v) ->
               is_Some (key_to_idx !! k) -> v ≠ "null") ->
  apply_defaults_override key_to_idx (ovs, cur, c) o = Ok (ovs', cur', c') ->
  same_keys defaults cur' /\
  forall k v, split_key_val o = Ok (k, v) ->
    match key_to_idx !! k with
    | Some i =>
        exists d,
          cur !! i = Some (Map d) /\
          cur' = <[i := Map (dict_set k
                    (Leaf (VStr (if str_contains "," v then "_SKIP_" else v)))
                    d)]> cur
    | None => cur' = cur
    end.
Proof.
  intros Hkti Hsame Hnonull. unfold apply_defaults_override.
  destruct (split_key_val o) as [[key value]|] eqn:Hsplit; [|done].
  cbn [mbind result_bind].
  destruct (key_to_idx !! key) as [idx|] eqn:Hidx.
  - intros (d1 & Hd1 & (ovs1 & _ & [= <- <- <-])%bind_Ok)%bind_Ok.
    assert (Hv : value ≠ "null") by (eapply Hnonull; eauto).
    rewrite bool_decide_eq_false_2 in Hd1.
    2:{ destruct (str_contains "," value); [done|exact Hv]. }
    unfold defaults_set_choice, list_getitem in Hd1.
    destruct (cur !! idx) as [entry|] eqn:Hentry; [|done].
    cbn [mbind result_bind] in Hd1. destruct entry as [| |d]; try done.
    unfold list_setitem in Hd1. case_decide as Hlt; [|done].
    injection Hd1 as <-.
    assert (Hd : d ≠ []).
    { pose proof (Hsame idx) as Hk. rewrite Hentry in Hk.
      rewrite (overrides_key_to_idx_entry _ _ _ _ Hkti Hidx) in Hk.
      intros ->. done. }
    split.
    + intros p. destruct (decide (p = idx)) as [->|Hne].
      * rewrite list_lookup_insert_eq by done. rewrite <- Hsame, Hentry.
        cbn [fmap option_fmap option_map]. f_equal.
        by apply entry_key_dict_set.
      * rewrite list_lookup_insert_ne by done. apply Hsame.
    + intros k v [= <- <-]. rewrite Hidx. eauto.
  - intros [= <- <- <-]. split; [done|].
    intros k v [= <- <-]. by rewrite Hidx.
Qed.




(** *** Claim C4 *)


End SweepSentinel.



(** ** Strictness *)

(** Under a prefix that bears no flag, and with none below it, the flag in
    force is the inherited one. *)
Lemma flag_from_none flags rest :
  forall prefix inherited,
    (forall q, prefix `prefix_of` q -> flags !! q = None) ->
    flag_from flags prefix inherited rest = inherited.
Proof.
  induction rest as [|k rest IH]; intros prefix inherited Hnone;
    cbn [flag_from]; rewrite (Hnone prefix) by done; [done|].
  apply IH. intros q Hq. apply Hnone. etrans; [|exact Hq].
  by apply prefix_app_r.
Qed.

Lemma engaged_flags_lookup strict q b :
  engaged_flags strict !! q = Some b ->
  (q = [] /\ strict = Some b) \/ (q = ["hydra"] /\ b = true).
Proof.
  unfold engaged_flags, set_flag. destruct strict as [s|].
  - rewrite lookup_insert. case_decide as Hq; [naive_solver|].
    rewrite lookup_insert. case_decide; [naive_solver|].
    by rewrite lookup_empty.
  - rewrite lookup_delete. case_decide; [done|].
    rewrite lookup_insert. case_decide; [naive_solver|].
    by rewrite lookup_empty.
Qed.

Lemma engaged_flags_root strict : engaged_flags strict !! [] = strict.
Proof.
  unfold engaged_flags, set_flag. destruct strict as [s|].
  - by rewrite lookup_insert_eq.
  - by rewrite lookup_delete_eq.
Qed.

Lemma engaged_flags_hydra strict :
  engaged_flags strict !! ["hydra"] = Some true.
Proof.
  unfold engaged_flags, set_flag. destruct strict as [s|].
  - rewrite lookup_insert_ne by done. by rewrite lookup_insert_eq.
  - rewrite lookup_delete_ne by done. by rewrite lookup_insert_eq.
Qed.

Lemma engaged_flags_deep strict k1 k2 q :
  engaged_flags strict !! (k1 :: k2 :: q) = None.
Proof.
  destruct (engaged_flags strict !! (k1 :: k2 :: q)) as [b|] eqn:E; [|done].
  by apply engaged_flags_lookup in E as [[? _]|[? _]].
Qed.

Lemma engaged_flags_other strict k q :
  k ≠ "hydra" -> engaged_flags strict !! (k :: q) = None.
Proof.
  intros Hk. destruct (engaged_flags strict !! (k :: q)) as [b|] eqn:E; [|done].
  apply engaged_flags_lookup in E as [[? _]|[Hq _]]; [done|].
  by injection Hq as -> _.
Qed.

(** The [hydra] subtree is strict everywhere. *)
Lemma is_struct_hydra strict p :
  is_struct (engaged_flags strict) ("hydra" :: p) = true.
Proof.
  unfold is_struct. apply bool_decide_eq_true. cbn [flag_from app].
  destruct p as [|k p]; cbn [flag_from app];
    rewrite engaged_flags_hydra; [done|].
  apply flag_from_none. intros q [q' ->]. cbn. apply engaged_flags_deep.
Qed.

(** Outside the [hydra] subtree the flag of the root is in force. *)
Lemma flag_outside_hydra strict k p :
  k ≠ "hydra" ->
  flag_from (engaged_flags strict) [] None (k :: p) = strict.
Proof.
  intros Hk. cbn [flag_from app]. rewrite engaged_flags_root.
  assert (match strict with Some b => Some b | None => None end = strict)
    as -> by (by destruct strict).
  apply flag_from_none. intros q [q' ->]. cbn. by apply engaged_flags_other.
Qed.

Lemma is_struct_root strict :
  is_struct (engaged_flags strict) [] = bool_decide (strict = Some true).
Proof.
  unfold is_struct. cbn [flag_from]. rewrite engaged_flags_root.
  by destruct strict.
Qed.

Lemma is_struct_outside_hydra strict k p :
  k ≠ "hydra" ->
  is_struct (engaged_flags strict) (k :: p) = bool_decide (strict = Some true).
Proof. intros Hk. unfold is_struct. by rewrite flag_outside_hydra. Qed.

(** Replacing a node outside the [hydra] subtree drops no flag. *)
Lemma drop_flags_outside_hydra strict k q :
  k ≠ "hydra" ->
  drop_flags (k :: q) (engaged_flags strict) = engaged_flags strict.
Proof.
  intros Hk. unfold drop_flags. apply map_filter_id.
  intros p b [[-> _]|[-> _]]%engaged_flags_lookup; cbn.
  - intros [? ?]. done.
  - intros [q' Hq]. injection Hq as Hq _. done.
Qed.

(** Where every map on the way is strict, a path that addresses an
    absent key is rejected. *)
Lemma update_in_strict_absent flags value rest :
  forall prefix m key,
    (forall p, is_struct flags (prefix ++ p) = true) ->
    absent_key m key rest = true ->
    update_in flags prefix m key rest value = Raise KeyError.
Proof.
  induction rest as [|key' rest IH]; intros prefix m key Hstrict Habs;
    assert (Hhere : is_struct flags prefix = true)
      by (rewrite <- (app_nil_r prefix); apply Hstrict);
    cbn [update_in absent_key] in *; rewrite Hhere.
  - destruct (dict_get key m) as [[| |]|]; done.
  - destruct (dict_get key m) as [[| |child]|]; try done.
    cbn [mbind result_bind]. rewrite IH; [done| |done].
    intros p. rewrite <- app_assoc. apply Hstrict.
Qed.

(** Where no map on the way is strict and no flag lies on the way, a
    path that addresses an absent key is created with its value. *)
Lemma update_in_lenient_absent flags value rest :
  forall prefix m key,
    is_struct flags prefix = false ->
    (forall p, is_struct flags (prefix ++ key :: p) = false) ->
    (forall p, drop_flags (prefix ++ key :: p) flags = flags) ->
    absent_key m key rest = true ->
    exists m',
      update_in flags prefix m key rest value = Ok (m', flags) /\
      node_at (Map m') (key :: rest) = Some value.
Proof.
  induction rest as [|key' rest IH]; intros prefix m key Hhere Hbelow Hdrop Habs;
    cbn [update_in absent_key] in *; rewrite Hhere; cbn [andb].
  - exists (dict_set key value m). rewrite (Hdrop []). split; [done|].
    cbn. by rewrite dict_get_dict_set.
  - assert (Hgo : forall child, absent_key child key' rest = true ->
      exists m',
        ('(child, flags) ←
           update_in flags (prefix ++ [key]) child key' rest value;
         Ok (dict_set key (Map child) m, flags)) = Ok (m', flags) /\
        node_at (Map m') (key :: key' :: rest) = Some value).
    { intros child Hchild.
      destruct (IH (prefix ++ [key]) child key') as (child' & Hrun & Hat).
      - apply (Hbelow []).
      - intros p. rewrite <- app_assoc. apply Hbelow.
      - intros p. rewrite <- app_assoc. apply Hdrop.
      - done.
      - rewrite Hrun. cbn [mbind result_bind].
        exists (dict_set key (Map child') m). split; [done|].
        cbn [node_at]. rewrite dict_get_dict_set. exact Hat. }
    destruct (dict_get key m) as [[| |child]|]; try done;
      cbn [mbind result_bind]; apply Hgo; [done|by destruct rest].
Qed.

Section Strictness.
Context {env : Environment}.

Lemma engage_strictness_flags cfg hydra strict :
  dict_get "hydra" cfg = Some (Map hydra) ->
  engage_strictness cfg strict
  = Ok {| content := cfg; struct_flags := engaged_flags strict |}.
Proof.
  intros Hh. unfold engage_strictness, set_struct, getattr_path.
  cbn [content struct_flags getattr_from]. by rewrite Hh.
Qed.

Lemma merge_with_dotlist_one c override key value :
  dotlist_item override = Ok (key, value) ->
  merge_with_dotlist c [override] = update c key value.
Proof.
  intros Hitem. cbn [merge_with_dotlist]. rewrite Hitem.
  cbn [mbind result_bind]. by destruct (update c key value).
Qed.

(** *** Claim C6 *)

(** C6, as amended.  After composition the [hydra] subtree is marked
    strict whatever the strict flag, and the whole document is strict
    exactly when the effective strict flag is true.  A residual override
    whose dotted path addresses a key absent from the merged tree then
    raises a strict-mode error when strict is true, and also, whatever
    the strict flag, when the path lies under [hydra]; when strict is
    false or unset and the path lies outside [hydra], the key is created
    with the value of the override. *)
Theorem strictness_contract
    cfg hydra strict override key value k rest :
  dict_get "hydra" cfg = Some (Map hydra) ->
  dotlist_item override = Ok (key, value) ->
  str_split "." key = k :: rest ->
  absent_key cfg k rest = true ->
  exists c,
    engage_strictness cfg strict = Ok c /\
    content c = cfg /\
    is_struct (struct_flags c) ["hydra"] = true /\
    (is_struct (struct_flags c) [] = true <-> strict = Some true) /\
    (strict = Some true -> merge_with_dotlist c [override] = Raise KeyError) /\
    (k = "hydra" -> merge_with_dotlist c [override] = Raise KeyError) /\
    (strict ≠ Some true -> k ≠ "hydra" ->
     exists c',
       merge_with_dotlist c [override] = Ok c' /\
       node_at (Map (content c')) (k :: rest) = Some value /\
       struct_flags c' = struct_flags c).
Proof.
  intros Hh Hitem Hsplit Habs. eexists.
  split; [by eapply engage_strictness_flags|].
  cbn [content struct_flags]. split; [done|].
  split; [apply is_struct_hydra|].
  split; [rewrite is_struct_root; apply bool_decide_eq_true|].
  rewrite (merge_with_dotlist_one _ _ _ _ Hitem). unfold update.
  rewrite Hsplit. cbn [content struct_flags].
  split; [|split].
  - intros ->. rewrite update_in_strict_absent; [done| |done].
    intros [|k' p]; cbn [app].
    + by rewrite is_struct_root.
    + destruct (decide (k' = "hydra")) as [->|Hk'];
        [apply is_struct_hydra|by rewrite is_struct_outside_hydra].
  - intros ->. destruct rest as [|key' rest];
      cbn [absent_key update_in] in *; rewrite Hh in Habs |- *; [done|].
    cbn [mbind result_bind].
    rewrite update_in_strict_absent; [done| |done].
    intros p. apply is_struct_hydra.
  - intros Hstrict Hk.
    destruct (update_in_lenient_absent (engaged_flags strict) value rest
                [] cfg k) as (m' & Hrun & Hat).
    + rewrite is_struct_root. by apply bool_decide_eq_false.
    + intros p. cbn [app]. rewrite is_struct_outside_hydra by done.
      by apply bool_decide_eq_false.
    + intros p. cbn [app]. by apply drop_flags_outside_hydra.
    + done.
    + rewrite Hrun. cbn [mbind result_bind]. eauto.
Qed.

End Strictness.

(** C6, counterexample.  With strict set to false, the residual override
    [hydra.foo=1] addresses a key that the merged tree does not have, and
    it raises a strict-mode error instead of creating the key; the whole
    composition fails with it. *)
Lemma lenient_override_under_hydra_is_rejected :
  let cfg := [("hydra", Map [("job", Map [])]); ("foo", Leaf (VInt 1))] in
  absent_key cfg "hydra" ["foo"] = true /\
  (exists c,
     engage_strictness cfg (Some false) = Ok c /\
     is_struct (struct_flags c) [] = false /\
     merge_with_dotlist c ["hydra.foo=1"] = Raise KeyError) /\
  (load_configuration (Some "config.yaml") ["hydra.foo=1"] (Some false)
     ex_loader).1
  = Raise KeyError.
Proof.
  split; [reflexivity|]. split.
  - eexists. split; [reflexivity|]. split; vm_compute; reflexivity.
  - vm_compute. reflexivity.
Qed.

Lemma strictness_contract_witness :
  let cfg := [("hydra", Map [("job", Map [])]); ("foo", Leaf (VInt 1))] in
  exists c,
    engage_strictness cfg None = Ok c /\
    (exists c',
       merge_with_dotlist c ["does.not.exist=1"] = Ok c' /\
       node_at (Map (content c')) ["does"; "not"; "exist"]
       = Some (Leaf (VStr "1"))) /\
    exists c1,
      engage_strictness cfg (Some true) = Ok c1 /\
      merge_with_dotlist c1 ["does.not.exist=1"] = Raise KeyError.
Proof.
  intros cfg.
  destruct (strictness_contract cfg [("job", Map [])] None
              "does.not.exist=1" "does.not.exist" (Leaf (VStr "1"))
              "does" ["not"; "exist"])
    as (c & Hc & _ & _ & _ & _ & _ & Hlenient); [reflexivity..|].
  destruct (strictness_contract cfg [("job", Map [])] (Some true)
              "does.not.exist=1" "does.not.exist" (Leaf (VStr "1"))
              "does" ["not"; "exist"])
    as (c1 & Hc1 & _ & _ & _ & Hstrict & _); [reflexivity..|].
  exists c. split; [exact Hc|]. split.
  - destruct Hlenient as (c' & Hrun & Hat & _); [discriminate..|]. eauto.
  - exists c1. split; [exact Hc1|]. by apply Hstrict.
Defined.

(** ** The load trace *)

Section LoadTraceProperties.
Context {env : Environment}.

Lemma uniform_ret {A} (a : A) : uniform (mret a).
Proof. by intros t0 self. Qed.

Lemma uniform_lift {A} (r : result A) : uniform (lift r).
Proof. by intros t0 self. Qed.

Lemma uniform_read {A} (f : ConfigLoader -> result A) :
  (forall t0 self, f (prepend t0 self) = f self) -> uniform (read f).
Proof. intros Hf t0 self. unfold read. by rewrite Hf. Qed.

Lemma uniform_record_trace t : uniform (record_trace t).
Proof.
  intros t0 self. unfold record_trace, prepend. cbn. by rewrite app_assoc.
Qed.

Lemma uniform_bind {A B} (m : loader A) (f : A -> loader B) :
  uniform m -> (forall a, uniform (f a)) -> uniform (m ≫= f).
Proof.
  intros Hm Hf t0 self. rewrite !run_bind, Hm.
  destruct (m self) as [[a|e] self']; cbn [fst snd]; [apply Hf|done].
Qed.

(** Breaks a computation down to the reads and writes it is made of. *)
Ltac uniform :=
  repeat first
    [ apply uniform_ret
    | apply uniform_lift
    | apply uniform_record_trace
    | apply uniform_read; reflexivity
    | apply uniform_bind; [|intros ?]
    | match goal with
      | |- uniform (match ?x with _ => _ end) => destruct x
      end ].

Lemma uniform_load_config_impl input_file record_load :
  uniform (_load_config_impl input_file record_load).
Proof. unfold _load_config_impl. uniform. Qed.

Lemma uniform_merge_config cfg family name required :
  uniform (_merge_config cfg family name required).
Proof.
  unfold _merge_config.
  apply uniform_bind; [apply uniform_load_config_impl|intros ?]. uniform.
Qed.

Lemma uniform_merge_default merged_cfg default1 :
  uniform (merge_default merged_cfg default1).
Proof.
  unfold merge_default.
  repeat first
    [ apply uniform_merge_config
    | apply uniform_ret
    | apply uniform_lift
    | apply uniform_bind; [|intros ?]
    | match goal with
      | |- uniform (match ?x with _ => _ end) => destruct x
      end ].
Qed.

Lemma uniform_merge_defaults def_list :
  forall merged_cfg, uniform (merge_defaults merged_cfg def_list).
Proof.
  induction def_list as [|default1 def_list IH]; intros merged_cfg;
    cbn [merge_defaults]; [apply uniform_ret|].
  apply uniform_bind; [apply uniform_merge_default|apply IH].
Qed.

Lemma uniform_merge_defaults_pass cfg defaults split_at :
  uniform (_merge_defaults cfg defaults split_at).
Proof.
  unfold _merge_defaults. destruct (split_defaults split_at defaults).
  apply uniform_bind; [apply uniform_merge_defaults|intros ?].
  apply uniform_bind; [apply uniform_merge_defaults|intros ?].
  apply uniform_ret.
Qed.

Lemma uniform_create_cfg cfg_filename record_load :
  uniform (_create_cfg cfg_filename record_load).
Proof.
  unfold _create_cfg. apply uniform_bind.
  - destruct cfg_filename; [|apply uniform_ret].
    apply uniform_bind; [apply uniform_load_config_impl|intros ?]. uniform.
  - intros ?. uniform.
Qed.

Lemma uniform_load_configuration config_file overrides strict :
  uniform (load_configuration config_file overrides strict).
Proof.
  unfold load_configuration.
  repeat first
    [ apply uniform_create_cfg
    | apply uniform_merge_defaults_pass
    | apply uniform_ret
    | apply uniform_lift
    | apply uniform_read; reflexivity
    | apply uniform_bind; [|intros ?]
    | match goal with
      | |- uniform (match ?x with _ => _ end) => destruct x
      end ].
Qed.

(** *** Claim C8 *)

(** C8, as amended.  The load trace belongs to the composer and is never
    reset: the trace that can be queried after a call of
    [load_configuration] is the trace as it stood before the call,
    followed by exactly the probe records that the call produces, which
    are those it would leave on a composer with an empty trace; the
    result of the call does not depend on the earlier records. *)
Theorem load_trace_accumulates config_file overrides strict self :
  let run := load_configuration config_file overrides strict in
  (run self).1 = (run (fresh self)).1 /\
  get_load_history (run self).2
  = get_load_history self ++ get_load_history (run (fresh self)).2.
Proof.
  intros run.
  assert (Hself : self = prepend (all_config_checked self) (fresh self)).
  { destruct self. unfold prepend, fresh. cbn. by rewrite app_nil_r. }
  rewrite Hself at 1 3.
  unfold run. rewrite uniform_load_configuration. cbn [fst snd]. done.
Qed.

End LoadTraceProperties.

(** C8, counterexample.  After two calls on the same composer the load
    history holds the records of the first call before those of the
    second, so it is not made of the records of the second call only. *)
Lemma load_history_keeps_earlier_calls :
  let first_call :=
    load_configuration (Some "config.yaml") [] None ex_loader in
  let second_call :=
    load_configuration (Some "config.yaml") ["model=b"] None first_call.2 in
  let alone :=
    load_configuration (Some "config.yaml") ["model=b"] None ex_loader in
  get_load_history alone.2
  = [trace_hit "hydra.yaml" ex_conf; trace_hit "config.yaml" ex_conf;
     trace_hit "model/b.yaml" ex_conf] /\
  get_load_history second_call.2
  = [trace_hit "hydra.yaml" ex_conf; trace_hit "config.yaml" ex_conf;
     trace_hit "model/a.yaml" ex_conf;
     trace_hit "hydra.yaml" ex_conf; trace_hit "config.yaml" ex_conf;
     trace_hit "model/b.yaml" ex_conf] /\
  get_load_history second_call.2 ≠ get_load_history alone.2.
Proof.
  assert (H1 : get_load_history
            (load_configuration (Some "config.yaml") ["model=b"] None
               ex_loader).2
          = [trace_hit "hydra.yaml" ex_conf; trace_hit "config.yaml" ex_conf;
             trace_hit "model/b.yaml" ex_conf])
    by (vm_compute; reflexivity).
  assert (H2 : get_load_history
            (load_configuration (Some "config.yaml") ["model=b"] None
               (load_configuration (Some "config.yaml") [] None ex_loader).2).2
          = [trace_hit "hydra.yaml" ex_conf; trace_hit "config.yaml" ex_conf;
             trace_hit "model/a.yaml" ex_conf;
             trace_hit "hydra.yaml" ex_conf; trace_hit "config.yaml" ex_conf;
             trace_hit "model/b.yaml" ex_conf])
    by (vm_compute; reflexivity).
  cbv zeta. rewrite H1, H2. repeat split. discriminate.
Qed.

(** ** The scenarios of the specification, on the concrete environment *)

(** What a composition returns, with the load trace it leaves. *)
Example scenario_plain_load :
  exists cfg self',
    load_configuration (Some "config.yaml") [] None ex_loader = (Ok cfg, self')
    /\ node_at (Map (content cfg)) ["foo"] = Some (Leaf (VInt 1))
    /\ node_at (Map (content cfg)) ["model"; "lr"] = Some (Leaf (VStr "0.1"))
    /\ node_at (Map (content cfg)) ["defaults"] = None.
Proof. eexists _, _. repeat split; vm_compute; reflexivity. Qed.

Example scenario_group_override :
  exists cfg self',
    load_configuration (Some "config.yaml") ["model=b"] None ex_loader
    = (Ok cfg, self')
    /\ node_at (Map (content cfg)) ["model"; "lr"] = Some (Leaf (VStr "0.2"))
    /\ get_load_history self'
       = [trace_hit "hydra.yaml" ex_conf; trace_hit "config.yaml" ex_conf;
          trace_hit "model/b.yaml" ex_conf].
Proof. eexists _, _. repeat split; vm_compute; reflexivity. Qed.

Example scenario_null_override :
  exists cfg self',
    load_configuration (Some "config.yaml") ["model=null"] None ex_loader
    = (Ok cfg, self')
    /\ node_at (Map (content cfg)) ["model"] = None
    /\ node_at (Map (content cfg)) ["foo"] = Some (Leaf (VInt 1)).
Proof. eexists _, _. repeat split; vm_compute; reflexivity. Qed.

Example scenario_sweep_override :
  exists cfg self',
    load_configuration (Some "config.yaml") ["model=a,b"] None ex_loader
    = (Ok cfg, self')
    /\ node_at (Map (content cfg)) ["model"] = None
    /\ node_at (Map (content cfg)) ["hydra"; "overrides"; "task"]
       = Some (Seq [Leaf (VStr "model=a,b")])
    /\ get_load_history self'
       = [trace_hit "hydra.yaml" ex_conf; trace_hit "config.yaml" ex_conf].
Proof. eexists _, _. repeat split; vm_compute; reflexivity. Qed.

Example scenario_optional_default :
  exists cfg self',
    load_configuration (Some "optional.yaml") [] None ex_loader
    = (Ok cfg, self')
    /\ node_at (Map (content cfg)) ["dataset"] = None
    /\ node_at (Map (content cfg)) ["bar"] = Some (Leaf (VInt 2))
    /\ get_load_history self'
       = [trace_hit "hydra.yaml" ex_conf; trace_hit "optional.yaml" ex_conf;
          trace_miss "dataset/imagenet.yaml"].
Proof. eexists _, _. repeat split; vm_compute; reflexivity. Qed.

Example scenario_unknown_key :
  (load_configuration (Some "config.yaml") ["does.not.exist=1"] (Some true)
     ex_loader).1
  = Raise KeyError
  /\ exists cfg self',
       load_configuration (Some "config.yaml") ["does.not.exist=1"]
         (Some false) ex_loader
       = (Ok cfg, self')
       /\ node_at (Map (content cfg)) ["does"; "not"; "exist"]
          = Some (Leaf (VStr "1")).
Proof.
  split; [vm_compute; reflexivity|].
  eexists _, _. repeat split; vm_compute; reflexivity.
Qed.

(** ** Paths and file names *)

Lemma str_app_cons c a b : String c a +:+ b = String c (a +:+ b).
Proof. reflexivity. Qed.

Lemma str_app_nil_r a : a +:+ "" = a.
Proof. induction a as [|c a IH]; [done|]. by rewrite str_app_cons, IH. Qed.

Lemma str_app_assoc a b c : (a +:+ b) +:+ c = a +:+ (b +:+ c).
Proof.
  induction a as [|x a IH]; [done|]. by rewrite !str_app_cons, IH.
Qed.

Lemma str_length_app a b :
  String.length (a +:+ b) = String.length a + String.length b.
Proof.
  induction a as [|x a IH]; [done|]. rewrite str_app_cons. cbn. by rewrite IH.
Qed.

Lemma str_prefix_app p s : String.prefix p (p +:+ s) = true.
Proof.
  induction p as [|c p IH]; [by destruct s|].
  rewrite str_app_cons. cbn. by destruct (Ascii.ascii_dec c c).
Qed.

Lemma str_prefix_drop p s :
  String.prefix p s = true -> p +:+ str_drop (String.length p) s = s.
Proof.
  revert s. induction p as [|c p IH]; intros s; [by destruct s|].
  destruct s as [|c' s]; [done|]. cbn.
  destruct (Ascii.ascii_dec c c') as [->|]; [|done].
  intros Hp. by rewrite str_app_cons, IH.
Qed.

Lemma str_drop_app p s : str_drop (String.length p) (p +:+ s) = s.
Proof. induction p as [|c p IH]; [by destruct s|]. done. Qed.

Lemma str_take_app p s : str_take (String.length p) (p +:+ s) = p.
Proof.
  induction p as [|c p IH]; [by destruct s|].
  rewrite str_app_cons. cbn. by rewrite IH.
Qed.

Lemma str_take_drop k s : str_take k s +:+ str_drop k s = s.
Proof.
  revert s. induction k as [|k IH]; intros [|c s]; try done.
  cbn. by rewrite str_app_cons, IH.
Qed.

Lemma str_rev_app_spec a b : String.rev_app a b = String.rev a +:+ b.
Proof.
  revert b. unfold String.rev.
  induction a as [|c a IH]; intros b; [done|]. cbn.
  rewrite IH, (IH (String c "")). by rewrite str_app_assoc.
Qed.

Lemma str_rev_cons c a : String.rev (String c a) = String.rev a +:+ String c "".
Proof. unfold String.rev at 1. cbn. by rewrite str_rev_app_spec. Qed.

Lemma str_rev_app a b : String.rev (a +:+ b) = String.rev b +:+ String.rev a.
Proof.
  induction a as [|c a IH]; [by rewrite str_app_nil_r|].
  by rewrite str_app_cons, !str_rev_cons, IH, str_app_assoc.
Qed.

Lemma str_rev_involutive a : String.rev (String.rev a) = a.
Proof.
  induction a as [|c a IH]; [done|]. by rewrite str_rev_cons, str_rev_app, IH.
Qed.

Lemma endswith_app p a : endswith p (a +:+ p) = true.
Proof. unfold endswith. rewrite str_rev_app. apply str_prefix_app. Qed.

Lemma endswith_inv p s : endswith p s = true -> exists a, s = a +:+ p.
Proof.
  unfold endswith. intros Hp%str_prefix_drop.
  exists (String.rev (str_drop (String.length (String.rev p)) (String.rev s))).
  rewrite <- (str_rev_involutive p) at 2. rewrite <- str_rev_app, Hp.
  by rewrite str_rev_involutive.
Qed.

(** [file[0:-len(".yaml")]] undoes the appending of the extension. *)
Lemma strip_yaml_app a : strip_yaml (a +:+ ".yaml") = a.
Proof.
  unfold strip_yaml. rewrite str_length_app.
  replace (String.length a + String.length ".yaml" - String.length ".yaml")
    with (String.length a) by lia.
  apply str_take_app.
Qed.

Lemma str_find_None c s :
  str_find c s = None <-> str_contains (String c "") s = false.
Proof.
  induction s as [|c' s IH]; [done|]. cbn.
  destruct (Ascii.ascii_dec c c') as [->|Hne].
  - rewrite Ascii.eqb_refl. by destruct s.
  - apply Ascii.eqb_neq in Hne. rewrite Hne. cbn.
    destruct (str_find c s); cbn; [|tauto].
    split; [done|]. intros H. by apply IH in H.
Qed.

Lemma str_find_Some c s i :
  str_find c s = Some i ->
  s = str_take i s +:+ String c (str_drop (S i) s) /\
  str_contains (String c "") (str_take i s) = false.
Proof.
  revert i. induction s as [|c' s IH]; intros i; [done|]. cbn.
  destruct (Ascii.eqb c c') eqn:Hc.
  - apply Ascii.eqb_eq in Hc as ->. by intros [= <-].
  - destruct (str_find c s) as [j|]; [|done]. intros [= <-].
    destruct (IH j eq_refl) as [Hs Hno]. split.
    + cbn [str_take str_drop]. rewrite str_app_cons. f_equal. exact Hs.
    + cbn [str_take str_contains String.prefix]. rewrite Hno.
      destruct (Ascii.ascii_dec c c') as [->|]; [|done].
      by rewrite Ascii.eqb_refl in Hc.
Qed.

(** X1.  [_split_path] is undone by putting the prefix back: the flag it
    returns tells whether the path starts with [pkg://], the rest is the
    path without one such prefix, and a path made of the prefix and any
    rest splits into the flag and that rest. *)
Theorem split_path_round_trip p rest :
  (_split_path p).1 = startswith "pkg://" p /\
  (if (_split_path p).1 then "pkg://" +:+ (_split_path p).2
   else (_split_path p).2) = p /\
  _split_path ("pkg://" +:+ rest) = (true, rest).
Proof.
  split; [reflexivity|]. split.
  2:{ unfold _split_path, startswith. by rewrite str_prefix_app, str_drop_app. }
  unfold _split_path, startswith. cbn [fst snd].
  destruct (String.prefix "pkg://" p) eqn:Hp; [|done].
  by apply str_prefix_drop in Hp.
Qed.

(** X2.  [_split_module_and_resource] cuts a name at its first slash: a
    name without a slash is a module with an empty resource; a name with
    a slash that is not its first character is the module, which is not
    empty and holds no slash, a slash, and the resource; a name that
    starts with a slash gives what follows that slash as the module,
    slashes included, and an empty resource. *)
Theorem split_module_and_resource_cases filename module_name resource_name :
  _split_module_and_resource filename = (module_name, resource_name) ->
  if startswith "/" filename
  then module_name = str_drop 1 filename /\ resource_name = ""
  else if str_contains "/" filename
  then filename = module_name +:+ "/" +:+ resource_name /\
       module_name ≠ "" /\ str_contains "/" module_name = false
  else module_name = filename /\ resource_name = "".
Proof.
  unfold _split_module_and_resource.
  destruct (str_find "/" filename) as [sep|] eqn:Hfind.
  - pose proof (str_find_Some _ _ _ Hfind) as [Hs Hno].
    assert (Hc : str_contains "/" filename = true).
    { destruct (str_contains "/" filename) eqn:Hc; [done|].
      apply str_find_None in Hc. congruence. }
    rewrite Hc. case_decide as Hm.
    + intros [= <- <-]. clear Hs Hno Hc.
      destruct filename as [|c f]; [done|]. cbn [str_find] in Hfind.
      destruct (Ascii.eqb "/" c) eqn:Hsl.
      * apply Ascii.eqb_eq in Hsl as <-. injection Hfind as <-.
        unfold startswith. cbn. by destruct f.
      * destruct (str_find "/" f); [|done]. injection Hfind as <-.
        cbn in Hm. done.
    + intros [= <- <-].
      assert (startswith "/" filename = false) as ->.
      { destruct filename as [|c f]; [done|]. cbn [str_find] in Hfind.
        unfold startswith. cbn [String.prefix].
        destruct (Ascii.ascii_dec "/" c) as [<-|]; [|done].
        rewrite Ascii.eqb_refl in Hfind. by injection Hfind as <-. }
      repeat split; [exact Hs|done..].
  - apply str_find_None in Hfind as Hc. rewrite Hc.
    assert (startswith "/" filename = false) as ->.
    { destruct filename as [|c f]; [reflexivity|]. unfold startswith.
      cbn [String.prefix str_contains] in *.
      destruct (Ascii.ascii_dec "/" c); [|done]. by destruct f. }
    case_decide as Hm; intros [= <- <-]; [|done]. by rewrite Hm.
Qed.

Lemma splitext_ext_suffix p :
  splitext_ext p = "" \/ exists stem, p = stem +:+ splitext_ext p.
Proof.
  unfold splitext_ext. destruct (str_rfind "." p) as [dot_index|]; [|by left].
  match goal with |- context [if ?b then _ else _] => destruct b end;
    [|by left].
  right. exists (str_take dot_index p). by rewrite str_take_drop.
Qed.

Lemma str_rfind_None c s :
  str_contains (String c "") s = false -> str_rfind c s = None.
Proof.
  induction s as [|c' s IH]; [done|]. cbn [str_contains String.prefix].
  intros [Hp Hs]%orb_false_elim. cbn [str_rfind]. rewrite IH by done.
  destruct (Ascii.ascii_dec c c') as [->|Hne].
  - by destruct s.
  - apply Ascii.eqb_neq in Hne. by rewrite Hne.
Qed.

(** X3.  The file name that the merge pass asks for is the choice
    itself or the choice followed by [.yaml], and it always ends in
    [.yaml] or [.yml]; a choice without any dot gets [.yaml] appended. *)
Theorem get_filename_extension config_name :
  (get_filename config_name = config_name \/
   get_filename config_name = config_name +:+ ".yaml") /\
  (exists stem, get_filename config_name = stem +:+ ".yaml" \/
                get_filename config_name = stem +:+ ".yml") /\
  (str_contains "." config_name = false ->
   get_filename config_name = config_name +:+ ".yaml").
Proof.
  unfold get_filename. split; [|split].
  - destruct (_ && _); auto.
  - destruct (bool_decide (splitext_ext config_name ≠ ".yaml")) eqn:Hyaml;
      [destruct (bool_decide (splitext_ext config_name ≠ ".yml")) eqn:Hyml|];
      cbn [andb].
    + eauto.
    + apply bool_decide_eq_false in Hyml. apply dec_stable in Hyml.
      destruct (splitext_ext_suffix config_name) as [He|[stem Hs]];
        [congruence|]. rewrite Hyml in Hs. eauto.
    + apply bool_decide_eq_false in Hyaml. apply dec_stable in Hyaml.
      destruct (splitext_ext_suffix config_name) as [He|[stem Hs]];
        [congruence|]. rewrite Hyaml in Hs. eauto.
  - intros Hdot. unfold splitext_ext. by rewrite str_rfind_None.
Qed.

Lemma get_filename_extension_witness :
  get_filename "alexnet" = "alexnet.yaml".
Proof.
  apply (get_filename_extension "alexnet"). reflexivity.
Defined.

Lemma split_module_and_resource_cases_witness :
  "pkg_conf/model/a.yaml" = "pkg_conf" +:+ "/" +:+ "model/a.yaml" /\
  "pkg_conf" ≠ "" /\ str_contains "/" "pkg_conf" = false.
Proof.
  apply (split_module_and_resource_cases
           "pkg_conf/model/a.yaml" "pkg_conf" "model/a.yaml").
  reflexivity.
Defined.

(** ** Resolution on the search path *)

Section Resolution.
Context {env : Environment}.

(** What [_find_config] returns, read off the probes of the entries. *)
Lemma find_config_in_None search_paths filepath :
  find_config_in search_paths filepath = Ok None <->
  Forall (fun x => exists_under x filepath = Ok false) search_paths.
Proof.
  induction search_paths as [|x l IH]; [done|].
  rewrite find_config_in_cons, Forall_cons, <- IH.
  destruct (exists_under x filepath) as [[]|]; cbn; intuition congruence.
Qed.

Lemma find_config_in_Some search_paths filepath e :
  find_config_in search_paths filepath = Ok (Some e) ->
  exists pre post,
    search_paths = pre ++ e :: post /\
    Forall (fun x => exists_under x filepath = Ok false) pre /\
    exists_under e filepath = Ok true.
Proof.
  induction search_paths as [|x l IH]; [done|].
  rewrite find_config_in_cons.
  destruct (exists_under x filepath) as [[]|] eqn:Hx; cbn; [| |done].
  - intros [= <-]. by exists [], l.
  - intros (pre & post & -> & Hpre & He)%IH.
    exists (x :: pre), post. by repeat constructor.
Qed.

Lemma find_config_in_Raise pre e post filepath err :
  Forall (fun x => exists_under x filepath = Ok false) pre ->
  exists_under e filepath = Raise err ->
  find_config_in (pre ++ e :: post) filepath = Raise err.
Proof.
  intros Hpre He. induction Hpre as [|x pre Hx _ IH]; cbn [app];
    rewrite find_config_in_cons.
  - by rewrite He.
  - by rewrite Hx.
Qed.

(** X4.  [exists_in_search_path] answers [False] exactly when the probe
    of every entry of the search path answers [False]. *)
Theorem exists_in_search_path_false self filepath :
  exists_in_search_path self filepath = Ok false <->
  Forall (fun x => exists_under x filepath = Ok false)
    (config_search_path self).
Proof.
  rewrite <- find_config_in_None. unfold exists_in_search_path, _find_config.
  destruct (find_config_in _ _) as [[e|]|]; cbn; [| |done].
  - split; intros [=].
  - done.
Qed.

(** X5.  [_find_config] returns an entry exactly when the search path
    splits around it into entries whose probes answer [False] and, after
    it, any entries at all, the probe of the entry itself answering
    [True]. *)
Theorem find_config_returns_first_hit self filepath e :
  _find_config self filepath = Ok (Some e) <->
  exists pre post,
    config_search_path self = pre ++ e :: post /\
    Forall (fun x => exists_under x filepath = Ok false) pre /\
    exists_under e filepath = Ok true.
Proof.
  unfold _find_config. split; [apply find_config_in_Some|].
  intros (pre & post & -> & Hpre & He). by apply find_config_in_first_hit.
Qed.

(** X6.  A probe that raises ends the search: when the entries before it
    answer [False], the exception leaves [_find_config],
    [exists_in_search_path] and [_load_config_impl] whatever the later
    entries hold, and nothing is recorded in the load trace. *)
Theorem probe_error_ends_search
    self pre e post filepath err record_load :
  config_search_path self = pre ++ e :: post ->
  Forall (fun x => exists_under x filepath = Ok false) pre ->
  exists_under e filepath = Raise err ->
  _find_config self filepath = Raise err /\
  exists_in_search_path self filepath = Raise err /\
  _load_config_impl filepath record_load self = (Raise err, self).
Proof.
  intros Hsp Hpre He.
  assert (Hfind : _find_config self filepath = Raise err).
  { unfold _find_config. rewrite Hsp. by apply find_config_in_Raise. }
  split; [done|]. split.
  - unfold exists_in_search_path. by rewrite Hfind.
  - unfold _load_config_impl. by rewrite run_bind, run_read, Hfind.
Qed.

Lemma run_record_if (record_load : bool) t self :
  (if record_load then record_trace t else mret ()) self
  = (Ok (), if record_load then traced self t else self).
Proof. by destruct record_load. Qed.

(** What [_load_config_impl] does once [_find_config] has returned an
    entry. *)
Lemma load_config_impl_found self input_file record_load e :
  _find_config self input_file = Ok (Some e) ->
  _load_config_impl input_file record_load self
  = match read_under e input_file with
    | Ok loaded_cfg =>
        (top_level_dict loaded_cfg,
         if record_load then traced self (trace_hit input_file e) else self)
    | Raise err => (Raise err, self)
    end.
Proof.
  intros Hfind.
  assert (He : exists_under e input_file = Ok true).
  { by apply find_config_in_Some in Hfind as (? & ? & _ & _ & ?). }
  unfold _load_config_impl. rewrite run_bind, run_read, Hfind.
  unfold read_under. unfold exists_under, _split_path in He.
  fold (startswith "pkg://" (path e)) in *.
  destruct (startswith "pkg://" (path e)) eqn:Hpkg.
  - destruct (_split_module_and_resource _) as [module_name resource_name].
    rewrite run_bind, run_lift.
    destruct (_ ≫= _) as [loaded_cfg|err]; [|done].
    by rewrite run_bind, run_record_if, run_lift.
  - cbn [_exists] in He. injection He as ->.
    rewrite run_bind, run_lift.
    destruct (OmegaConf_load _) as [loaded_cfg|err]; [|done].
    by rewrite run_bind, run_record_if, run_lift.
Qed.

Lemma load_config_impl_not_found self input_file record_load :
  _find_config self input_file = Ok None ->
  _load_config_impl input_file record_load self
  = (Ok None,
     if record_load then traced self (trace_miss input_file) else self).
Proof.
  intros Hfind. unfold _load_config_impl.
  rewrite run_bind, run_read, Hfind, run_bind, run_record_if. done.
Qed.

(** X7.  Once [_find_config] has returned an entry, the outcome of
    [_load_config_impl] is that of reading the document at that entry:
    a map is returned and the hit recorded, a document that is not a map
    raises [AssertionError] after the hit was recorded, and an exception
    of the reading is passed on with nothing recorded.  The branch for a
    file that was found but does not exist is never taken. *)
Theorem load_config_impl_reads_found_entry
    self input_file (record_load : bool) e :
  _find_config self input_file = Ok (Some e) ->
  let recorded :=
    if record_load then traced self (trace_hit input_file e) else self in
  _load_config_impl input_file record_load self
  = match read_under e input_file with
    | Ok (Map doc) => (Ok (Some doc), recorded)
    | Ok _ => (Raise AssertionError, recorded)
    | Raise err => (Raise err, self)
    end.
Proof.
  intros Hfind. cbn zeta. rewrite (load_config_impl_found _ _ _ e) by done.
  by destruct (read_under e input_file) as [[]|].
Qed.

(** X8.  [_load_config_impl] with [record_load=False] leaves the load
    trace alone; with [record_load=True] it leaves the trace alone or
    appends one record, which names the requested file and is either a
    miss or a hit under an entry of the search path. *)
Theorem load_config_impl_records_at_most_once self input_file record_load :
  (_load_config_impl input_file false self).2 = self /\
  let self' := (_load_config_impl input_file record_load self).2 in
  self' = self \/
  self' = traced self (trace_miss input_file) \/
  exists e, e ∈ config_search_path self /\
            self' = traced self (trace_hit input_file e).
Proof.
  assert (Hcases : forall record_load,
    let self' := (_load_config_impl input_file record_load self).2 in
    self' = (if record_load then self' else self) /\
    (self' = self \/
     self' = traced self (trace_miss input_file) \/
     exists e, e ∈ config_search_path self /\
               self' = traced self (trace_hit input_file e))).
  { intros rl. cbn zeta.
    destruct (_find_config self input_file) as [[e|]|err] eqn:Hfind.
    - rewrite (load_config_impl_found _ _ _ e) by done.
      apply find_config_in_Some in Hfind as (pre & post & Hsp & _ & _).
      assert (e ∈ config_search_path self).
      { unfold _find_config in *. rewrite Hsp. set_solver. }
      destruct (read_under e input_file), rl; cbn; eauto 6.
    - rewrite load_config_impl_not_found by done. destruct rl; cbn; eauto.
    - unfold _load_config_impl. rewrite run_bind, run_read, Hfind.
      destruct rl; cbn; eauto. }
  split; [apply (Hcases false)|apply (Hcases record_load)].
Qed.

End Resolution.

Lemma probe_error_ends_search_witness :
  let self := ConfigLoader_init [ex_plugin; ex_noinit_pkg; ex_conf] None in
  _find_config self "config.yaml" = Raise TypeError /\
  exists_in_search_path self "config.yaml" = Raise TypeError /\
  _load_config_impl "config.yaml" true self = (Raise TypeError, self).
Proof.
  apply (probe_error_ends_search
           (ConfigLoader_init [ex_plugin; ex_noinit_pkg; ex_conf] None)
           [ex_plugin] ex_noinit_pkg [ex_conf]).
  - reflexivity.
  - repeat constructor.
  - reflexivity.
Defined.

Lemma load_config_impl_reads_found_entry_witness :
  _load_config_impl "model/c.yaml" false ex_loader
  = (Ok (Some [("model", Map [("lr", Leaf (VStr "0.3"))])]), ex_loader).
Proof.
  etrans.
  - apply (load_config_impl_reads_found_entry ex_loader "model/c.yaml" false
             ex_plugin).
    reflexivity.
  - reflexivity.
Defined.

(** ** Group options *)

Section GroupOptions.
Context {env : Environment}.

Lemma strip_yaml_endswith file :
  endswith ".yaml" file = true -> file = strip_yaml file +:+ ".yaml".
Proof. intros [a ->]%endswith_inv. by rewrite strip_yaml_app. Qed.

Lemma pkg_options_elem module_name group_name file_type all_files files o :
  pkg_options module_name group_name file_type all_files = Ok files ->
  o ∈ files ->
  exists file, file ∈ all_files /\ option_of file_type file o.
Proof.
  revert files. induction all_files as [|file rest IH]; intros files;
    cbn [pkg_options].
  - intros [= <-]. by intros ?%elem_of_nil.
  - intros (is_dir & _ & (files' & Hrest & Hfiles)%bind_Ok)%bind_Ok Ho.
    assert (Hin : o ∈ files' -> exists file0,
              file0 ∈ file :: rest /\ option_of file_type file0 o).
    { intros (file0 & ? & ?)%(IH _ Hrest). exists file0. split; [|done].
      by apply list_elem_of_further. }
    destruct (bool_decide (file_type = "dir") && is_dir
              && bool_decide (file ≠ "__pycache__")) eqn:Hdir.
    { injection Hfiles as <-. apply elem_of_cons in Ho as [->|Ho]; [|auto].
      bool_hyps. exists file. split; [apply list_elem_of_here|]. by left. }
    destruct (bool_decide (file_type = "file") && endswith ".yaml" file)
      eqn:Hfile.
    { injection Hfiles as <-. apply elem_of_cons in Ho as [->|Ho]; [|auto].
      bool_hyps. exists file. split; [apply list_elem_of_here|]. right.
      split; [done|]. by apply strip_yaml_endswith. }
    injection Hfiles as <-. auto.
Qed.

Lemma dir_options_elem group_path group_name file_type all_files o :
  o ∈ dir_options group_path group_name file_type all_files ->
  exists file, file ∈ all_files /\ option_of file_type file o.
Proof.
  unfold dir_options. intros (file & Hfile & Ho)%list_elem_of_omap.
  exists file. split; [done|].
  destruct (bool_decide (file_type = "dir") && _ && _) eqn:Hdir.
  { injection Ho as <-. bool_hyps. by left. }
  destruct (bool_decide (file_type = "file") && endswith ".yaml" file)
    eqn:Hyaml; [|done].
  injection Ho as <-. bool_hyps. right. split; [done|].
  by apply strip_yaml_endswith.
Qed.

Lemma group_options_in_elem search_paths group_name file_type options o :
  group_options_in search_paths group_name file_type = Ok options ->
  o ∈ options ->
  exists search_path file,
    search_path ∈ search_paths /\
    file ∈ group_listing search_path group_name /\
    option_of file_type file o.
Proof.
  revert options. induction search_paths as [|sp rest IH]; intros options;
    cbn [group_options_in].
  - intros [= <-]. by intros ?%elem_of_nil.
  - destruct (_split_path (path sp)) as [is_pkg path0] eqn:Hsplit.
    intros (files & Hfiles & (options' & Hrest & [= <-])%bind_Ok)%bind_Ok.
    intros [Ho|Ho]%elem_of_app.
    + exists sp. unfold group_listing. rewrite Hsplit. destruct is_pkg.
      * destruct (_split_module_and_resource _) as [module_name resource_name].
        apply bind_Ok in Hfiles as (found & _ & Hfiles).
        apply bind_Ok in Hfiles as (is_dir & _ & Hfiles).
        destruct is_dir; [|injection Hfiles as <-; by apply elem_of_nil in Ho].
        apply bind_Ok in Hfiles as (all_files & -> & Hfiles).
        destruct (pkg_options_elem _ _ _ _ _ _ Hfiles Ho) as (file & ? & ?).
        exists file. split; [apply list_elem_of_here|done].
      * destruct (os_path_isdir _);
          [|injection Hfiles as <-; by apply elem_of_nil in Ho].
        injection Hfiles as <-.
        destruct (dir_options_elem _ _ _ _ _ Ho) as (file & ? & ?).
        exists file. split; [apply list_elem_of_here|done].
    + destruct (IH _ Hrest Ho) as (sp' & file & ? & ? & ?).
      exists sp', file. split; [by apply list_elem_of_further|done].
Qed.

Lemma group_options_in_app l1 l2 group_name file_type :
  group_options_in (l1 ++ l2) group_name file_type
  = options1 ← group_options_in l1 group_name file_type;
    options2 ← group_options_in l2 group_name file_type;
    Ok (options1 ++ options2).
Proof.
  induction l1 as [|sp l1 IH]; cbn [app group_options_in].
  - cbn. by destruct (group_options_in l2 group_name file_type).
  - destruct (_split_path (path sp)) as [is_pkg path0].
    match goal with |- mbind _ ?m = _ => destruct m as [files|]; [|done] end.
    cbn. rewrite IH.
    destruct (group_options_in l1 group_name file_type) as [o1|]; [|done].
    cbn. destruct (group_options_in l2 group_name file_type) as [o2|]; [|done].
    cbn. by rewrite app_assoc.
Qed.

(** X9.  The options of a group over a search path made of two parts are
    the options over the first part followed by the options over the
    second; an exception of the first part comes before one of the
    second. *)
Theorem get_group_options_follows_search_path
    l1 l2 default_strict trace group_name file_type :
  let loader_on l :=
    {| config_search_path := l; default_strict := default_strict;
       all_config_checked := trace |} in
  get_group_options (loader_on (l1 ++ l2)) group_name file_type
  = options1 ← get_group_options (loader_on l1) group_name file_type;
    options2 ← get_group_options (loader_on l2) group_name file_type;
    Ok (options1 ++ options2).
Proof. apply group_options_in_app. Qed.

(** X10.  Every option of kind [file] is the name, without its
    extension, of a file listed under the group at some entry of the
    search path whose name ends in [.yaml]; and at an entry that is a
    directory on the file system holding the group, every such file gives
    an option. *)
Theorem file_options_are_yaml_files self group_name options :
  get_group_options self group_name "file" = Ok options ->
  (forall o, o ∈ options ->
     exists search_path,
       search_path ∈ config_search_path self /\
       o +:+ ".yaml" ∈ group_listing search_path group_name) /\
  (forall search_path file,
     search_path ∈ config_search_path self ->
     startswith "pkg://" (path search_path) = false ->
     os_path_isdir (path search_path +:+ "/" +:+ group_name) = true ->
     file ∈ os_listdir (path search_path +:+ "/" +:+ group_name) ->
     endswith ".yaml" file = true ->
     strip_yaml file ∈ options).
Proof.
  unfold get_group_options. intros Hopt. split.
  - intros o Ho.
    destruct (group_options_in_elem _ _ _ _ _ Hopt Ho)
      as (sp & file & Hsp & Hfile & [(? & _)|(_ & ->)]); [done|eauto].
  - intros sp file Hsp Hpkg Hdir Hfile Hyaml.
    apply list_elem_of_split in Hsp as (l1 & l2 & Hl). rewrite Hl in Hopt.
    rewrite group_options_in_app in Hopt.
    apply bind_Ok in Hopt as (o1 & _ & (o2 & Hsp & [= <-])%bind_Ok).
    cbn [group_options_in] in Hsp. unfold _split_path in Hsp.
    rewrite Hpkg, Hdir in Hsp. cbn [mbind result_bind] in Hsp.
    apply bind_Ok in Hsp as (o3 & _ & [= <-]).
    apply elem_of_app. right. apply elem_of_app. left.
    unfold dir_options. apply list_elem_of_omap. exists file.
    split; [done|]. rewrite Hyaml. reflexivity.
Qed.

(** X11.  Every option of kind [dir] is a name listed under the group at
    some entry of the search path, and [__pycache__] is never one. *)
Theorem dir_options_exclude_pycache self group_name options :
  get_group_options self group_name "dir" = Ok options ->
  ("__pycache__" ∉ options) /\
  forall o, o ∈ options ->
    exists search_path,
      search_path ∈ config_search_path self /\
      o ∈ group_listing search_path group_name.
Proof.
  unfold get_group_options. intros Hopt. split.
  - intros Ho.
    destruct (group_options_in_elem _ _ _ _ _ Hopt Ho)
      as (sp & file & _ & _ & [(_ & <- & ?)|(? & _)]); done.
  - intros o Ho.
    destruct (group_options_in_elem _ _ _ _ _ Hopt Ho)
      as (sp & file & Hsp & Hfile & [(_ & -> & _)|(? & _)]); [eauto|done].
Qed.

(** X12.  [list_groups] returns the options of kind [dir] without
    repetition: the same names, each once. *)
Theorem list_groups_each_once self parent_name groups :
  list_groups self parent_name = Ok groups ->
  NoDup groups /\
  exists options,
    get_group_options self parent_name "dir" = Ok options /\
    forall o, o ∈ groups <-> o ∈ options.
Proof.
  unfold list_groups. intros (options & Hopt & [= <-])%bind_Ok.
  split; [apply NoDup_elements|]. exists options. split; [done|].
  intros o. by rewrite elem_of_elements, elem_of_list_to_set.
Qed.

End GroupOptions.

Lemma file_options_are_yaml_files_witness :
  (forall o, o ∈ ["a"; "b"; "a"; "c"] ->
     exists search_path,
       search_path ∈ [ex_conf; ex_plugin] /\
       o +:+ ".yaml" ∈ group_listing search_path "model") /\
  (forall search_path file,
     search_path ∈ [ex_conf; ex_plugin] ->
     startswith "pkg://" (path search_path) = false ->
     os_path_isdir (path search_path +:+ "/" +:+ "model") = true ->
     file ∈ os_listdir (path search_path +:+ "/" +:+ "model") ->
     endswith ".yaml" file = true ->
     strip_yaml file ∈ ["a"; "b"; "a"; "c"]).
Proof.
  apply (file_options_are_yaml_files ex_loader "model"). reflexivity.
Defined.

Lemma dir_options_exclude_pycache_witness :
  ("__pycache__" ∉ ["model"; "optimizer"; "model"]) /\
  forall o, o ∈ ["model"; "optimizer"; "model"] ->
    exists search_path,
      search_path ∈ [ex_conf; ex_plugin] /\
      o ∈ @group_listing ex_tree_env search_path "".
Proof.
  apply (@dir_options_exclude_pycache ex_tree_env ex_loader "").
  reflexivity.
Defined.

Lemma list_groups_each_once_witness :
  NoDup ["optimizer"; "model"] /\
  exists options,
    @get_group_options ex_tree_env ex_loader "" "dir" = Ok options /\
    forall o, o ∈ ["optimizer"; "model"] <-> o ∈ options.
Proof.
  apply (@list_groups_each_once ex_tree_env ex_loader "").
  vm_compute. reflexivity.
Defined.

(** ** Defaults: validation, extraction and the merge pass *)

Lemma str_contains_app_l sub b : str_contains sub (sub +:+ b) = true.
Proof.
  destruct sub as [|c sub]; [by destruct b|].
  rewrite str_app_cons. cbn [str_contains].
  rewrite <- str_app_cons, str_prefix_app. done.
Qed.

Lemma str_contains_middle sub a b : str_contains sub (a +:+ sub +:+ b) = true.
Proof. apply str_contains_app_r, str_contains_app_l. Qed.

Lemma str_contains_join sep l o :
  o ∈ l -> str_contains o (str_join sep l) = true.
Proof.
  induction l as [|x l IH]; [by intros ?%elem_of_nil|].
  intros [->|Ho]%elem_of_cons; cbn [str_join]; destruct l as [|y l].
  - pose proof (str_contains_app_l x "") as Hx.
    by rewrite str_app_nil_r in Hx.
  - apply str_contains_app_l.
  - by apply elem_of_nil in Ho.
  - rewrite <- str_app_assoc. apply str_contains_app_r. by apply IH.
Qed.

(** The shapes of a group binding, with the flag as a truth value. *)
Lemma group_binding_shapes n :
  group_binding n = true ->
  (exists g c, n = Map [(g, Leaf c)] /\ g ≠ "optional") \/
  (exists g c b,
     n = Map [("optional", Leaf (VBool b)); (g, Leaf c)] /\
     g ≠ "optional") \/
  (exists g c b,
     n = Map [(g, Leaf c); ("optional", Leaf (VBool b))] /\
     g ≠ "optional").
Proof.
  destruct n as [v|items|d]; try discriminate.
  destruct d as [|[k1 v1] [|[k2 v2] [|? ?]]]; try discriminate;
    cbn [group_binding]; intros H; bool_hyps.
  - destruct v1 as [c| |]; try discriminate. left. eauto.
  - destruct v2 as [c| |]; try discriminate.
    destruct v1 as [[|b| |]| |]; try discriminate. subst. right; left.
    eauto 6.
  - destruct v1 as [c| |]; try discriminate.
    destruct v2 as [[|b| |]| |]; try discriminate. subst. right; right.
    eauto 6.
Qed.

Section Defaults.
Context {env : Environment}.

(** X13.  A required document that is found nowhere on the search path
    makes [_merge_config] record the miss and raise: for a bare file, a
    [MissingConfigException] that names the file and carries no options;
    for a choice of a group, once the options of the group are listed, a
    [MissingConfigException] that names [group/choice], carries the
    options, and whose message holds every one of them.  It never returns
    a configuration. *)
Theorem merge_config_required_missing self cfg family name :
  let new_cfg :=
    if bool_decide (family ≠ "") then family +:+ "/" +:+ name else name in
  let recorded := traced self (trace_miss new_cfg) in
  _find_config self new_cfg = Ok None ->
  (family = "" ->
   _merge_config cfg family name true self
   = (Raise (MissingConfigException ("Could not load " +:+ name) name None),
      recorded)) /\
  (forall options,
     family ≠ "" ->
     get_group_options self family "file" = Ok options ->
     exists message,
       _merge_config cfg family name true self
       = (Raise (MissingConfigException message new_cfg (Some options)),
          recorded) /\
       startswith ("Could not load " +:+ new_cfg) message = true /\
       forall o, o ∈ options -> str_contains o message = true) /\
  (forall ret, (_merge_config cfg family name true self).1 ≠ Ok ret).
Proof.
  cbn zeta. intros Hfind.
  assert (Hrun : _merge_config cfg family name true self
    = (let new_cfg :=
         if bool_decide (family ≠ "") then family +:+ "/" +:+ name
         else name in
       if bool_decide (family = "") then
         lift (Raise (MissingConfigException
                        ("Could not load " +:+ new_cfg) new_cfg None))
       else
         options ← read (fun self => get_group_options self family "file");
         let msg :=
           if bool_decide (options ≠ [])
           then "Could not load " +:+ new_cfg +:+ ", available options:"
                +:+ nl +:+ family +:+ ":" +:+ nl +:+ tab
                +:+ str_join (nl +:+ tab) options
           else "Could not load " +:+ new_cfg in
         lift (Raise (MissingConfigException msg new_cfg (Some options))))
      (traced self (trace_miss
         (if bool_decide (family ≠ "") then family +:+ "/" +:+ name
          else name)))).
  { unfold _merge_config. rewrite run_bind.
    by rewrite load_config_impl_miss by done. }
  rewrite Hrun. clear Hrun. cbn zeta. split; [|split].
  - intros ->. done.
  - intros options Hfam Hopt.
    rewrite !(bool_decide_eq_true_2 (family ≠ "")) by done.
    rewrite (bool_decide_eq_false_2 (family = "")) by done.
    rewrite run_bind, run_read.
    change (get_group_options (traced self _) family "file")
      with (get_group_options self family "file").
    rewrite Hopt, run_lift. eexists. split; [done|].
    destruct (bool_decide (options ≠ [])) eqn:Hne.
    + split.
      * unfold startswith.
        rewrite <- (str_app_assoc _ (family +:+ "/" +:+ name)).
        apply str_prefix_app.
      * intros o Ho. do 8 apply str_contains_app_r.
        by apply str_contains_join.
    + split.
      * unfold startswith. rewrite <- (str_app_nil_r (_ +:+ _)) at 2.
        apply str_prefix_app.
      * apply bool_decide_eq_false in Hne. apply dec_stable in Hne as ->.
        by intros o ?%elem_of_nil.
  - intros ret. destruct (bool_decide (family = "")); [done|].
    rewrite run_bind, run_read.
    by destruct (get_group_options _ _ _).
Qed.

Lemma validate_default_entry n :
  defaults_entry n = true -> validate_default n = Ok ().
Proof.
  unfold defaults_entry. intros [Hg|Hb]%orb_true_iff.
  - apply group_binding_shapes in Hg
      as [(g & c & -> & Hg)|[(g & c & b & -> & Hg)|(g & c & b & -> & Hg)]];
      unfold validate_default, dict_attr; cbn [length dict_get].
    + rewrite bool_decide_eq_false_2, bool_decide_eq_true_2 by done.
      by rewrite decide_False.
    + rewrite bool_decide_eq_true_2 by done. by rewrite decide_True.
    + rewrite bool_decide_eq_true_2 by done.
      rewrite decide_False, decide_True by done. done.
  - by destruct n as [[]| |].
Qed.

Lemma validate_default_error n e :
  validate_default n = Raise e -> e = AssertionError.
Proof.
  unfold validate_default. destruct n as [[]| |content]; try by intros [= <-].
  repeat case_bool_decide;
    repeat (match goal with
            | |- context [match ?x with _ => _ end] => destruct x
            end; try done); by intros [= <-].
Qed.

(** X14.  [_validate_defaults] accepts every list of group bindings and
    bare files, it raises nothing but [AssertionError], and it does not
    look at the choice of a binding: a one-key entry passes whatever is
    bound to its key. *)
Theorem validate_defaults_accepts_entries defaults :
  (Forall (fun n => defaults_entry n = true) defaults ->
   _validate_defaults defaults = Ok ()) /\
  (forall e, _validate_defaults defaults = Raise e -> e = AssertionError) /\
  (forall g choice,
     g ≠ "optional" -> _validate_defaults [Map [(g, choice)]] = Ok ()).
Proof.
  split; [|split].
  - induction 1 as [|n l Hn _ IH]; [done|]. cbn.
    by rewrite validate_default_entry.
  - intros e. induction defaults as [|n l IH]; [done|]. cbn.
    destruct (validate_default n) as [[]|e'] eqn:Hn; cbn; [done|].
    intros [= <-]. by apply validate_default_error in Hn.
  - intros g choice Hg. unfold _validate_defaults, validate_default, dict_attr.
    cbn [length dict_get]. rewrite bool_decide_eq_false_2 by done.
    rewrite bool_decide_eq_true_2 by done. by rewrite decide_False.
Qed.

(** X15.  The defaults list read off a configuration that [_create_cfg]
    returned has passed validation. *)
Theorem created_cfg_has_valid_defaults
    cfg_filename record_load self cfg self' defaults :
  _create_cfg cfg_filename record_load self = (Ok cfg, self') ->
  _get_defaults cfg = Ok defaults ->
  _validate_defaults defaults = Ok ().
Proof.
  unfold _create_cfg. rewrite run_bind.
  match goal with |- context [match ?m self with _ => _ end] =>
    destruct (m self) as [[cfg0|] self0] end; [|done].
  rewrite run_bind, run_lift. unfold _get_defaults.
  destruct (dict_attr "defaults" cfg0) as [d|] eqn:Hd.
  - destruct (iterate d ≫= _) as [[]|] eqn:Hv; [|done].
    intros [= <- <-]. rewrite Hd.
    destruct (truthy d); [|by intros [= <-]].
    destruct d as [| items |]; [done| |done]. by intros [= <-].
  - intros [= <- <-]. rewrite Hd. by intros [= <-].
Qed.

Lemma create_cfg_not_found self filename (record_load : bool) :
  _find_config self filename = Ok None ->
  _create_cfg (Some filename) record_load self
  = (Raise AssertionError,
     if record_load then traced self (trace_miss filename) else self).
Proof.
  intros Hfind. unfold _create_cfg.
  by rewrite !run_bind, load_config_impl_not_found by done.
Qed.

(** X16.  [_create_cfg] without a file name returns the empty
    configuration and records nothing; with the name of a document that
    is found nowhere on the search path it raises [AssertionError], the
    miss being recorded when the load is to be recorded. *)
Theorem create_cfg_missing_document self filename (record_load : bool) :
  _create_cfg None record_load self = (Ok [], self) /\
  (_find_config self filename = Ok None ->
   _create_cfg (Some filename) record_load self
   = (Raise AssertionError,
      if record_load then traced self (trace_miss filename) else self)).
Proof.
  split; [done|]. apply create_cfg_not_found.
Qed.

Lemma split_defaults_spec split_at defaults :
  split_defaults split_at defaults
  = (take split_at defaults, drop split_at defaults).
Proof.
  unfold split_defaults.
  assert (Hgen : forall system_list user_list,
    (length system_list < split_at -> user_list = []) ->
    foldl (fun '(system_list, user_list) default =>
             if bool_decide (length system_list < split_at)
             then (system_list ++ [default], user_list)
             else (system_list, user_list ++ [default]))
      (system_list, user_list) defaults
    = (system_list ++ take (split_at - length system_list) defaults,
       user_list ++ drop (split_at - length system_list) defaults)).
  { induction defaults as [|d l IH]; intros sl ul Hinv; cbn [foldl].
    - by rewrite take_nil, drop_nil, !app_nil_r.
    - case_bool_decide as Hlt.
      + rewrite IH by (intros _; by apply Hinv).
        rewrite length_app. cbn [length].
        replace (split_at - length sl) with (S (split_at - (length sl + 1)))
          by lia.
        cbn [take drop]. by rewrite <- app_assoc.
      + rewrite IH by (intros ?; lia).
        replace (split_at - length sl) with 0 by lia.
        cbn [take drop]. by rewrite <- app_assoc. }
  rewrite Hgen by done. cbn. by rewrite Nat.sub_0_r.
Qed.

Lemma merge_defaults_app merged_cfg l1 l2 self :
  merge_defaults merged_cfg (l1 ++ l2) self
  = (merged_cfg ← merge_defaults merged_cfg l1;
     merge_defaults merged_cfg l2) self.
Proof.
  revert merged_cfg self.
  induction l1 as [|d l1 IH]; intros merged_cfg self; [done|].
  cbn [app merge_defaults]. rewrite !run_bind.
  destruct (merge_default merged_cfg d self) as [[c|] s]; [|done].
  by rewrite IH, run_bind.
Qed.

(** X17.  [_merge_defaults] deals the defaults into the first [split_at]
    entries and the rest, and its outcome does not depend on where the
    split is: it is that of one merge pass over the whole list, followed
    by the removal of the [defaults] key. *)
Theorem merge_defaults_split_is_immaterial cfg defaults split_at self :
  split_defaults split_at defaults
  = (take split_at defaults, drop split_at defaults) /\
  _merge_defaults cfg defaults split_at self
  = (cfg ← merge_defaults cfg defaults; mret (dict_del "defaults" cfg)) self.
Proof.
  split; [apply split_defaults_spec|].
  unfold _merge_defaults. rewrite split_defaults_spec.
  pose proof (merge_defaults_app cfg (take split_at defaults)
                (drop split_at defaults) self) as Happ.
  rewrite take_drop in Happ. rewrite !run_bind, Happ, run_bind.
  destruct (merge_defaults cfg (take split_at defaults) self) as [[c|] s];
    [|done].
  by rewrite run_bind.
Qed.

(** X18.  A choice that is a number or a truth value passes validation,
    and the merge pass then raises [TypeError] on it before any document
    is looked for. *)
Theorem scalar_choice_raises_type_error g v cfg self :
  g ≠ "optional" -> v ≠ VNone -> (forall s, v ≠ VStr s) ->
  _validate_defaults [Map [(g, Leaf v)]] = Ok () /\
  merge_defaults cfg [Map [(g, Leaf v)]] self = (Raise TypeError, self).
Proof.
  intros Hg Hnone Hstr. split.
  - unfold _validate_defaults, validate_default, dict_attr.
    cbn [length dict_get]. rewrite bool_decide_eq_false_2 by done.
    rewrite bool_decide_eq_true_2 by done. by rewrite decide_False.
  - cbn [merge_defaults]. rewrite run_bind. unfold merge_default, dict_attr.
    cbn [dict_get]. rewrite decide_False by done.
    rewrite run_bind, run_lift. cbn [first_key dict_get].
    rewrite decide_True by done.
    destruct v as [|b|z|s]; [done| | |by destruct (Hstr s)];
      by rewrite run_bind, run_lift.
Qed.

(** X19.  A group binding whose choice is null makes the merge pass load
    nothing: the configuration and the load trace stay as they are. *)
Theorem null_choice_loads_nothing n g content cfg self :
  group_binding n = true -> n = Map content -> group_of n = Some g ->
  dict_get g content = Some (Leaf VNone) ->
  merge_default cfg n self = (Ok cfg, self).
Proof.
  intros Hn -> Hgroup Hnull.
  apply group_binding_shapes in Hn
    as [(g' & c & [= ->] & Hg)|[(g' & c & b & [= ->] & Hg)
                               |(g' & c & b & [= ->] & Hg)]];
    unfold group_of, get_key in Hgroup; cbn [dict_get] in Hnull.
  - rewrite decide_False in Hgroup by done. injection Hgroup as <-.
    rewrite decide_True in Hnull by done. injection Hnull as ->.
    unfold merge_default, dict_attr. cbn [dict_get].
    rewrite decide_False by done. rewrite run_bind, run_lift.
    cbn [first_key dict_get]. by rewrite decide_True.
  - rewrite decide_True in Hgroup by done. injection Hgroup as <-.
    rewrite decide_False, decide_True in Hnull by done.
    injection Hnull as ->.
    unfold merge_default, dict_attr. cbn [dict_get].
    rewrite decide_True by done. cbn [dict_del].
    rewrite decide_True by done. rewrite run_bind, run_lift.
    cbn [first_key dict_get]. by rewrite decide_True.
  - rewrite decide_False in Hgroup by done. injection Hgroup as <-.
    rewrite decide_True in Hnull by done. injection Hnull as ->.
    unfold merge_default, dict_attr. cbn [dict_get].
    rewrite decide_False, decide_True by done. cbn [dict_del].
    rewrite decide_False, decide_True by done. rewrite run_bind, run_lift.
    cbn [first_key dict_get]. by rewrite decide_True.
Qed.

End Defaults.

Lemma merge_config_required_missing_witness :
  exists message,
    _merge_config [] "model" "z.yaml" true ex_loader
    = (Raise (MissingConfigException message "model/z.yaml"
                (Some ["a"; "b"; "a"; "c"])),
       traced ex_loader (trace_miss "model/z.yaml")) /\
    startswith "Could not load model/z.yaml" message = true /\
    forall o, o ∈ ["a"; "b"; "a"; "c"] -> str_contains o message = true.
Proof.
  destruct (merge_config_required_missing ex_loader [] "model" "z.yaml")
    as (_ & Hgroup & _); [reflexivity|].
  apply (Hgroup ["a"; "b"; "a"; "c"]); [done|reflexivity].
Defined.

Lemma validate_defaults_accepts_entries_witness :
  _validate_defaults [ex_model_optional; Leaf (VStr "config")] = Ok ().
Proof.
  apply (validate_defaults_accepts_entries
           [ex_model_optional; Leaf (VStr "config")]).
  repeat constructor.
Defined.

Lemma created_cfg_has_valid_defaults_witness :
  _validate_defaults [ex_model "a"] = Ok ().
Proof.
  apply (created_cfg_has_valid_defaults (Some "config.yaml") false ex_loader
           [("defaults", Seq [ex_model "a"]); ("foo", Leaf (VInt 1))]
           ex_loader);
    reflexivity.
Defined.

Lemma create_cfg_missing_document_witness :
  _create_cfg (Some "hydra.yaml") true ex_plugin_loader
  = (Raise AssertionError,
     traced ex_plugin_loader (trace_miss "hydra.yaml")).
Proof.
  apply (create_cfg_missing_document ex_plugin_loader "hydra.yaml" true).
  reflexivity.
Defined.

Lemma scalar_choice_raises_type_error_witness :
  _validate_defaults [Map [("model", Leaf (VInt 5))]] = Ok () /\
  merge_defaults [] [Map [("model", Leaf (VInt 5))]] ex_loader
  = (Raise TypeError, ex_loader).
Proof.
  apply (scalar_choice_raises_type_error "model" (VInt 5) [] ex_loader);
    done.
Defined.

Lemma null_choice_loads_nothing_witness :
  merge_default [("foo", Leaf (VInt 1))]
    (Map [("optional", Leaf (VBool true)); ("model", Leaf VNone)]) ex_loader
  = (Ok [("foo", Leaf (VInt 1))], ex_loader).
Proof.
  apply (null_choice_loads_nothing
           (Map [("optional", Leaf (VBool true)); ("model", Leaf VNone)])
           "model"
           [("optional", Leaf (VBool true)); ("model", Leaf VNone)]);
    reflexivity.
Defined.

(** X26.  [_get_defaults] returns the list held under [defaults], and
    the empty list when the key is missing; it raises exactly when the
    value under the key is neither a list nor a value that counts as
    false, and then it raises [ValueError]. *)
Theorem get_defaults_cases cfg :
  (forall items,
     dict_get "defaults" cfg = Some (Seq items) ->
     _get_defaults cfg = Ok items) /\
  (dict_get "defaults" cfg = None -> _get_defaults cfg = Ok []) /\
  (forall e,
     _get_defaults cfg = Raise e <->
     e = ValueError /\
     exists d, dict_get "defaults" cfg = Some d /\ truthy d = true /\
               forall items, d ≠ Seq items).
Proof.
  unfold _get_defaults, dict_attr. split; [|split].
  - intros items ->. cbn. case_bool_decide as Hnil; cbn; [by subst|done].
  - by intros ->.
  - intros e. destruct (dict_get "defaults" cfg) as [d|];
      [|split; [done|by intros (_ & d & ? & _)]].
    split.
    + intros Hraise.
      assert (Hcases : truthy d = true /\ e = ValueError /\
                       forall items, d ≠ Seq items).
      { destruct d as [[]|items|]; try done;
          destruct (truthy _) eqn:Ht; try done;
          by injection Hraise as <-. }
      destruct Hcases as (Ht & -> & Hne). eauto 6.
    + intros (-> & d' & [= <-] & Ht & Hne).
      destruct d as [[]|items|]; try done; try by rewrite Ht.
      by destruct (Hne items).
Qed.

Lemma get_defaults_cases_witness :
  _get_defaults [("defaults", Seq [ex_model "a"]); ("foo", Leaf (VInt 1))]
  = Ok [ex_model "a"].
Proof.
  apply (get_defaults_cases
           [("defaults", Seq [ex_model "a"]); ("foo", Leaf (VInt 1))]).
  reflexivity.
Defined.

(** ** The two phases that classify the overrides *)

Lemma dict_set_dict_set {A} key (v w : A) d :
  dict_set key w (dict_set key v d) = dict_set key w d.
Proof.
  induction d as [|[k x] d IH]; cbn; [by case_decide|].
  case_decide; cbn; case_decide; try done. by rewrite IH.
Qed.

Section Phases.
Context {env : Environment}.

Lemma last_choice_acc key overrides acc :
  last_choice key overrides acc
  = match last_choice key overrides None with
    | Some value => Some value
    | None => acc
    end.
Proof.
  revert acc. induction overrides as [|o l IH]; intros acc; [done|].
  cbn [last_choice]. rewrite IH.
  rewrite (IH (match split_key_val o with
               | Ok (k, value) => if decide (k = key) then _ else None
               | Raise _ => None
               end)).
  destruct (last_choice key l None); [done|].
  destruct (split_key_val o) as [[k value]|]; [|done]. by case_decide.
Qed.

Lemma last_choice_other key o l k value :
  split_key_val o = Ok (k, value) -> k ≠ key ->
  last_choice key (o :: l) None = last_choice key l None.
Proof.
  intros Ho Hk. cbn [last_choice]. rewrite Ho. by rewrite decide_False.
Qed.

Lemma last_choice_same key o l value :
  split_key_val o = Ok (key, value) ->
  last_choice key (o :: l) None
  = Some (match last_choice key l None with
          | Some value' => value'
          | None => if str_contains "," value then "_SKIP_" else value
          end).
Proof.
  intros Ho. cbn [last_choice]. rewrite Ho, decide_True by done.
  rewrite last_choice_acc. by destruct (last_choice key l None).
Qed.

(** The loop of the group-rewrite phase, as long as no entry is removed. *)
Lemma rewrite_loop defaults key_to_idx :
  overrides_key_to_idx 0 defaults ∅ = Ok key_to_idx ->
  forall copy,
    (forall o k v, o ∈ copy -> split_key_val o = Ok (k, v) ->
                   is_Some (key_to_idx !! k) -> v ≠ "null") ->
    forall ovs cur c ovs' cur' c',
      same_keys defaults cur ->
      for_each_override (apply_defaults_override key_to_idx) copy (ovs, cur, c)
      = Ok (ovs', cur', c') ->
      forall p, cur' !! p = rewritten defaults copy p <$> cur !! p.
Proof.
  intros Hkti.
  assert (Hidx : forall k,
            key_to_idx !! k = last_index_of entry_key k defaults).
  { intros k. apply overrides_key_to_idx_spec in Hkti as [_ Hk].
    rewrite Hk. by destruct (last_index_of entry_key k defaults). }
  induction copy as [|o copy IH];
    intros Hnonull ovs cur c ovs' cur' c' Hsame Hrun p;
    cbn [for_each_override] in Hrun.
  - injection Hrun as <- <- <-. destruct (cur !! p) as [e|]; [|done].
    cbn. f_equal. unfold rewritten.
    destruct e as [| |d]; try done. destruct (entry_key (Map d)); [|done].
    by case_decide.
  - apply bind_Ok in Hrun as ([[ovs1 cur1] c1] & Hstep & Hrun).
    pose proof Hstep as Hsplit. unfold apply_defaults_override in Hsplit.
    destruct (split_key_val o) as [[k0 v0]|] eqn:Ho; [clear Hsplit|done].
    edestruct keep_keys_step as [Hsame1 Hcur1];
      [exact Hkti|exact Hsame| |exact Hstep|].
    { intros k v Hk. apply (Hnonull o); [apply list_elem_of_here|done]. }
    specialize (Hcur1 _ _ Ho).
    rewrite (IH (fun o' k v Ho' =>
                   Hnonull o' k v (list_elem_of_further _ _ _ Ho'))
               _ _ _ _ _ _ Hsame1 Hrun p).
    destruct (key_to_idx !! k0) as [i|] eqn:Hi.
    + destruct Hcur1 as (d0 & Hd0 & ->).
      assert (Hk0 : entry_key (Map d0) = Some k0).
      { pose proof (overrides_key_to_idx_entry _ _ _ _ Hkti Hi) as He.
        rewrite <- (Hsame i), Hd0 in He. by injection He. }
      destruct (decide (p = i)) as [->|Hp].
      * rewrite list_lookup_insert_eq by (by eapply lookup_lt_Some).
        rewrite Hd0. cbn [fmap option_fmap option_map]. f_equal.
        unfold rewritten.
        rewrite entry_key_dict_set by (by destruct d0).
        rewrite Hk0, <- Hidx, Hi, !decide_True by done.
        rewrite (last_choice_same _ _ _ _ Ho).
        destruct (last_choice k0 copy None) as [v'|]; [|done].
        by rewrite dict_set_dict_set.
      * rewrite list_lookup_insert_ne by done.
        destruct (cur !! p) as [e|]; [|done]. cbn. f_equal. unfold rewritten.
        destruct e as [| |d]; try done.
        destruct (entry_key (Map d)) as [k|]; [|done].
        case_decide as Hk; [|done].
        rewrite (last_choice_other _ _ _ _ _ Ho); [done|].
        intros ->. rewrite <- Hidx in Hk. congruence.
    + subst cur1. destruct (cur !! p) as [e|]; [|done]. cbn. f_equal.
      unfold rewritten. destruct e as [| |d]; try done.
      destruct (entry_key (Map d)) as [k|]; [|done].
      case_decide as Hk; [|done].
      rewrite (last_choice_other _ _ _ _ _ Ho); [done|].
      intros ->. rewrite <- Hidx in Hk. congruence.
Qed.

(** X20.  When no override removes an entry (none with the value [null]
    has the first key of an entry), the group-rewrite phase keeps the
    length of the defaults list and the last override wins: the last
    entry that has a given first key ends up bound to the value of the
    last override with that key, [_SKIP_] standing for a value with a
    comma, and every other entry is left as it was. *)
Theorem group_rewrite_last_override_wins
    overrides defaults overrides' defaults' consumed :
  _apply_defaults_overrides overrides defaults
  = Ok (overrides', defaults', consumed) ->
  (forall o k v, o ∈ overrides -> split_key_val o = Ok (k, v) ->
                 is_Some (last_index_of entry_key k defaults) ->
                 v ≠ "null") ->
  length defaults' = length defaults /\
  forall p, defaults' !! p = rewritten defaults overrides p <$> defaults !! p.
Proof.
  unfold _apply_defaults_overrides.
  intros (kti & Hkti & ([[ovs1 d1] c1] & Hrun & [= <- <- <-])%bind_Ok)%bind_Ok.
  intros Hnonull.
  assert (Hidx : forall k, kti !! k = last_index_of entry_key k defaults).
  { intros k. apply overrides_key_to_idx_spec in Hkti as [_ Hk].
    rewrite Hk. by destruct (last_index_of entry_key k defaults). }
  assert (Hlook : forall p,
    d1 !! p = rewritten defaults overrides p <$> defaults !! p).
  { eapply (rewrite_loop defaults kti Hkti overrides); [|done|exact Hrun].
    intros o k v Ho Hs Hk. rewrite Hidx in Hk. eauto. }
  split; [|done].
  apply Nat.le_antisymm; apply Nat.le_ngt; intros Hlt.
  - apply lookup_lt_is_Some in Hlt as [e He].
    rewrite Hlook in He. apply fmap_Some in He as (e' & He' & _).
    apply lookup_lt_Some in He'. lia.
  - apply lookup_lt_is_Some in Hlt as [e He].
    pose proof (Hlook (length d1)) as Hd. rewrite He in Hd. cbn in Hd.
    apply lookup_lt_Some in Hd. lia.
Qed.

(** X21.  The group-rewrite phase consumes exactly the overrides whose
    key is the first key of some map entry of the defaults list; a key
    that comes second in its entry, after [optional], does not count, and
    neither does a bare file. *)
Theorem group_rewrite_consumes_first_keys
    overrides defaults overrides' defaults' consumed :
  _apply_defaults_overrides overrides defaults
  = Ok (overrides', defaults', consumed) ->
  forall o,
    o ∈ consumed <->
    o ∈ overrides /\
    exists key value e,
      split_key_val o = Ok (key, value) /\
      e ∈ defaults /\ entry_key e = Some key.
Proof.
  intros Hrun o.
  destruct (apply_defaults_overrides_select _ _ _ _ _ Hrun)
    as (kti & Hkti & _ & ->).
  apply overrides_key_to_idx_spec in Hkti as [_ Hidx].
  rewrite elem_of_filter_bool. unfold group_override.
  split; intros [Ho Hsel]; (split; [done|]).
  - destruct (split_key_val o) as [[key value]|]; [|done].
    apply bool_decide_eq_true in Hsel as [i Hi]. rewrite Hidx in Hi.
    destruct (last_index_of entry_key key defaults) as [j|] eqn:Hj;
      [|by rewrite lookup_empty in Hi].
    apply last_index_of_lookup in Hj as (e & He & Hk).
    exists key, value, e. split; [done|]. split; [|done].
    by eapply list_elem_of_lookup_2.
  - destruct Hsel as (key & value & e & -> & He & Hk).
    apply bool_decide_eq_true. rewrite Hidx.
    apply list_elem_of_lookup_1 in He as [j Hj].
    destruct (last_index_of_Some entry_key key defaults j e Hj Hk) as [i ->].
    eauto.
Qed.

Lemma free_defaults_loop self copy :
  forall ovs d c ovs' d' c',
    for_each_override (apply_free_default self) copy (ovs, d, c)
    = Ok (ovs', d', c') ->
    exists added, c' = c ++ added /\ d' = d ++ omap free_default_entry added.
Proof.
  induction copy as [|o copy IH]; intros ovs d c ovs' d' c' Hrun;
    cbn [for_each_override] in Hrun.
  - injection Hrun as <- <- <-. exists []. by rewrite !app_nil_r.
  - apply bind_Ok in Hrun as ([[ovs1 d1] c1] & Hstep & Hrun).
    destruct (IH _ _ _ _ _ _ Hrun) as (added & -> & ->).
    unfold apply_free_default in Hstep.
    destruct (split_key_val o) as [[key value]|] eqn:Ho; [|done].
    cbn [mbind result_bind] in Hstep.
    destruct (exists_in_search_path self key) as [[]|]; [| |done];
      cbn [mbind result_bind] in Hstep.
    + apply bind_Ok in Hstep as (ovs2 & _ & [= <- <- <-]).
      exists (o :: added). rewrite <- !app_assoc. split; [done|].
      cbn [omap list_omap app]. unfold free_default_entry at 2. rewrite Ho.
      destruct (str_contains "," value); cbn; [done|].
      by rewrite <- app_assoc.
    + injection Hstep as <- <- <-. eauto.
Qed.

(** X22.  The free-defaults phase only appends to the defaults list: the
    entries it was given stay where they are, and after them comes, for
    each override the phase consumed and in that order, a binding of the
    key to the value, a sweep giving none. *)
Theorem free_defaults_only_append
    self defaults overrides overrides' defaults' consumed :
  _apply_free_defaults self defaults overrides
  = Ok (overrides', defaults', consumed) ->
  defaults' = defaults ++ omap free_default_entry consumed.
Proof.
  unfold _apply_free_defaults. intros Hrun.
  destruct (free_defaults_loop _ _ _ _ _ _ _ _ Hrun) as (added & -> & ->).
  done.
Qed.

End Phases.

Lemma group_rewrite_last_override_wins_witness :
  let defaults :=
    [ex_model "a"; Leaf (VStr "config"); ex_dataset "imagenet"] in
  let overrides := ["model=b"; "lr=1"; "model=c,d"] in
  let defaults' :=
    [ex_model "_SKIP_"; Leaf (VStr "config"); ex_dataset "imagenet"] in
  length defaults' = length defaults /\
  forall p, defaults' !! p = rewritten defaults overrides p <$> defaults !! p.
Proof.
  apply (group_rewrite_last_override_wins
           ["model=b"; "lr=1"; "model=c,d"]
           [ex_model "a"; Leaf (VStr "config"); ex_dataset "imagenet"]
           ["lr=1"]
           [ex_model "_SKIP_"; Leaf (VStr "config"); ex_dataset "imagenet"]
           ["model=b"; "model=c,d"]).
  - reflexivity.
  - intros o k v Ho Hsplit _.
    repeat (apply elem_of_cons in Ho as [->|Ho]);
      [..|by apply elem_of_nil in Ho];
      vm_compute in Hsplit; by injection Hsplit as <- <-.
Defined.

Lemma group_rewrite_consumes_first_keys_witness :
  let defaults :=
    [ex_model "a";
     Map [("optional", Leaf (VBool true));
          ("dataset", Leaf (VStr "imagenet"))]] in
  let overrides := ["dataset=cifar"; "model=b"] in
  "dataset=cifar" ∈ ["model=b"] <->
  "dataset=cifar" ∈ overrides /\
  exists key value e,
    split_key_val "dataset=cifar" = Ok (key, value) /\
    e ∈ defaults /\ entry_key e = Some key.
Proof.
  apply (group_rewrite_consumes_first_keys
           ["dataset=cifar"; "model=b"]
           [ex_model "a";
            Map [("optional", Leaf (VBool true));
                 ("dataset", Leaf (VStr "imagenet"))]]
           ["dataset=cifar"]
           [ex_model "b";
            Map [("optional", Leaf (VBool true));
                 ("dataset", Leaf (VStr "imagenet"))]]
           ["model=b"]).
  reflexivity.
Defined.

Lemma free_defaults_only_append_witness :
  [ex_model "a"; Map [("optimizer", Leaf (VStr "adam"))]]
  = [ex_model "a"]
    ++ omap free_default_entry ["optimizer=adam"; "model=a,b"].
Proof.
  apply (free_defaults_only_append ex_loader [ex_model "a"]
           ["optimizer=adam"; "lr=1"; "model=a,b"] ["lr=1"]).
  reflexivity.
Defined.

Lemma filter_sublist {A} (f : A -> bool) l : List.filter f l `sublist_of` l.
Proof.
  induction l as [|x l IH]; cbn; [done|].
  destruct (f x); by constructor.
Qed.

Section Order.
Context {env : Environment}.

(** X27.  The two phases keep the order of the overrides: what each
    consumes and what each leaves are sub-lists of the list it was given,
    in the order of that list; and the overrides that the second phase
    leaves hold none of the consumed ones, so that the filter that
    computes the residual overrides removes nothing. *)
Theorem override_phases_keep_order
    self overrides defaults overrides1 defaults1 consumed
    overrides2 defaults2 consumed_free :
  _apply_defaults_overrides overrides defaults
  = Ok (overrides1, defaults1, consumed) ->
  _apply_free_defaults self defaults1 overrides1
  = Ok (overrides2, defaults2, consumed_free) ->
  consumed `sublist_of` overrides /\
  overrides1 `sublist_of` overrides /\
  consumed_free `sublist_of` overrides1 /\
  overrides2 `sublist_of` overrides1 /\
  remaining_overrides overrides2 (consumed ++ consumed_free) = overrides2.
Proof.
  intros (kti & _ & -> & ->)%apply_defaults_overrides_select
         [-> ->]%apply_free_defaults_select.
  repeat split; try apply filter_sublist.
  unfold remaining_overrides. apply filter_all, Forall_forall.
  intros x [[Hx Hg]%elem_of_filter_bool Hf]%elem_of_filter_bool.
  apply bool_decide_eq_true. rewrite elem_of_app, !elem_of_filter_bool.
  intros [[_ Hg']|[_ Hf']]; [rewrite Hg' in Hg | rewrite Hf' in Hf]; done.
Qed.

End Order.

Lemma override_phases_keep_order_witness :
  let overrides := ["optimizer=adam"; "model=b"; "model.lr=1"; "model=b"] in
  let overrides1 := ["optimizer=adam"; "model.lr=1"] in
  ["model=b"; "model=b"] `sublist_of` overrides /\
  overrides1 `sublist_of` overrides /\
  ["optimizer=adam"] `sublist_of` overrides1 /\
  ["model.lr=1"] `sublist_of` overrides1 /\
  remaining_overrides ["model.lr=1"]
    (["model=b"; "model=b"] ++ ["optimizer=adam"])
  = ["model.lr=1"].
Proof.
  apply (override_phases_keep_order ex_loader
           ["optimizer=adam"; "model=b"; "model.lr=1"; "model=b"]
           [ex_model "a"]
           ["optimizer=adam"; "model.lr=1"]
           [ex_model "b"]
           ["model=b"; "model=b"]
           ["model.lr=1"]
           [ex_model "b"; Map [("optimizer", Leaf (VStr "adam"))]]);
    reflexivity.
Defined.

(** ** Composition *)

Lemma str_contains_inv sub s :
  str_contains sub s = true -> exists a b, s = a +:+ sub +:+ b.
Proof.
  induction s as [|c s IH]; cbn [str_contains].
  - rewrite orb_false_r. intros Hp%str_prefix_drop. exists "". eauto.
  - intros [Hp%str_prefix_drop|(a & b & ->)%IH]%orb_true_iff.
    + exists "". eauto.
    + exists (String c a), b. done.
Qed.

Lemma str_contains_trans a b c :
  str_contains a b = true -> str_contains b c = true ->
  str_contains a c = true.
Proof.
  intros (x & y & ->)%str_contains_inv (u & v & ->)%str_contains_inv.
  rewrite !str_app_assoc. do 2 apply str_contains_app_r.
  apply str_contains_app_l.
Qed.

Section Composition.
Context {env : Environment}.

(** X23.  A primary configuration that the probes find nowhere on the
    search path makes [load_configuration] raise
    [MissingConfigException] before any document is loaded: the load
    trace is left as it was, the exception names the file, and its
    message starts with the name of the file and holds the path and the
    provider of every entry of the search path. *)
Theorem missing_primary_config self config_file overrides strict :
  exists_in_search_path self config_file = Ok false ->
  let message := missing_primary_message self config_file in
  load_configuration (Some config_file) overrides strict self
  = (Raise (MissingConfigException message config_file None), self) /\
  startswith ("Cannot find primary config file: " +:+ config_file) message
  = true /\
  forall x, x ∈ config_search_path self ->
    str_contains (path x) message = true /\
    str_contains (provider x) message = true.
Proof.
  intros Hmiss. cbn zeta. split; [|split].
  - unfold load_configuration.
    by rewrite run_bind, run_read, run_bind, run_read, Hmiss.
  - unfold missing_primary_message, startswith.
    rewrite <- (str_app_assoc _ config_file). apply str_prefix_app.
  - intros x Hx. unfold missing_primary_message.
    assert (Hline : str_contains
      (tab +:+ path x +:+ " (from " +:+ provider x +:+ ")")
      (str_join nl
         ((fun x => tab +:+ path x +:+ " (from " +:+ provider x +:+ ")")
            <$> config_search_path self)) = true).
    { apply str_contains_join.
      by apply (list_elem_of_fmap_2
                  (fun x => tab +:+ path x +:+ " (from " +:+ provider x
                            +:+ ")")). }
    split.
    + do 5 apply str_contains_app_r.
      eapply str_contains_trans; [|exact Hline]. apply str_contains_middle.
    + do 5 apply str_contains_app_r.
      eapply str_contains_trans; [|exact Hline].
      do 2 apply str_contains_app_r. apply str_contains_middle.
Qed.

(** X24.  When the primary configuration is there, or none is asked for,
    and [hydra.yaml] is found nowhere on the search path,
    [load_configuration] raises [AssertionError], and the miss of
    [hydra.yaml] is the one record added to the load trace. *)
Theorem missing_hydra_config self config_file overrides strict :
  match config_file with
  | Some f => exists_in_search_path self f = Ok true
  | None => True
  end ->
  _find_config self "hydra.yaml" = Ok None ->
  load_configuration config_file overrides strict self
  = (Raise AssertionError, traced self (trace_miss "hydra.yaml")).
Proof.
  intros Hprimary Hhydra. unfold load_configuration.
  rewrite run_bind, run_read, run_bind, run_read.
  assert (match config_file with
          | Some f =>
              found ← exists_in_search_path self f;
              if found : bool then Ok ()
              else Raise (MissingConfigException
                            (missing_primary_message self f) f None)
          | None => Ok ()
          end = Ok ()) as ->.
  { destruct config_file as [f|]; [|done]. by rewrite Hprimary. }
  rewrite run_bind.
  by rewrite (create_cfg_not_found self "hydra.yaml" true Hhydra).
Qed.

End Composition.

(** ** The positions of a merged defaults list *)


Lemma merge_whole_positions primary l :
  forall acc tail,
    length acc = length primary -> keeps_positions primary acc ->
    exists acc',
      foldl (merge_whole_step primary) (acc ++ tail) l
      = acc' ++ tail ++ List.filter (merge_appended primary) l /\
      length acc' = length primary /\ keeps_positions primary acc'.
Proof.
  induction l as [|d l IH]; intros acc tail Hlen Hinv; cbn [foldl List.filter].
  - exists acc. by rewrite app_nil_r.
  - change (merge_whole_step primary (acc ++ tail) d)
      with (match group_of d with
            | Some g =>
                match last_group_index g primary with
                | Some i => <[i := d]> (acc ++ tail)
                | None => (acc ++ tail) ++ [d]
                end
            | None => (acc ++ tail) ++ [d]
            end).
    change (merge_appended primary d)
      with (match group_of d with
            | Some g => bool_decide (last_group_index g primary = None)
            | None => true
            end).
    destruct (group_of d) as [g|] eqn:Hg.
    + destruct (last_group_index g primary) as [i|] eqn:Hi.
      * rewrite bool_decide_eq_false_2 by done.
        pose proof (last_group_index_lt _ _ _ Hi) as Hlt.
        rewrite insert_app_l by lia.
        apply IH; [by rewrite length_insert|].
        intros j x Hx. destruct (decide (j = i)) as [->|Hne].
        -- exists d. rewrite list_lookup_insert_eq by lia.
           apply last_group_index_lookup in Hi as (x' & Hx' & Hgx).
           assert (x' = x) as -> by congruence.
           split; [done|]. split; [congruence|].
           intros Hb%bare_file_group. congruence.
        -- rewrite list_lookup_insert_ne by done. by apply Hinv.
      * rewrite bool_decide_eq_true_2 by done.
        rewrite <- app_assoc.
        destruct (IH acc (tail ++ [d]) Hlen Hinv) as (acc' & -> & ? & ?).
        exists acc'. by rewrite <- app_assoc.
    + rewrite <- app_assoc.
      destruct (IH acc (tail ++ [d]) Hlen Hinv) as (acc' & -> & ? & ?).
      exists acc'. by rewrite <- app_assoc.
Qed.

(** X25.  Merging a secondary defaults list into a primary one keeps the
    positions of the primary list: the result is as long as the primary
    list and what is left of the secondary list together, that rest
    comes after the positions of the primary list, and at each of these
    positions the result holds an entry of the same group as before, a
    bare file being left as it was. *)
Theorem merge_default_lists_keeps_positions primary secondary result rest :
  Forall (fun n => defaults_entry n = true) primary ->
  Forall (fun n => defaults_entry n = true) secondary ->
  _merge_default_lists primary secondary = Ok (result, rest) ->
  length result = length primary + length rest /\
  drop (length primary) result = rest /\
  forall i x, primary !! i = Some x ->
    exists y, result !! i = Some y /\ group_of y = group_of x /\
              (bare_file x = true -> y = x).
Proof.
  intros HP HS. rewrite merge_default_lists_whole by done.
  intros [= <- <-]. unfold merge_whole.
  destruct (merge_whole_positions primary secondary primary [])
    as (acc' & Hfold & Hlen & Hinv); [done| |].
  { intros i x Hx. eauto. }
  rewrite app_nil_r in Hfold. rewrite Hfold. cbn [app].
  split; [by rewrite length_app, Hlen|]. split.
  - by rewrite <- Hlen, drop_app_length.
  - intros i x Hx. destruct (Hinv i x Hx) as (y & Hy & ? & ?).
    exists y. split; [|done]. by apply lookup_app_l_Some.
Qed.

Lemma missing_primary_config_witness :
  let message := missing_primary_message ex_loader "nope.yaml" in
  load_configuration (Some "nope.yaml") ["model=b"] None ex_loader
  = (Raise (MissingConfigException message "nope.yaml" None), ex_loader) /\
  startswith "Cannot find primary config file: nope.yaml" message = true /\
  forall x, x ∈ [ex_conf; ex_plugin] ->
    str_contains (path x) message = true /\
    str_contains (provider x) message = true.
Proof.
  apply (missing_primary_config ex_loader "nope.yaml" ["model=b"] None).
  reflexivity.
Defined.

Lemma missing_hydra_config_witness :
  load_configuration (Some "model/c.yaml") [] None ex_plugin_loader
  = (Raise AssertionError,
     traced ex_plugin_loader (trace_miss "hydra.yaml")).
Proof.
  apply (missing_hydra_config ex_plugin_loader (Some "model/c.yaml") [] None);
    reflexivity.
Defined.

Lemma merge_default_lists_keeps_positions_witness :
  let primary :=
    [ex_model_optional; Leaf (VStr "config"); ex_model "c"] in
  let result :=
    [ex_model_optional; Leaf (VStr "config"); ex_model "resnet";
     Leaf (VStr "extra"); ex_dataset "imagenet"] in
  let rest := [Leaf (VStr "extra"); ex_dataset "imagenet"] in
  length result = length primary + length rest /\
  drop (length primary) result = rest /\
  forall i x, primary !! i = Some x ->
    exists y, result !! i = Some y /\ group_of y = group_of x /\
              (bare_file x = true -> y = x).
Proof.
  apply (merge_default_lists_keeps_positions
           [ex_model_optional; Leaf (VStr "config"); ex_model "c"]
           [ex_model "resnet"; Leaf (VStr "extra"); ex_dataset "imagenet"]);
    [repeat constructor..|reflexivity].
Defined.

(** ** Trace records *)

Lemma value_eqb_field x v :
  value_eqb (field_value x) v = true <-> v = field_value x.
Proof.
  destruct x as [s|], v as [|b|z|s']; cbn; try (split; done).
  rewrite bool_decide_eq_true. split; congruence.
Qed.

(** X28.  A trace record equals the tuple of its fields; it equals a
    tuple of three scalars only when they are its file name, its path
    and its provider, in this order; a tuple that is too short raises
    [IndexError] only when the fields it has are those of the record; and
    the comparison with anything but a tuple is left undecided. *)
Theorem load_trace_equals_its_tuple t a b c :
  LoadTrace_eq t (astuple t) = Ok (Some true) /\
  (LoadTrace_eq t (Tuple [a; b; c]) = Ok (Some true) <->
   Tuple [a; b; c] = astuple t) /\
  (LoadTrace_eq t (Tuple [a]) = Raise IndexError <->
   a = VStr (filename t)) /\
  LoadTrace_eq t (Tuple []) = Raise IndexError /\
  LoadTrace_eq t Other = Ok None.
Proof.
  assert (Hname : forall v,
    value_eqb (VStr (filename t)) v = true <-> v = VStr (filename t)).
  { intros v. apply (value_eqb_field (Some (filename t))). }
  unfold astuple, LoadTrace_eq, list_getitem. cbn [lookup list_lookup mbind
    result_bind]. repeat split.
  - by rewrite !value_eqb_refl.
  - destruct (value_eqb (VStr (filename t)) a) eqn:Ha; [|done].
    destruct (value_eqb (field_value (trace_path t)) b) eqn:Hb; [|done].
    intros [= Hc]. apply Hname in Ha. apply value_eqb_field in Hb, Hc.
    by subst.
  - intros [= -> -> ->]. by rewrite !value_eqb_refl.
  - destruct (value_eqb (VStr (filename t)) a) eqn:Ha; [|done].
    intros _. by apply Hname.
  - intros ->. by rewrite value_eqb_refl.
Qed.
